(** * Wappler cleanup tool: reference scanner and empty-folder detector

    A shallow embedding of [lib/scanner.js] (class [Scanner]) and of the
    empty-folder module (class [EmptyFolderDetector]), followed by the
    properties of the specification that concern them; then of the code
    that uses their results: the filter of [Reporter.printSummary], the
    class [IgnoreList], and of [InteractiveMode] the filters, the three
    keys that mark and ignore, and [executeDelete].

    Conventions of the embedding.
    - A JavaScript string is a [string]; its characters are the code units
      of the source string, taken in the range 0..255.
    - A JavaScript [Map] is an association list in insertion order with
      pairwise distinct keys ([map_set] keeps the position of a key that is
      already present, as [Map.prototype.set] does).
    - Code that mutates the scanner or may throw runs in the monad [M]:
      the state survives an exception, as the fields of a JavaScript
      object do.
    - The file system is a tree of regular files and directories, in
      which normalized POSIX paths are resolved; what [fast-glob] lists
      and what the files contain is a record of the project, so that two
      scans of an unchanged project read the same record.
    - [fs.remove], whose failures the detector collects, is a parameter:
      the properties of deletion hold for every behaviour of it; so is
      [fs.writeJson].  Where a property needs the removal to take the
      entry out of the tree, it is stated for [remove_unless].
    - A JavaScript [Set] is the list of its elements in insertion order.
    - The answers to the prompts of the interactive mode are arguments;
      what it prints with [console.log] is not modelled. *)

From Stdlib Require Import String Ascii List Bool Arith ZArith Lia.
From Stdlib Require Import Permutation Sorted.
Import ListNotations.
Local Open Scope string_scope.
Local Open Scope list_scope.

Set Implicit Arguments.
Set Warnings "-register-all".

(* ================================================================== *)
(** * Part I: definitions                                              *)
(* ================================================================== *)

(** ** JavaScript string primitives *)

Module JsString.

(** [s.slice(n)] for [0 <= n]. *)
Fixpoint drop (n : nat) (s : string) : string :=
  match n, s with
  | O, _ => s
  | S n', String _ s' => drop n' s'
  | S _, EmptyString => EmptyString
  end.

(** [s.slice(0, n)]. *)
Fixpoint take (n : nat) (s : string) : string :=
  match n, s with
  | S n', String c s' => String c (take n' s')
  | _, _ => EmptyString
  end.

(** [s.startsWith(p)]. *)
Definition startsWith (s p : string) : bool := String.prefix p s.

(** [s.endsWith(p)]. *)
Definition endsWith (s p : string) : bool :=
  (String.length p <=? String.length s)%nat &&
  (drop (String.length s - String.length p) s =? p).

(** [s.replace(pat, rep)] with a string pattern: only the first
    occurrence of [pat] is replaced.  The replacement strings used by the
    scanner contain no [$], so no replacement pattern is expanded. *)
Fixpoint replace (s pat rep : string) : string :=
  if String.prefix pat s then (rep ++ drop (String.length pat) s)%string
  else match s with
       | EmptyString => EmptyString
       | String c s' => String c (replace s' pat rep)
       end.

(** [s.includes(p)]. *)
Fixpoint includes (s p : string) : bool :=
  if String.prefix p s then true
  else match s with
       | EmptyString => false
       | String _ s' => includes s' p
       end.

(** [s.split(c)[0]] for a one-character separator [c]. *)
Fixpoint split_head (s : string) (c : ascii) : string :=
  match s with
  | EmptyString => EmptyString
  | String a s' => if Ascii.eqb a c then EmptyString
                   else String a (split_head s' c)
  end.

(** [s.split(c)] for a one-character separator [c]. *)
Fixpoint split (s : string) (c : ascii) : list string :=
  match s with
  | EmptyString => [EmptyString]
  | String a s' =>
      if Ascii.eqb a c then EmptyString :: split s' c
      else match split s' c with
           | [] => [String a EmptyString]
           | w :: ws => String a w :: ws
           end
  end.

End JsString.
Import JsString.

(** ** Regular expressions

    The fragment of ECMAScript regular expressions used by the scanner:
    literal characters, character classes, greedy [*] and [+] over a class,
    concatenation and one capturing group.  As in the language definition
    a pattern is compiled to a matcher that takes a continuation;
    backtracking is the continuation returning [None]. *)

Module Regex.

Inductive regex : Type :=
| Eps : regex
| Cls : (ascii -> bool) -> regex
| Star : (ascii -> bool) -> regex
| Plus : (ascii -> bool) -> regex
| Seq : regex -> regex -> regex
| Group : regex -> regex.

Fixpoint lit (s : string) : regex :=
  match s with
  | EmptyString => Eps
  | String c s' => Seq (Cls (Ascii.eqb c)) (lit s')
  end.

Fixpoint seqs (rs : list regex) : regex :=
  match rs with
  | [] => Eps
  | [r] => r
  | r :: rs' => Seq r (seqs rs')
  end.

Section Matcher.
Variable A : Type.

(** Greedy repetition of a class: the longest run is tried first. *)
Fixpoint star_k (p : ascii -> bool) (s : string)
         (k : string -> option A) : option A :=
  match s with
  | String c s' =>
      if p c then
        match star_k p s' k with
        | Some a => Some a
        | None => k s
        end
      else k s
  | EmptyString => k s
  end.

(** [match_k r s cap k]: match [r] at the start of [s]; [cap] is the
    text of capture group 1 so far; [k] receives the unread rest. *)
Fixpoint match_k (r : regex) (s : string) (cap : option string)
         (k : string -> option string -> option A) : option A :=
  match r with
  | Eps => k s cap
  | Cls p =>
      match s with
      | String c s' => if p c then k s' cap else None
      | EmptyString => None
      end
  | Star p => star_k p s (fun rest => k rest cap)
  | Plus p =>
      match s with
      | String c s' =>
          if p c then star_k p s' (fun rest => k rest cap) else None
      | EmptyString => None
      end
  | Seq r1 r2 =>
      match_k r1 s cap (fun rest cap' => match_k r2 rest cap' k)
  | Group r1 =>
      match_k r1 s cap
        (fun rest _ =>
           k rest (Some (take (String.length s - String.length rest) s)))
  end.
End Matcher.

(** A match attempt at the first position of [s]: the unread rest and
    capture group 1. *)
Definition exec_at (r : regex) (s : string)
  : option (string * option string) :=
  match_k r s None (fun rest cap => Some (rest, cap)).

(** [s.match(r)] without the [g] flag: the leftmost match, as the pair
    of the matched text ([m[0]]) and capture group 1 ([m[1]]). *)
Fixpoint exec (r : regex) (s : string) : option (string * option string) :=
  match exec_at r s with
  | Some (rest, cap) =>
      Some (take (String.length s - String.length rest) s, cap)
  | None =>
      match s with
      | EmptyString => None
      | String _ s' => exec r s'
      end
  end.

(** [s.match(r)] with the [g] flag: all matches from left to right,
    each search resuming where the previous match ended ([skip] counts
    the characters of the current match still to pass over; after an
    empty match the search advances by one character). *)
Fixpoint match_all_from (r : regex) (s : string) (skip : nat)
  : list string :=
  match skip with
  | S n =>
      match s with
      | EmptyString => []
      | String _ s' => match_all_from r s' n
      end
  | O =>
      match exec_at r s with
      | Some (rest, _) =>
          let len := String.length s - String.length rest in
          take len s ::
            match s with
            | EmptyString => []
            | String _ s' => match_all_from r s' (len - 1)
            end
      | None =>
          match s with
          | EmptyString => []
          | String _ s' => match_all_from r s' 0
          end
      end
  end.

Definition match_all (r : regex) (s : string) : list string :=
  match_all_from r s 0.

(** [\s] on code units below 256: tab, line feed, vertical tab, form
    feed, carriage return, space and no-break space. *)
Definition is_space (c : ascii) : bool :=
  let n := nat_of_ascii c in
  ((9 <=? n)%nat && (n <=? 13)%nat) || (n =? 32)%nat || (n =? 160)%nat.

End Regex.
Import Regex.

(** ** Parsed JSON documents

    What [fs.readJson] returns.  An object is the list of its entries in
    [Object.entries] order (keys pairwise distinct).  Of a number only the
    test against zero matters to the scanner. *)

Inductive json : Type :=
| JNull : json
| JBool : bool -> json
| JNum : Z -> json
| JStr : string -> json
| JArr : list json -> json
| JObj : list (string * json) -> json.

(** JavaScript truthiness of a parsed value. *)
Definition truthy (v : json) : bool :=
  match v with
  | JNull => false
  | JBool b => b
  | JNum n => negb (n =? 0)%Z
  | JStr s => negb (s =? "")
  | JArr _ | JObj _ => true
  end.

(** Truthiness of a property read, where [None] is [undefined]. *)
Definition truthy_opt (v : option json) : bool :=
  match v with
  | Some w => truthy w
  | None => false
  end.

Fixpoint assoc {V : Type} (k : string) (l : list (string * V)) : option V :=
  match l with
  | [] => None
  | (k', v) :: l' => if k' =? k then Some v else assoc k l'
  end.

(** ** Insertion-ordered maps ([Map]) *)

Section JsMap.
Variable V : Type.

Definition map_has (m : list (string * V)) (k : string) : bool :=
  match assoc k m with Some _ => true | None => false end.

Definition map_get (m : list (string * V)) (k : string) : option V :=
  assoc k m.

(** [m.set(k, v)]: a present key keeps its position. *)
Fixpoint map_set (m : list (string * V)) (k : string) (v : V)
  : list (string * V) :=
  match m with
  | [] => [(k, v)]
  | (k', v') :: m' =>
      if k' =? k then (k, v) :: m' else (k', v') :: map_set m' k v
  end.

(** In-place update of the value stored under [k]
    ([m.get(k).field.push(...)]). *)
Fixpoint map_update (m : list (string * V)) (k : string) (f : V -> V)
  : list (string * V) :=
  match m with
  | [] => []
  | (k', v') :: m' =>
      if k' =? k then (k', f v') :: m' else (k', v') :: map_update m' k f
  end.

Definition map_keys (m : list (string * V)) : list string := map fst m.
End JsMap.

(** ** Scanner data *)

(** The provenance tags: ['html-url'], ['html-action'], ['url-string'],
    ['template-url'], ['queue-api-file'], ['exec-string'], ['exec-module'],
    ['js-fetch'], ['js-ajax']. *)
Inductive RefType : Type :=
| HtmlUrl | HtmlAction | UrlString | TemplateUrl | QueueApiFile
| ExecString | ExecModule | JsFetch | JsAjax.

Record Reference : Type := mkReference {
  sourceFile : string;
  type : RefType;
  originalReference : string
}.

Module Act.
Record Action : Type := mkAction {
  filePath : string;
  relativePath : string;
  urlPath : string;
  content : json;
  references : list Reference
}.
End Act.
Definition Action : Type := Act.Action.

(** The scanner object together with the lines written by
    [console.warn]. *)
Record Scanner : Type := mkScanner {
  projectRoot : string;
  serverActions : list (string * Action);
  references : list (string * list Reference);
  console : list string
}.

(** [new Scanner(projectRoot)]. *)
Definition new_Scanner (root : string) : Scanner :=
  mkScanner root [] [] [].

(** ** The result of a scan *)

Inductive Confidence : Type := SafeToDelete | ReviewNeeded.
Inductive Status : Type := Unused | Used.

Module Res.
Record Summary : Type := mkSummary {
  totalActions : nat;
  used : nat;
  possiblyUnused : nat;
  likelyUnused : nat
}.

Record Entry : Type := mkEntry {
  urlPath : string;
  filePath : string;
  status : Status;
  confidence : Confidence;
  referenceCount : nat;
  references : list Reference;
  content : json
}.

Record EmptyFolder : Type := mkEmptyFolder {
  path : string;
  relativePath : string
}.

Record Results : Type := mkResults {
  summary : Summary;
  actions : list Entry;
  emptyFolders : list EmptyFolder
}.
End Res.
Definition Results : Type := Res.Results.

(** ** Exceptions and the scanner monad *)

Inductive exn : Type :=
| TypeError : string -> exn
| IOError : string -> exn.

Inductive outcome (A : Type) : Type :=
| Normal : A -> outcome A
| Throw : exn -> outcome A.
Arguments Normal {A} _.
Arguments Throw {A} _.

Definition M (A : Type) : Type := Scanner -> Scanner * outcome A.

Definition ret {A : Type} (a : A) : M A := fun st => (st, Normal a).

Definition bind {A B : Type} (m : M A) (f : A -> M B) : M B :=
  fun st =>
    match m st with
    | (st', Normal a) => f a st'
    | (st', Throw e) => (st', Throw e)
    end.

Definition throw {A : Type} (e : exn) : M A := fun st => (st, Throw e).

(** [try { m } catch (error) { h error }]. *)
Definition try_catch {A : Type} (m : M A) (h : exn -> M A) : M A :=
  fun st =>
    match m st with
    | (st', Normal a) => (st', Normal a)
    | (st', Throw e) => h e st'
    end.

Definition get : M Scanner := fun st => (st, Normal st).
Definition modify (f : Scanner -> Scanner) : M unit :=
  fun st => (f st, Normal tt).

Declare Scope monad_scope.
Delimit Scope monad_scope with monad.
Notation "x <- m ;; k" := (bind m (fun x => k))
  (at level 61, m at next level, right associativity) : monad_scope.
Notation "m ;; k" := (bind m (fun _ => k))
  (at level 61, right associativity) : monad_scope.
Local Open Scope monad_scope.

(** [for (const x of l) { body x }]. *)
Fixpoint forEach {A : Type} (l : list A) (body : A -> M unit) : M unit :=
  match l with
  | [] => ret tt
  | x :: l' => body x ;; forEach l' body
  end.

(** ** The file system *)

(** A directory maps entry names to nodes; [stat] follows symbolic links,
    so an entry is seen as a regular file or as a directory. *)
Inductive node : Type :=
| File : node
| Dir : list (string * node) -> node.

(** The project as the scanner observes it: the answers of [fast-glob] to
    the four patterns, the contents of files (every listed markup and
    script file can be read; reading a JSON file may fail), and the
    directory tree in which absolute paths are resolved. *)
Record FileSystem : Type := mkFileSystem {
  glob_actions : list string;   (* [app/api/**/*.json], [app/lib/**/*.json] *)
  glob_markup : list string;    (* [{views,public}/**/*.{html,ejs}] *)
  glob_json : list string;      (* [app/**/*.json] *)
  glob_scripts : list string;   (* [{public,views,extensions}/**/*.js] *)
  readFile : string -> string;
  readJson : string -> option json;   (* [None]: the promise rejects *)
  tree : node
}.

(** [path.join(dir, item)] for a normalized [dir] and a relative [item]. *)
Definition path_join (dir item : string) : string :=
  (dir ++ "/" ++ item)%string.

(** [path.relative(root, p)] for a path [p] below [root]. *)
Definition path_relative (root p : string) : string :=
  if String.prefix (root ++ "/")%string p then drop (String.length root + 1) p
  else p.

(** ** class Scanner *)

(** The quote characters of the patterns. *)
Definition dquote : ascii := ascii_of_nat 34.
Definition squote : ascii := ascii_of_nat 39.
Definition backtick : ascii := ascii_of_nat 96.

(** The class of the double and the single quote, and its complement. *)
Definition quote2 (c : ascii) : bool :=
  Ascii.eqb c dquote || Ascii.eqb c squote.
Definition not_quote2 (c : ascii) : bool := negb (quote2 c).
(** The class of the three quotes (double, single, backtick), and its
    complement. *)
Definition quote3 (c : ascii) : bool := quote2 c || Ascii.eqb c backtick.
Definition not_quote3 (c : ascii) : bool := negb (quote3 c).
(** Any character but a double or single quote, a question mark, white
    space and an ampersand. *)
Definition api_char (c : ascii) : bool :=
  negb (quote2 c || Ascii.eqb c "?" || is_space c || Ascii.eqb c "&").

(** The attribute patterns: [url=], a quote of [quote2], a captured
    non-empty run of [not_quote2], a quote of [quote2]; likewise for
    [action=] and [href=]. *)
Definition attr_re (name : string) : regex :=
  seqs [lit name; lit "="; Cls quote2; Group (Plus not_quote2); Cls quote2].
Definition url_re : regex := attr_re "url".
Definition action_re : regex := attr_re "action".
Definition href_re : regex := attr_re "href".

(** Pattern 1 of [scanForApiUrlPatterns]: [/api/] followed by a
    non-empty run of [api_char]. *)
Definition api_re : regex := Seq (lit "/api/") (Plus api_char).

(** Pattern 2 of [scanForApiUrlPatterns]: a quote of [quote3], a run of
    [not_quote2], [/api/], a non-empty run of [api_char], a run of
    [not_quote2], a quote of [quote3]. *)
Definition template_api_re : regex :=
  seqs [Cls quote3; Star not_quote2; lit "/api/"; Plus api_char;
        Star not_quote2; Cls quote3].

(** The fetch pattern: [fetch], white space, an opening parenthesis,
    white space, a quote of [quote3], a captured non-empty run of
    [not_quote3], a quote of [quote3], white space, a closing
    parenthesis. *)
Definition fetch_re : regex :=
  seqs [lit "fetch"; Star is_space; lit "("; Star is_space; Cls quote3;
        Group (Plus not_quote3); Cls quote3; Star is_space; lit ")"].

(** The ajax pattern: [url], white space, a colon, white space, a quote
    of [quote3], a captured non-empty run of [not_quote3], a quote of
    [quote3]. *)
Definition ajax_re : regex :=
  seqs [lit "url"; Star is_space; lit ":"; Star is_space; Cls quote3;
        Group (Plus not_quote3); Cls quote3].

(** [m.match(r)[1]]: reading index 1 of [null] throws, and so does every
    later use of an [undefined] group as a string. *)
Definition group1 (r : regex) (m : string) : M string :=
  match exec r m with
  | Some (_, Some g) => ret g
  | _ => throw (TypeError "Cannot read properties of null")
  end.

Definition filePathToUrl (filePath : string) : string :=
  if startsWith filePath "app/api/" then
    ("/" ++ replace (replace filePath "app/" "") ".json" "")%string
  else if startsWith filePath "app/lib/" then
    replace (replace filePath "app/" "") ".json" ""
  else replace filePath ".json" "".

(** The first half of [addReference]: the normalized path. *)
Definition normalizePath (referencedPath : string) : string :=
  let normalizedPath :=
    if startsWith referencedPath "/api/" then referencedPath
    else if startsWith referencedPath "/app/api/" then
      replace referencedPath "/app/api/" "/api/"
    else if negb (startsWith referencedPath "/")
            && negb (startsWith referencedPath "lib/") then
      ("lib/" ++ referencedPath)%string
    else referencedPath in
  if endsWith normalizedPath ".json" then replace normalizedPath ".json" ""
  else normalizedPath.

Definition push_reference (r : Reference) (a : Action) : Action :=
  Act.mkAction (Act.filePath a) (Act.relativePath a) (Act.urlPath a)
               (Act.content a) (Act.references a ++ [r]).

Definition addReference (referencedPath sourceFile : string) (type : RefType)
  : M unit :=
  modify (fun st =>
    let normalizedPath := normalizePath referencedPath in
    let r := mkReference (path_relative (projectRoot st) sourceFile) type
                         referencedPath in
    let actions' :=
      if map_has (serverActions st) normalizedPath then
        map_update (serverActions st) normalizedPath (push_reference r)
      else serverActions st in
    let references' :=
      if negb (map_has (references st) normalizedPath) then
        map_set (references st) normalizedPath []
      else references st in
    mkScanner (projectRoot st) actions'
              (map_update references' normalizedPath (fun l => l ++ [r]))
              (console st)).

(** [addReference(value, ...)] on a value that was not tested to be a
    string: anything else has no [startsWith] method. *)
Definition addReference_value (value : json) (sourceFile : string)
           (type : RefType) : M unit :=
  match value with
  | JStr s => addReference s sourceFile type
  | _ => throw (TypeError "referencedPath.startsWith is not a function")
  end.

Definition clean_path (m : string) : string :=
  split_head (split_head m "?") "#".

Definition scanForApiUrlPatterns (str sourceFile : string) : M unit :=
  forEach (match_all api_re str) (fun m =>
    addReference (clean_path m) sourceFile UrlString) ;;
  forEach (match_all template_api_re str) (fun m =>
    match exec api_re m with
    | Some (apiMatch, _) =>
        addReference (clean_path apiMatch) sourceFile TemplateUrl
    | None => ret tt
    end).

Fixpoint findInObject (obj : json) (key : string) (callback : json -> M unit)
  : M unit :=
  match obj with
  | JArr items =>
      (fix items_loop (l : list json) : M unit :=
         match l with
         | [] => ret tt
         | item :: l' => findInObject item key callback ;; items_loop l'
         end) items
  | JObj entries =>
      (fix entries_loop (l : list (string * json)) : M unit :=
         match l with
         | [] => ret tt
         | (k, v) :: l' =>
             (if k =? key then callback v else findInObject v key callback) ;;
             entries_loop l'
         end) entries
  | _ => ret tt
  end.

(** [await fs.readJson(file)]. *)
Definition readJsonM (fs : FileSystem) (file : string) : M json :=
  match readJson fs file with
  | Some v => ret v
  | None => throw (IOError "readJson")
  end.

(** [content.exec] and [content.steps]: reading a property of [null]
    throws; only an object has an own property of either name. *)
Definition member (v : json) (k : string) : M (option json) :=
  match v with
  | JNull => throw (TypeError "Cannot read properties of null")
  | JObj entries => ret (assoc k entries)
  | _ => ret None
  end.

(** One turn of the loop of [discoverServerActions]. *)
Definition discover_turn (fs : FileSystem) (file : string) : M unit :=
  st <- get ;;
  let relativePath := path_relative (projectRoot st) file in
  let urlPath := filePathToUrl relativePath in
  try_catch
    (content <- readJsonM fs file ;;
     exec <- member content "exec" ;;
     steps <- (if truthy_opt exec then ret None else member content "steps") ;;
     if truthy_opt exec || truthy_opt steps then
       modify (fun st =>
         mkScanner (projectRoot st)
           (map_set (serverActions st) urlPath
              (Act.mkAction file relativePath urlPath content []))
           (references st) (console st))
     else ret tt)
    (fun _ =>
       modify (fun st =>
         mkScanner (projectRoot st) (serverActions st) (references st)
           (console st ++
              [("Warning: Could not parse " ++ relativePath)%string]))).

Definition discoverServerActions (fs : FileSystem) : M unit :=
  forEach (glob_actions fs) (discover_turn fs).

Definition scanHtmlFiles (fs : FileSystem) : M unit :=
  forEach (glob_markup fs) (fun file =>
    let content := readFile fs file in
    forEach (match_all url_re content) (fun m =>
      url <- group1 url_re m ;; addReference url file HtmlUrl) ;;
    forEach (match_all action_re content) (fun m =>
      url <- group1 action_re m ;; addReference url file HtmlAction) ;;
    forEach (match_all href_re content) (fun m =>
      url <- group1 href_re m ;;
      if includes url "/api/" then scanForApiUrlPatterns url file
      else ret tt) ;;
    scanForApiUrlPatterns content file).

Definition if_string (value : json) (f : string -> M unit) : M unit :=
  match value with
  | JStr s => f s
  | _ => ret tt
  end.

Definition scanJsonFiles (fs : FileSystem) : M unit :=
  forEach (glob_json fs) (fun file =>
    try_catch
      (content <- readJsonM fs file ;;
       findInObject content "api_file" (fun value =>
         addReference_value value file QueueApiFile) ;;
       findInObject content "exec" (fun value =>
         if_string value (fun s => addReference s file ExecString)) ;;
       findInObject content "module" (fun value =>
         if_string value (fun s => addReference s file ExecModule)) ;;
       findInObject content "value" (fun value =>
         if_string value (fun s => scanForApiUrlPatterns s file)) ;;
       findInObject content "url" (fun value =>
         if_string value (fun s => scanForApiUrlPatterns s file)) ;;
       findInObject content "link" (fun value =>
         if_string value (fun s => scanForApiUrlPatterns s file)))
      (fun _ => ret tt)).

Definition scanJavaScriptFiles (fs : FileSystem) : M unit :=
  forEach (glob_scripts fs) (fun file =>
    let content := readFile fs file in
    forEach (match_all fetch_re content) (fun m =>
      url <- group1 fetch_re m ;;
      if startsWith url "/api/" then addReference url file JsFetch
      else ret tt) ;;
    forEach (match_all ajax_re content) (fun m =>
      url <- group1 ajax_re m ;;
      if startsWith url "/api/" then addReference url file JsAjax
      else ret tt)).

Definition findReferences (fs : FileSystem) : M unit :=
  scanHtmlFiles fs ;; scanJsonFiles fs ;; scanJavaScriptFiles fs.

(** [Array.prototype.sort] with a comparator: a stable sort.  [x] is put
    behind [y] exactly when [cmp x y] is positive. *)
Section JsSort.
Variable A : Type.
Variable cmp : A -> A -> Z.

Fixpoint insert_sorted (x : A) (l : list A) : list A :=
  match l with
  | [] => [x]
  | y :: l' => if (0 <? cmp x y)%Z then y :: insert_sorted x l' else x :: l
  end.

Definition js_sort (l : list A) : list A := fold_right insert_sorted [] l.
End JsSort.

Definition confidenceOrder (c : Confidence) : Z :=
  match c with
  | SafeToDelete => 0
  | ReviewNeeded => 1
  end.

(** One turn of the loop of [analyzeResults]. *)
Definition analyze_step (acc : Res.Summary * list Res.Entry)
           (kv : string * Action) : Res.Summary * list Res.Entry :=
  let '(summary, actions) := acc in
  let '(urlPath, action) := kv in
  let referenceCount := List.length (Act.references action) in
  let '(confidence, status, summary') :=
    if (referenceCount =? 0)%nat then
      (SafeToDelete, Unused,
       Res.mkSummary (Res.totalActions summary) (Res.used summary)
         (Res.possiblyUnused summary) (S (Res.likelyUnused summary)))
    else
      (ReviewNeeded, Used,
       Res.mkSummary (Res.totalActions summary) (S (Res.used summary))
         (Res.possiblyUnused summary) (Res.likelyUnused summary)) in
  (summary',
   actions ++ [Res.mkEntry urlPath (Act.relativePath action) status confidence
                 referenceCount (Act.references action) (Act.content action)]).

(** [analyzeResults()]; the field [emptyFolders] is filled in by [scan]. *)
Definition analyzeResults (st : Scanner) : Results :=
  let '(summary, actions) :=
    fold_left analyze_step (serverActions st)
      (Res.mkSummary (List.length (serverActions st)) 0 0 0, []) in
  Res.mkResults summary
    (js_sort (fun a b => (confidenceOrder (Res.confidence a)
                          - confidenceOrder (Res.confidence b))%Z) actions)
    [].

(** ** class EmptyFolderDetector *)

(** The names on the way from the root to [p]. *)
Definition path_components (p : string) : list string :=
  filter (fun c => negb (c =? "")) (split p "/").

Fixpoint walk (n : node) (comps : list string) : option node :=
  match comps with
  | [] => Some n
  | c :: cs =>
      match n with
      | File => None
      | Dir entries =>
          match assoc c entries with
          | Some child => walk child cs
          | None => None
          end
      end
  end.

(** The node an absolute path designates, if any. *)
Definition resolve (t : node) (p : string) : option node :=
  walk t (path_components p).

(** [fs.pathExists(p)]. *)
Definition pathExists (t : node) (p : string) : bool :=
  match resolve t p with Some _ => true | None => false end.

(** What one item contributes to [hasNonEmptyContent]: [true] for a
    file, the recursive call on its listing for a directory. *)
Fixpoint item_hasContent (n : node) : bool :=
  match n with
  | File => true
  | Dir subItems =>
      (fix items_loop (l : list (string * node)) : bool :=
         match l with
         | [] => false
         | (_, c) :: rest => if item_hasContent c then true else items_loop rest
         end) subItems
  end.

(** [hasNonEmptyContent(dir, items)], [items] being the listing of [dir]
    with the node of each entry. *)
Fixpoint hasNonEmptyContent (dir : string) (items : list (string * node))
  : bool :=
  match items with
  | [] => false
  | (_, c) :: rest =>
      if item_hasContent c then true else hasNonEmptyContent dir rest
  end.

(** [findEmptyFoldersInDirectory(dir)], [n] being the node at [dir].
    Listing a regular file throws, which the [catch] turns into the empty
    answer. *)
Fixpoint findEmptyFoldersInDirectory (dir : string) (n : node) : list string :=
  match n with
  | File => []
  | Dir items =>
      match items with
      | [] => [dir]
      | _ :: _ =>
          let subEmpty :=
            (fix items_loop (l : list (string * node)) : list string :=
               match l with
               | [] => []
               | (item, c) :: rest =>
                   match c with
                   | Dir _ =>
                       findEmptyFoldersInDirectory (path_join dir item) c
                   | File => []
                   end ++ items_loop rest
               end) items in
          if hasNonEmptyContent dir items then subEmpty
          else subEmpty ++ [dir]
      end
  end.

(** [findEmptyFoldersInDirectory(dir)] for a path of the tree [t]; on a
    path that does not resolve [readdir] throws. *)
Definition findEmptyFoldersAt (t : node) (dir : string) : list string :=
  match resolve t dir with
  | Some n => findEmptyFoldersInDirectory dir n
  | None => []
  end.

Definition findEmptyFolders (projectRoot : string) (t : node)
  : list Res.EmptyFolder :=
  let searchDirs :=
    [path_join projectRoot "app/api"; path_join projectRoot "app/lib"] in
  let emptyFolders :=
    flat_map (fun searchDir =>
                if pathExists t searchDir then findEmptyFoldersAt t searchDir
                else []) searchDirs in
  map (fun folder =>
         Res.mkEmptyFolder folder (path_relative projectRoot folder))
      emptyFolders.

(** The body of [isDirectoryEmpty(dir)], [n] being the node at [dir]. *)
Fixpoint isDirectoryEmptyAt (n : node) : bool :=
  match n with
  | File => false
  | Dir items =>
      match items with
      | [] => true
      | _ :: _ =>
          (fix items_loop (l : list (string * node)) : bool :=
             match l with
             | [] => true
             | (_, c) :: rest =>
                 match c with
                 | File => false
                 | Dir _ =>
                     if negb (isDirectoryEmptyAt c) then false
                     else items_loop rest
                 end
             end) items
      end
  end.

(** [isDirectoryEmpty(dir)]: a path that does not resolve makes [readdir]
    throw, and the [catch] answers [false]. *)
Definition isDirectoryEmpty (t : node) (dir : string) : bool :=
  match resolve t dir with
  | Some n => isDirectoryEmptyAt n
  | None => false
  end.

Record DeleteError : Type := mkDeleteError {
  error_path : string;
  error : string
}.

Record DeleteResults : Type := mkDeleteResults {
  deleted : list string;
  errors : list DeleteError
}.

(** [a.split(path.sep).length]. *)
Definition depth (a : string) : nat := List.length (split a "/").

(** The sort of [deleteEmptyFolders]: deepest first. *)
Definition sortedPaths (folderPaths : list string) : list string :=
  js_sort (fun a b => (Z.of_nat (depth b) - Z.of_nat (depth a))%Z) folderPaths.

Section Delete.
(** [fs.remove] of fs-extra: the tree it leaves, and the message of the
    error it rejects with, if it does. *)
Variable fs_remove : node -> string -> node * option string.

(** One turn of the loop of [deleteEmptyFolders]. *)
Definition delete_step (st : node * DeleteResults) (folderPath : string)
  : node * DeleteResults :=
  let '(t, results) := st in
  if isDirectoryEmpty t folderPath then
    match fs_remove t folderPath with
    | (t', None) =>
        (t', mkDeleteResults (deleted results ++ [folderPath])
                             (errors results))
    | (t', Some message) =>
        (t', mkDeleteResults (deleted results)
               (errors results ++ [mkDeleteError folderPath message]))
    end
  else (t, results).

Definition deleteEmptyFolders (t : node) (folderPaths : list string)
  : node * DeleteResults :=
  fold_left delete_step (sortedPaths folderPaths)
            (t, mkDeleteResults [] []).
End Delete.

(** A model of [fs.remove]: it is refused on the paths of [denied] and
    otherwise takes the entry, with all below it, out of the tree. *)
Fixpoint prune (n : node) (comps : list string) : node :=
  match comps, n with
  | [], _ => n
  | _, File => n
  | [c], Dir entries => Dir (filter (fun e => negb (fst e =? c)) entries)
  | c :: cs, Dir entries =>
      Dir (map (fun e => if fst e =? c then (fst e, prune (snd e) cs) else e)
               entries)
  end.

Definition remove_unless (denied : list string) (t : node) (p : string)
  : node * option string :=
  if existsb (String.eqb p) denied
  then (t, Some "EACCES: permission denied")
  else (prune t (path_components p), None).

(** ** The scan *)

Definition scan (fs : FileSystem) : M Results :=
  discoverServerActions fs ;;
  findReferences fs ;;
  st <- get ;;
  let emptyFolders := findEmptyFolders (projectRoot st) (tree fs) in
  let results := analyzeResults st in
  ret (Res.mkResults (Res.summary results) (Res.actions results) emptyFolders).


(** ** The strings of a result *)

(** The strings [analyzeResults] stores in [confidence] and in
    [status]. *)
Definition confidence_string (c : Confidence) : string :=
  match c with
  | SafeToDelete => "safe-to-delete"
  | ReviewNeeded => "review-needed"
  end.

Definition status_string (s : Status) : string :=
  match s with
  | Unused => "unused"
  | Used => "used"
  end.

(** ** class Reporter *)

Module Reporter.

(** The filter of [printSummary]. *)
Definition highConfidenceUnused (results : Results) : list Res.Entry :=
  filter (fun action =>
            (confidence_string (Res.confidence action) =? "high")
            && (status_string (Res.status action) =? "likely-unused"))
         (Res.actions results).

(** What [printSummary] prints under its last heading: that there is
    none, or the files of the first ten actions and how many more there
    are. *)
Inductive Listing : Type :=
| NoneFound : Listing
| Files : list string -> option nat -> Listing.

Definition printSummary_listing (results : Results) : Listing :=
  let found := highConfidenceUnused results in
  if (List.length found =? 0)%nat then NoneFound
  else Files (map Res.filePath (firstn 10 found))
             (if (10 <? List.length found)%nat
              then Some (List.length found - 10) else None).

(** The four signs of [getStatusEmoji]. *)
Inductive Emoji : Type := CheckMark | WarningSign | Wastebasket | QuestionMark.

Definition getStatusEmoji (status : string) : Emoji :=
  if status =? "used" then CheckMark
  else if status =? "possibly-unused" then WarningSign
  else if status =? "likely-unused" then Wastebasket
  else QuestionMark.

End Reporter.

(** ** [Set]

    A set keeps its elements in the order of insertion; [same] is the
    comparison of the language on the values the set holds. *)

Section JsSet.
Variable A : Type.
Variable same : A -> A -> bool.

Definition Set_has (s : list A) (x : A) : bool := existsb (same x) s.

Definition Set_add (s : list A) (x : A) : list A :=
  if Set_has s x then s else s ++ [x].

Definition Set_delete (s : list A) (x : A) : list A :=
  filter (fun y => negb (same x y)) s.

(** [new Set(items)]. *)
Definition new_Set (items : list A) : list A := fold_left Set_add items [].
End JsSet.

(** ** class IgnoreList *)

Module Ignore.

(** The comparison of a set on parsed values: by value on [null],
    booleans, numbers and strings; two arrays or objects of a document
    are never the same object. *)
Definition sameValueZero (a b : json) : bool :=
  match a, b with
  | JNull, JNull => true
  | JBool x, JBool y => Bool.eqb x y
  | JNum x, JNum y => (x =? y)%Z
  | JStr x, JStr y => (x =? y)%string
  | _, _ => false
  end.

(** The file of the ignore list: absent, not a JSON document, or a
    document. *)
Inductive stored : Type :=
| Absent : stored
| Garbled : stored
| Stored : json -> stored.

(** The file, and the lines of [console.warn] and [console.error]. *)
Record World : Type := mkWorld {
  file : stored;
  stderr : list string
}.

(** The values [new Set(v)] iterates over: the items of an array, the
    characters of a string; anything else is not iterable. *)
Definition iterate (v : json) : option (list json) :=
  match v with
  | JArr items => Some items
  | JStr s => Some (map (fun c => JStr (String c "")) (list_ascii_of_string s))
  | _ => None
  end.

(** [loadIgnoreList()], [ignoreList] being the set of the object. *)
Definition loadIgnoreList (ignoreList : list json) (w : World)
  : list json * World :=
  let fresh :=
    ([], mkWorld (file w)
           (stderr w ++
              ["Warning: Could not load ignore list, starting fresh"])) in
  match file w with
  | Absent => (ignoreList, w)
  | Garbled => fresh
  | Stored data =>
      match data with
      | JNull => fresh
      | _ =>
          let ignored :=
            match data with
            | JObj entries => assoc "ignored" entries
            | _ => None
            end in
          let source :=
            match ignored with
            | Some v => if truthy v then v else JArr []
            | None => JArr []
            end in
          match iterate source with
          | Some items => (new_Set sameValueZero items, w)
          | None => fresh
          end
      end
  end.

Definition isIgnored (ignoreList : list json) (urlPath : string) : bool :=
  Set_has sameValueZero ignoreList (JStr urlPath).

Definition getIgnoredActions (ignoreList : list json) : list json :=
  ignoreList.

Section Save.
(** [fs.writeJson]: the file it leaves, and the message of the error it
    rejects with, if it does. *)
Variable fs_writeJson : stored -> json -> stored * option string.

(** [saveIgnoreList()], at the time [now]. *)
Definition saveIgnoreList (now : string) (ignoreList : list json) (w : World)
  : World :=
  let data :=
    JObj [("ignored", JArr ignoreList);
          ("lastUpdated", JStr now);
          ("version", JStr "1.0.0")] in
  match fs_writeJson (file w) data with
  | (file', None) => mkWorld file' (stderr w)
  | (file', Some message) =>
      mkWorld file'
        (stderr w ++
           [("Warning: Could not save ignore list: " ++ message)%string])
  end.

Definition addToIgnore (now urlPath : string) (ignoreList : list json)
           (w : World) : list json * World :=
  let ignoreList' := Set_add sameValueZero ignoreList (JStr urlPath) in
  (ignoreList', saveIgnoreList now ignoreList' w).

Definition removeFromIgnore (now urlPath : string) (ignoreList : list json)
           (w : World) : list json * World :=
  let ignoreList' := Set_delete sameValueZero ignoreList (JStr urlPath) in
  (ignoreList', saveIgnoreList now ignoreList' w).
End Save.

(** A model of [fs.writeJson]: it stores the document, or is refused. *)
Definition write_if (writable : bool) (old : stored) (data : json)
  : stored * option string :=
  if writable then (Stored data, None)
  else (old, Some "EACCES: permission denied").

End Ignore.

(** ** class InteractiveMode *)

Module Interactive.

Record InteractiveMode : Type := mkInteractiveMode {
  results : Results;
  selectedForDeletion : list string;
  ignoreList : list json;     (* the set of its [IgnoreList] *)
  currentFilter : string
}.

(** [new InteractiveMode(results, options)]. *)
Definition new_InteractiveMode (results : Results) : InteractiveMode :=
  mkInteractiveMode results [] [] "safe-only".

Definition getFilteredUnmarkedActions (ui : InteractiveMode)
  : list Res.Entry :=
  let ignoredUrls :=
    new_Set Ignore.sameValueZero (Ignore.getIgnoredActions (ignoreList ui)) in
  filter (fun action =>
            let isIgnored :=
              Set_has Ignore.sameValueZero ignoredUrls
                      (JStr (Res.urlPath action)) in
            let isMarkedForDeletion :=
              Set_has String.eqb (selectedForDeletion ui)
                      (Res.urlPath action) in
            if isIgnored || isMarkedForDeletion then false
            else if currentFilter ui =? "unused-only" then
              status_string (Res.status action) =? "unused"
            else if currentFilter ui =? "safe-only" then
              confidence_string (Res.confidence action) =? "safe-to-delete"
            else true)
         (Res.actions (results ui)).

Definition buildUnifiedActionListSimple (ui : InteractiveMode)
  : list Res.Entry :=
  let markedActions :=
    filter (fun action =>
              Set_has String.eqb (selectedForDeletion ui)
                      (Res.urlPath action))
           (Res.actions (results ui)) in
  let availableActions := getFilteredUnmarkedActions ui in
  markedActions ++ availableActions.

(** [changeFilter()], [filter] being the answer to the prompt. *)
Definition changeFilter (filter : string) (ui : InteractiveMode)
  : InteractiveMode :=
  mkInteractiveMode (results ui) (selectedForDeletion ui) (ignoreList ui)
                    filter.

Section Handlers.
Variable fs_writeJson : Ignore.stored -> json -> Ignore.stored * option string.

(** The three keys, at the time [now], on the action under the
    cursor. *)
Definition handleLeftArrow (now : string) (action : Res.Entry)
           (ui : InteractiveMode) (w : Ignore.World)
  : InteractiveMode * Ignore.World :=
  if negb (Ignore.isIgnored (ignoreList ui) (Res.urlPath action)) then
    let '(ignoreList', w') :=
      Ignore.addToIgnore fs_writeJson now (Res.urlPath action)
                         (ignoreList ui) w in
    (mkInteractiveMode (results ui)
       (Set_delete String.eqb (selectedForDeletion ui) (Res.urlPath action))
       ignoreList' (currentFilter ui), w')
  else (ui, w).

Definition handleRightArrow (now : string) (action : Res.Entry)
           (ui : InteractiveMode) (w : Ignore.World)
  : InteractiveMode * Ignore.World :=
  if negb (Set_has String.eqb (selectedForDeletion ui) (Res.urlPath action))
  then
    let selected' :=
      Set_add String.eqb (selectedForDeletion ui) (Res.urlPath action) in
    let '(ignoreList', w') :=
      Ignore.removeFromIgnore fs_writeJson now (Res.urlPath action)
                              (ignoreList ui) w in
    (mkInteractiveMode (results ui) selected' ignoreList' (currentFilter ui),
     w')
  else (ui, w).

Definition handleSpaceReset (now : string) (action : Res.Entry)
           (ui : InteractiveMode) (w : Ignore.World)
  : InteractiveMode * Ignore.World :=
  let wasMarked :=
    Set_has String.eqb (selectedForDeletion ui) (Res.urlPath action) in
  let wasIgnored := Ignore.isIgnored (ignoreList ui) (Res.urlPath action) in
  if wasMarked || wasIgnored then
    let selected' :=
      Set_delete String.eqb (selectedForDeletion ui) (Res.urlPath action) in
    let '(ignoreList', w') :=
      Ignore.removeFromIgnore fs_writeJson now (Res.urlPath action)
                              (ignoreList ui) w in
    (mkInteractiveMode (results ui) selected' ignoreList' (currentFilter ui),
     w')
  else (ui, w).
End Handlers.

(** *** [executeDelete] *)

(** What the call leaves besides the object and the tree: the count of
    the files deleted, the errors, and the result of the deletion of the
    folders, where it took place. *)
Record Deletion : Type := mkDeletion {
  deletedCount : nat;
  errors : list string;
  folderResults : option DeleteResults
}.

(** How the call ends: it returns at once (nothing selected, or the
    confirmation refused), it completes, its outer [catch] reports that
    the deletion failed, or it throws before its [try]. *)
Inductive Ending : Type :=
| Returned : Ending
| Completed : Deletion -> Ending
| Failed : Ending
| Thrown : Ending.

Section ExecuteDelete.
Variable fs_remove : node -> string -> node * option string.
(** [this.options.projectRoot || process.cwd()]. *)
Variable projectRoot : string.

(** [this.results.actions.find(a => a.urlPath === urlPath)]. *)
Definition find_action (ui : InteractiveMode) (urlPath : string)
  : option Res.Entry :=
  find (fun a => Res.urlPath a =? urlPath) (Res.actions (results ui)).

(** The loop over the selected actions; [None] where [action] is
    [undefined] and reading its [filePath] throws. *)
Fixpoint remove_files (ui : InteractiveMode) (selected : list string)
         (t : node) (deletedCount : nat) (errors : list string)
  : node * option (nat * list string) :=
  match selected with
  | [] => (t, Some (deletedCount, errors))
  | urlPath :: rest =>
      match find_action ui urlPath with
      | None => (t, None)
      | Some action =>
          let filePath := path_join projectRoot (Res.filePath action) in
          if pathExists t filePath then
            match fs_remove t filePath with
            | (t', None) => remove_files ui rest t' (S deletedCount) errors
            | (t', Some message) =>
                remove_files ui rest t' deletedCount
                  (errors ++ [(Res.filePath action ++ ": " ++ message)%string])
            end
          else remove_files ui rest t deletedCount errors
      end
  end.

(** The update of the results at the end of [executeDelete]. *)
Definition update_results (ui : InteractiveMode) : InteractiveMode :=
  let actions :=
    filter (fun action =>
              negb (Set_has String.eqb (selectedForDeletion ui)
                            (Res.urlPath action)))
           (Res.actions (results ui)) in
  let summary := Res.summary (results ui) in
  let totalActions := List.length actions in
  let likelyUnused :=
    List.length
      (filter (fun a =>
                 confidence_string (Res.confidence a) =? "safe-to-delete")
              actions) in
  let used :=
    List.length
      (filter (fun a =>
                 confidence_string (Res.confidence a) =? "review-needed")
              actions) in
  mkInteractiveMode
    (Res.mkResults
       (Res.mkSummary totalActions used (Res.possiblyUnused summary)
                      likelyUnused)
       actions (Res.emptyFolders (results ui)))
    [] (ignoreList ui) (currentFilter ui).

(** [executeDelete()], [confirm] and [confirmFolders] being the answers
    to its two prompts (the second is asked only where empty folders
    were found). *)
Definition executeDelete (confirm confirmFolders : bool)
           (ui : InteractiveMode) (t : node)
  : InteractiveMode * node * Ending :=
  if (List.length (selectedForDeletion ui) =? 0)%nat then (ui, t, Returned)
  else if negb (forallb (fun urlPath =>
                           match find_action ui urlPath with
                           | Some _ => true
                           | None => false
                           end)
                        (firstn 10 (selectedForDeletion ui)))
  then (ui, t, Thrown)
  else if negb confirm then (ui, t, Returned)
  else
    match remove_files ui (selectedForDeletion ui) t 0 [] with
    | (t', None) => (ui, t', Failed)
    | (t', Some (deletedCount, errors)) =>
        let emptyFolders := findEmptyFolders projectRoot t' in
        if (0 <? List.length emptyFolders)%nat && confirmFolders then
          let '(t'', folderResults) :=
            deleteEmptyFolders fs_remove t' (map Res.path emptyFolders) in
          (update_results ui, t'',
           Completed (mkDeletion deletedCount errors (Some folderResults)))
        else
          (update_results ui, t',
           Completed (mkDeletion deletedCount errors None))
    end.
End ExecuteDelete.

End Interactive.

(* ================================================================== *)
(** * Part II: the vocabulary of the properties                        *)
(* ================================================================== *)

(** ** Classification *)

(** The entry [analyzeResults] builds for a declared action. *)
Definition entry_of (kv : string * Action) : Res.Entry :=
  let n := List.length (Act.references (snd kv)) in
  Res.mkEntry (fst kv) (Act.relativePath (snd kv))
    (if (n =? 0)%nat then Unused else Used)
    (if (n =? 0)%nat then SafeToDelete else ReviewNeeded)
    n (Act.references (snd kv)) (Act.content (snd kv)).

(** ** Extracted references *)

(** The references a scanner has recorded, each with its normalized key:
    every call of [addReference] adds one to the lookup [references]. *)
Definition extracted (st : Scanner) : list (string * Reference) :=
  flat_map (fun kv => map (fun r => (fst kv, r)) (snd kv)) (references st).

(** The magic-link string of the specification. *)
Definition magic_link : string :=
  "...click here: '/api/v1/security/magic-login?token='+tok...".

(** The pattern has a capturing group on its way. *)
Fixpoint has_group (r : regex) : bool :=
  match r with
  | Group _ => true
  | Seq r1 r2 => has_group r1 || has_group r2
  | _ => false
  end.

(** Nothing in [findReferences] reads the scanner: which calls of
    [addReference] are made, and whether an exception ends them, depends
    on the files only.  An [event] is one such call, [record] its effect,
    and [writes m evs o] says that [m] makes the calls [evs], in this
    order, and ends with the outcome [o]. *)
Definition event : Type := string * string * RefType.

(** The scanner after the call [ev]. *)
Definition record (st : Scanner) (ev : event) : Scanner :=
  let '(referencedPath, sourceFile, type) := ev in
  fst (addReference referencedPath sourceFile type st).

(** The scanner after the calls [evs], made in this order. *)
Definition run_events (evs : list event) (st : Scanner) : Scanner :=
  fold_left record evs st.

Definition writes {A : Type} (m : M A) (evs : list event) (o : outcome A)
  : Prop :=
  forall st, m st = (run_events evs st, o).

(** [m] makes calls that do not depend on the scanner. *)
Definition uniform {A : Type} (m : M A) : Prop :=
  exists evs o, writes m evs o.

(** [m] moreover returns normally. *)
Definition safe {A : Type} (m : M A) : Prop :=
  exists evs a, writes m evs (Normal a).

(** ** Trees and documents *)

(** Induction on a tree, with the hypothesis for every entry of a
    directory. *)
Section NodeInduction.
Variable P : node -> Prop.
Hypothesis P_file : P File.
Hypothesis P_dir :
  forall entries, Forall (fun e => P (snd e)) entries -> P (Dir entries).

Fixpoint node_induction (n : node) : P n :=
  match n with
  | File => P_file
  | Dir entries =>
      P_dir
        ((fix entries_ind (l : list (string * node))
            : Forall (fun e => P (snd e)) l :=
            match l with
            | [] => Forall_nil _
            | (k, c) :: l' =>
                @Forall_cons _ (fun e => P (snd e)) (k, c) l'
                             (node_induction c) (entries_ind l')
            end) entries)
  end.
End NodeInduction.

(** Induction on a document, with the hypothesis for every item of an
    array and every value of an object. *)
Section JsonInduction.
Variable P : json -> Prop.
Hypothesis P_null : P JNull.
Hypothesis P_bool : forall b, P (JBool b).
Hypothesis P_num : forall n, P (JNum n).
Hypothesis P_str : forall s, P (JStr s).
Hypothesis P_arr : forall items, Forall P items -> P (JArr items).
Hypothesis P_obj :
  forall entries, Forall (fun e => P (snd e)) entries -> P (JObj entries).

Fixpoint json_induction (v : json) : P v :=
  match v with
  | JNull => P_null
  | JBool b => P_bool b
  | JNum n => P_num n
  | JStr s => P_str s
  | JArr items =>
      P_arr ((fix items_ind (l : list json) : Forall P l :=
                match l with
                | [] => Forall_nil _
                | x :: l' => Forall_cons x (json_induction x) (items_ind l')
                end) items)
  | JObj entries =>
      P_obj ((fix entries_ind (l : list (string * json))
                : Forall (fun e => P (snd e)) l :=
                match l with
                | [] => Forall_nil _
                | (k, x) :: l' =>
                    @Forall_cons _ (fun e => P (snd e)) (k, x) l'
                                 (json_induction x) (entries_ind l')
                end) entries)
  end.
End JsonInduction.

(** [file_below n]: a file lies in the directory [n], at any depth. *)
Inductive file_below : node -> Prop :=
| file_below_here (entries : list (string * node)) (k : string) :
    In (k, File) entries -> file_below (Dir entries)
| file_below_sub (entries : list (string * node)) (k : string) (c : node) :
    In (k, c) entries -> file_below c -> file_below (Dir entries).

(** [dir_at d n p m]: the directory [m], of path [p], is the directory
    [n] of path [d] or lies below it. *)
Inductive dir_at : string -> node -> string -> node -> Prop :=
| dir_at_here (d : string) (entries : list (string * node)) :
    dir_at d (Dir entries) d (Dir entries)
| dir_at_sub (d : string) (entries : list (string * node))
             (k : string) (c : node) (p : string) (m : node) :
    In (k, c) entries -> dir_at (path_join d k) c p m ->
    dir_at d (Dir entries) p m.

(** The sub-results collected by the loop over the entries. *)
Fixpoint subEmpty_of (dir : string) (l : list (string * node)) : list string :=
  match l with
  | [] => []
  | (item, c) :: rest =>
      findEmptyFoldersInDirectory (path_join dir item) c ++ subEmpty_of dir rest
  end.

Section DeleteVocabulary.
Variable fs_remove : node -> string -> node * option string.

(** The tree and the results once the paths of [l] have been attempted,
    in this order. *)
Definition after_attempts (t : node) (l : list string) : node * DeleteResults :=
  fold_left (delete_step fs_remove) l (t, mkDeleteResults [] []).
End DeleteVocabulary.

(** ** Maps built by successive [set]s *)

Section ApplyOp.
Variable V : Type.
Variable X : Type.
Variable op : X -> option (string * V).

(** One turn: the pair to [set], if the turn sets one. *)
Definition apply_op (m : list (string * V)) (x : X) : list (string * V) :=
  match op x with
  | Some (k, v) => map_set m k v
  | None => m
  end.

(** What one turn does to the value found under [k]. *)
Definition lookup_step (k : string) (acc : option V) (x : X) : option V :=
  match op x with
  | Some (k', v) => if k' =? k then Some v else acc
  | None => acc
  end.
End ApplyOp.

(** ** Discovery and the scan *)

(** The structural gate of discovery: an object with a truthy [exec] or
    a truthy [steps]. *)
Definition declares_action (content : json) : bool :=
  match content with
  | JObj entries =>
      truthy_opt (assoc "exec" entries) || truthy_opt (assoc "steps" entries)
  | _ => false
  end.

(** The key and the action a file is indexed as, if it is. *)
Definition declared (root : string) (fs : FileSystem) (file : string)
  : option (string * Action) :=
  match readJson fs file with
  | Some content =>
      if declares_action content then
        let relativePath := path_relative root file in
        let urlPath := filePathToUrl relativePath in
        Some (urlPath, Act.mkAction file relativePath urlPath content [])
      else None
  | None => None
  end.

(** The warning a file causes, if it does. *)
Definition parse_warning (root : string) (fs : FileSystem) (file : string)
  : list string :=
  match readJson fs file with
  | None | Some JNull =>
      [("Warning: Could not parse " ++ path_relative root file)%string]
  | Some _ => []
  end.

(** The scanner after one turn of discovery. *)
Definition discover_file (fs : FileSystem) (st : Scanner) (file : string)
  : Scanner :=
  mkScanner (projectRoot st)
    (apply_op (declared (projectRoot st) fs) (serverActions st) file)
    (references st)
    (console st ++ parse_warning (projectRoot st) fs file).

(** The result [scan] returns on a scanner left in the state [st]. *)
Definition result_of (fs : FileSystem) (st : Scanner) : Results :=
  Res.mkResults (Res.summary (analyzeResults st))
                (Res.actions (analyzeResults st))
                (findEmptyFolders (projectRoot st) (tree fs)).

(** The project without one of its JSON files. *)
Definition without (file : string) (fs : FileSystem) : FileSystem :=
  mkFileSystem
    (filter (fun g => negb (g =? file)) (glob_actions fs))
    (glob_markup fs)
    (filter (fun g => negb (g =? file)) (glob_json fs))
    (glob_scripts fs) (readFile fs) (readJson fs) (tree fs).

(** ** Sample projects *)

(** A project in which [app/api/old] holds two empty directories and
    [app/api/live] holds an action file. *)
Definition sample_tree : node :=
  Dir [("srv",
        Dir [("app",
              Dir [("api",
                    Dir [("old", Dir [("a", Dir []); ("b", Dir [])]);
                         ("live", Dir [("run.json", File)])])])])].

(** Two candidate action files, one of which is not valid JSON, and a
    page whose form posts to the other. *)
Definition sample_project : FileSystem :=
  mkFileSystem
    ["/srv/app/app/api/broken.json"; "/srv/app/app/api/v1/run.json";
     "/srv/app/app/api/v1/idle.json"]
    ["/srv/app/views/index.ejs"]
    ["/srv/app/app/api/broken.json"; "/srv/app/app/api/v1/run.json";
     "/srv/app/app/api/v1/idle.json"]
    []
    (fun f => if f =? "/srv/app/views/index.ejs"
              then "<form action='/api/v1/run'>" else "")
    (fun f => if f =? "/srv/app/app/api/v1/run.json"
              then Some (JObj [("steps", JArr [])])
              else if f =? "/srv/app/app/api/v1/idle.json"
              then Some (JObj [("exec", JObj [("steps", JArr [])])])
              else None)
    (Dir [("srv",
           Dir [("app",
                 Dir [("app",
                       Dir [("api",
                             Dir [("broken.json", File);
                                  ("v1", Dir [("run.json", File);
                                              ("idle.json", File)]);
                                  ("old", Dir [("a", Dir [])])])]);
                      ("views", Dir [("index.ejs", File)])])])]).

(** ** Further vocabulary: the result and the index *)

(** The entry is in the safe-to-delete tier. *)
Definition is_safe (e : Res.Entry) : bool :=
  match Res.confidence e with
  | SafeToDelete => true
  | ReviewNeeded => false
  end.

(** The list stored under a key of the lookup, empty when the key is
    absent. *)
Definition lookup_or_nil (m : list (string * list Reference)) (k : string)
  : list Reference :=
  match map_get m k with
  | Some l => l
  | None => []
  end.

(** [indexed root fs kv]: the entry [kv] of the index is the declaration
    of one of the candidate files of the project. *)
Definition indexed (root : string) (fs : FileSystem) (kv : string * Action)
  : Prop :=
  fst kv = Act.urlPath (snd kv) /\
  Act.urlPath (snd kv) = filePathToUrl (Act.relativePath (snd kv)) /\
  Act.relativePath (snd kv) = path_relative root (Act.filePath (snd kv)) /\
  In (Act.filePath (snd kv)) (glob_actions fs) /\
  readJson fs (Act.filePath (snd kv)) = Some (Act.content (snd kv)) /\
  declares_action (Act.content (snd kv)) = true.

(** The original string of the reference normalizes to the key. *)
Definition resolves_to (k : string) (r : Reference) : Prop :=
  normalizePath (originalReference r) = k.

(** The provenance is one of the generic URL scan or of the script
    scan. *)
Definition generic_type (t : RefType) : bool :=
  match t with
  | UrlString | TemplateUrl | JsFetch | JsAjax => true
  | _ => false
  end.

(** What holds of the original string [p] of a reference of provenance
    [t]: found by the generic scan or in a script it begins with [/api/],
    and found by the generic scan it has no query and no fragment. *)
Definition in_api_namespace (p : string) (t : RefType) : Prop :=
  (generic_type t = true -> startsWith p "/api/" = true) /\
  (t = UrlString \/ t = TemplateUrl ->
   includes p "?" = false /\ includes p "#" = false).

(** [m] makes calls of [addReference] that all satisfy [P], whatever
    the scanner holds. *)
Definition emits {A : Type} (P : event -> Prop) (m : M A) : Prop :=
  exists evs o, writes m evs o /\ Forall P evs.


(** ** Further vocabulary: the directory tree *)

(** A name an entry of a directory can have: not empty and without
    separator. *)
Definition entry_name (k : string) : Prop :=
  k <> "" /\ split k "/" = [k].

(** A tree as a file system presents it: the entries of a directory
    have names, and no two of them the same. *)
Inductive well_formed : node -> Prop :=
| well_formed_File : well_formed File
| well_formed_Dir (entries : list (string * node)) :
    NoDup (map fst entries) ->
    Forall (fun e => entry_name (fst e) /\ well_formed (snd e)) entries ->
    well_formed (Dir entries).

(** The two areas [findEmptyFolders] searches. *)
Definition search_areas : list string := ["app/api"; "app/lib"].


(** ** Further vocabulary: the search of a document *)

(** The values [findInObject(obj, key, _)] hands to its callback, in
    the order of the calls. *)
Fixpoint found (obj : json) (key : string) : list json :=
  match obj with
  | JArr items => flat_map (fun item => found item key) items
  | JObj entries =>
      flat_map (fun kv => if fst kv =? key then [snd kv]
                          else found (snd kv) key) entries
  | _ => []
  end.

(** One turn of the loop of [scanJsonFiles]. *)
Definition scanJson_turn (fs : FileSystem) (file : string) : M unit :=
  try_catch
    (content <- readJsonM fs file ;;
     findInObject content "api_file" (fun value =>
       addReference_value value file QueueApiFile) ;;
     findInObject content "exec" (fun value =>
       if_string value (fun s => addReference s file ExecString)) ;;
     findInObject content "module" (fun value =>
       if_string value (fun s => addReference s file ExecModule)) ;;
     findInObject content "value" (fun value =>
       if_string value (fun s => scanForApiUrlPatterns s file)) ;;
     findInObject content "url" (fun value =>
       if_string value (fun s => scanForApiUrlPatterns s file)) ;;
     findInObject content "link" (fun value =>
       if_string value (fun s => scanForApiUrlPatterns s file)))
    (fun _ => ret tt).

(** A queue document with a job file, a numeric [api_file] further
    down, and a call of a library action. *)
Definition sample_queue_project : FileSystem :=
  mkFileSystem [] [] ["/srv/app/jobs.json"] []
    (fun _ => "")
    (fun _ => Some (JObj [("api_file", JStr "/app/api/jobs/a.json");
                          ("options", JObj [("api_file", JNum 7)]);
                          ("exec", JStr "lib/notify")]))
    (Dir []).


(** [part_of n1 n]: the tree [n1] is the tree [n] with some entries
    taken out, at any depth. *)
Inductive part_of : node -> node -> Prop :=
| part_of_File : part_of File File
| part_of_Dir (entries1 entries : list (string * node)) :
    (forall k c1, In (k, c1) entries1 ->
                  exists c, In (k, c) entries /\ part_of c1 c) ->
    part_of (Dir entries1) (Dir entries).


(** ** Further vocabulary: the result in the hands of its users *)

(** The result [scan] returns from the scanner [st], with the empty
    folders [folders]. *)
Definition results_from (st : Scanner) (folders : list Res.EmptyFolder)
  : Results :=
  Res.mkResults (Res.summary (analyzeResults st))
                (Res.actions (analyzeResults st)) folders.


(** A session on the sample project in which the action without
    reference is marked for deletion. *)
Definition sample_ui : Interactive.InteractiveMode :=
  Interactive.mkInteractiveMode
    (results_from (fst (scan sample_project (new_Scanner "/srv/app")))
                  (findEmptyFolders "/srv/app" (tree sample_project)))
    ["/api/v1/idle"] [] "safe-only".


(** ** Further vocabulary: marks *)

(** The action of key [u] is marked for deletion, is ignored. *)
Definition marked (ui : Interactive.InteractiveMode) (u : string) : bool :=
  Set_has String.eqb (Interactive.selectedForDeletion ui) u.

Definition ignored (ui : Interactive.InteractiveMode) (u : string) : bool :=
  Ignore.isIgnored (Interactive.ignoreList ui) u.

(** No action is both marked for deletion and ignored. *)
Definition marks_apart (ui : Interactive.InteractiveMode) : Prop :=
  forall u, marked ui u = true -> ignored ui u = false.

(** The list holds no value twice, as the elements of a set do. *)
Definition distinct_values (s : list json) : Prop :=
  ForallOrdPairs (fun a b => Ignore.sameValueZero a b = false) s.


(** ** Further vocabulary: references that are found *)

(** [m] returns normally and makes, among its calls of [addReference],
    the call [ev]. *)
Definition records {A : Type} (ev : event) (m : M A) : Prop :=
  exists evs a, writes m evs (Normal a) /\ In ev evs.

(** Every character of [s] is in the class [p]. *)
Fixpoint all_chars (p : ascii -> bool) (s : string) : bool :=
  match s with
  | EmptyString => true
  | String c s' => p c && all_chars p s'
  end.

(** The text of an attribute with the value [v] between the quotes [q]
    and [q'], followed by [rest]. *)
Definition attribute (name : string) (q : ascii) (v : string) (q' : ascii)
           (rest : string) : string :=
  (name ++ "=" ++ String q (v ++ String q' rest))%string.


(** A library action and an action whose first step calls it. *)
Definition sample_caller_project : FileSystem :=
  mkFileSystem
    ["/srv/app/app/api/send.json"; "/srv/app/app/lib/notify.json"]
    []
    ["/srv/app/app/api/send.json"; "/srv/app/app/lib/notify.json"]
    []
    (fun _ => "")
    (fun f => if f =? "/srv/app/app/api/send.json"
              then Some (JObj [("steps",
                                JArr [JObj [("exec", JStr "lib/notify")]])])
              else Some (JObj [("steps", JArr [])]))
    (Dir []).


(** The text [tail] does not go on with a character of the class [p]:
    a run of [p] that reaches it ends there. *)
Definition ends_run (p : ascii -> bool) (tail : string) : bool :=
  match tail with
  | EmptyString => true
  | String c _ => negb (p c)
  end.


(** The text of a call of [fetch] on the literal [v] between the quotes
    [q] and [q'], with the white space [sp1], [sp2] and [sp3] around the
    parentheses, followed by [rest]. *)
Definition fetch_call (sp1 sp2 : string) (q : ascii) (v : string) (q' : ascii)
           (sp3 rest : string) : string :=
  ("fetch" ++ sp1 ++ "(" ++ sp2 ++
   String q (v ++ String q' (sp3 ++ ")" ++ rest)))%string.

(** A script that fetches the second action of the sample project. *)
Definition sample_script_project : FileSystem :=
  mkFileSystem
    (glob_actions sample_project) [] [] ["/srv/app/public/js/main.js"]
    (fun _ => "const r = await fetch( '/api/v1/idle' );")
    (readJson sample_project)
    (tree sample_project).

(* ================================================================== *)
(** * Part III: properties                                             *)
(* ================================================================== *)

(** ** Sorting *)

Section JsSortFacts.
Variable A : Type.
Variable cmp : A -> A -> Z.

Lemma insert_sorted_perm (x : A) (l : list A) :
  Permutation (insert_sorted cmp x l) (x :: l).
Proof.
  induction l as [|y l IH]; simpl.
  - apply Permutation_refl.
  - destruct (0 <? cmp x y)%Z.
    + eapply Permutation_trans; [apply perm_skip, IH | apply perm_swap].
    + apply Permutation_refl.
Qed.

Lemma js_sort_perm (l : list A) : Permutation (js_sort cmp l) l.
Proof.
  induction l as [|x l IH]; simpl.
  - apply perm_nil.
  - eapply Permutation_trans; [apply insert_sorted_perm | apply perm_skip, IH].
Qed.

Lemma js_sort_In (l : list A) (x : A) : In x (js_sort cmp l) <-> In x l.
Proof.
  split; apply Permutation_in;
    [apply js_sort_perm | apply Permutation_sym, js_sort_perm].
Qed.
End JsSortFacts.

(** Sorting by a key, larger keys first: the order [deleteEmptyFolders]
    asks for. *)
Section SortByKey.
Variable A : Type.
Variable key : A -> nat.

Let cmp (a b : A) : Z := (Z.of_nat (key b) - Z.of_nat (key a))%Z.
Let ge (a b : A) : Prop := key b <= key a.

Lemma insert_sorted_key (x : A) (l : list A) :
  StronglySorted ge l -> StronglySorted ge (insert_sorted cmp x l).
Proof.
  induction l as [|y l IH]; simpl; intros Hs.
  - constructor; [constructor | constructor].
  - inversion Hs as [|y' l' Hl Hy]; subst.
    destruct (0 <? cmp x y)%Z eqn:E.
    + constructor; [apply IH, Hl |].
      apply Z.ltb_lt in E. unfold cmp in E.
      rewrite Forall_forall. intros z Hz.
      apply (Permutation_in _ (insert_sorted_perm cmp x l)) in Hz.
      destruct Hz as [<- | Hz].
      * unfold ge. lia.
      * rewrite Forall_forall in Hy. apply Hy, Hz.
    + apply Z.ltb_ge in E. unfold cmp in E.
      constructor; [exact Hs |].
      constructor; [unfold ge; lia |].
      rewrite Forall_forall in Hy |- *. intros z Hz.
      specialize (Hy z Hz). unfold ge in *. lia.
Qed.

Lemma js_sort_key (l : list A) : StronglySorted ge (js_sort cmp l).
Proof.
  induction l as [|x l IH]; simpl.
  - constructor.
  - apply insert_sorted_key, IH.
Qed.

Lemma js_sort_key_later (l l1 l2 : list A) (q p : A) :
  js_sort cmp l = l1 ++ q :: l2 -> In p l2 -> key p <= key q.
Proof.
  intros E Hp. pose proof (js_sort_key l) as Hs. rewrite E in Hs.
  clear E. induction l1 as [|x l1 IH]; simpl in Hs.
  - inversion Hs as [|? ? _ Hq]; subst.
    rewrite Forall_forall in Hq. apply Hq, Hp.
  - inversion Hs; subst. auto.
Qed.
End SortByKey.

(** ** The classification of [analyzeResults] *)

Lemma analyze_step_entries (l : list (string * Action))
      (s : Res.Summary) (acc : list Res.Entry) :
  snd (fold_left analyze_step l (s, acc)) = acc ++ map entry_of l.
Proof.
  revert s acc. induction l as [|[k a] l IH]; intros s acc; simpl.
  - now rewrite app_nil_r.
  - unfold entry_of at 1; simpl.
    destruct (List.length (Act.references a) =? 0)%nat;
      rewrite IH, <- app_assoc; reflexivity.
Qed.

Lemma analyze_step_summary (l : list (string * Action))
      (s : Res.Summary) (acc : list Res.Entry) :
  let s' := fst (fold_left analyze_step l (s, acc)) in
  Res.totalActions s' = Res.totalActions s /\
  Res.possiblyUnused s' = Res.possiblyUnused s /\
  Res.used s' + Res.likelyUnused s' =
    Res.used s + Res.likelyUnused s + List.length l.
Proof.
  revert s acc. induction l as [|[k a] l IH]; intros s acc; simpl.
  - repeat split; lia.
  - destruct (List.length (Act.references a) =? 0)%nat;
      match goal with
      | |- context [fold_left analyze_step l (?s1, ?a1)] =>
          destruct (IH s1 a1) as (H1 & H2 & H3)
      end; simpl in *; repeat split; try assumption; lia.
Qed.

Lemma analyzeResults_actions (st : Scanner) :
  Res.actions (analyzeResults st) =
    js_sort (fun a b => (confidenceOrder (Res.confidence a)
                         - confidenceOrder (Res.confidence b))%Z)
            (map entry_of (serverActions st)).
Proof.
  unfold analyzeResults.
  pose proof (analyze_step_entries (serverActions st)
    (Res.mkSummary (List.length (serverActions st)) 0 0 0) []) as H.
  destruct (fold_left analyze_step _ _) as [s acts]; simpl in *.
  now rewrite H.
Qed.

Lemma analyzeResults_summary (st : Scanner) :
  let s := Res.summary (analyzeResults st) in
  Res.totalActions s = Res.used s + Res.likelyUnused s /\
  Res.possiblyUnused s = 0.
Proof.
  unfold analyzeResults.
  pose proof (analyze_step_summary (serverActions st)
    (Res.mkSummary (List.length (serverActions st)) 0 0 0) []) as H.
  destruct (fold_left analyze_step _ _) as [s acts]; simpl in *.
  destruct H as (H1 & H2 & H3). split; lia.
Qed.

(** ** Path normalization *)

(** The two examples of the specification: both raw references normalize
    to the key under which [discoverServerActions] indexes the file. *)
Lemma normalizePath_queue_example :
  normalizePath "/app/api/v1/queues/sync.json" = "/api/v1/queues/sync" /\
  filePathToUrl "app/api/v1/queues/sync.json" = "/api/v1/queues/sync".
Proof. split; reflexivity. Qed.

Lemma normalizePath_lib_example :
  normalizePath "security/check" = "lib/security/check" /\
  filePathToUrl "app/lib/security/check.json" = "lib/security/check".
Proof. split; reflexivity. Qed.

(** The rules apply in order and the first that matches wins. *)
Lemma normalizePath_rules (p : string) :
  normalizePath p =
    let q := if startsWith p "/api/" then p
             else if startsWith p "/app/api/" then replace p "/app/api/" "/api/"
             else if startsWith p "/" || startsWith p "lib/" then p
             else ("lib/" ++ p)%string in
    if endsWith q ".json" then replace q ".json" "" else q.
Proof.
  unfold normalizePath.
  destruct (startsWith p "/api/"); [reflexivity|].
  destruct (startsWith p "/app/api/"); [reflexivity|].
  destruct (startsWith p "/"), (startsWith p "lib/"); reflexivity.
Qed.

(** Where the extension is the only occurrence of [.json], the
    first-occurrence replace removes the extension. *)
Lemma drop_app_length (s x : string) :
  drop (String.length (s ++ x)%string - String.length x) (s ++ x)%string = x.
Proof.
  induction s as [|c s IH].
  - change (("" ++ x)%string) with x. rewrite Nat.sub_diag. reflexivity.
  - change ((String c s ++ x)%string) with (String c (s ++ x)%string).
    assert (E : String.length x <= String.length (s ++ x)%string).
    { clear IH. induction s; simpl; lia. }
    replace (String.length (String c (s ++ x)%string) - String.length x)
      with (S (String.length (s ++ x)%string - String.length x))
      by (cbn [String.length]; lia).
    exact IH.
Qed.

Lemma endsWith_app (s x : string) : endsWith (s ++ x)%string x = true.
Proof.
  unfold endsWith. rewrite drop_app_length, String.eqb_refl, andb_true_r.
  apply Nat.leb_le. induction s; simpl; lia.
Qed.

Lemma replace_only_occurrence (s : string) :
  (forall n, n < String.length s ->
             String.prefix ".json" (drop n (s ++ ".json")%string) = false) ->
  replace (s ++ ".json")%string ".json" "" = s.
Proof.
  induction s as [|c s IH]; intros H; [reflexivity|].
  pose proof (H 0 (Nat.lt_0_succ _)) as H0.
  change (drop 0 (String c s ++ ".json")%string)
    with (String c (s ++ ".json")%string) in H0.
  change ((String c s ++ ".json")%string) with (String c (s ++ ".json")%string).
  unfold replace; fold replace. rewrite H0. f_equal. apply IH.
  intros n Hn. apply (H (S n)). simpl. lia.
Qed.

Lemma normalizePath_api_json (s : string) :
  startsWith (s ++ ".json")%string "/api/" = true ->
  (forall n, n < String.length s ->
             String.prefix ".json" (drop n (s ++ ".json")%string) = false) ->
  normalizePath (s ++ ".json")%string = s.
Proof.
  intros Hp Hs. unfold normalizePath. rewrite Hp, endsWith_app.
  apply replace_only_occurrence, Hs.
Qed.

(** C2.  The rules are tried in order and the two examples of the
    specification normalize as it says; but the extension is removed with
    a first-occurrence replace, so on a path with an earlier [.json] the
    trailing extension stays and the earlier one goes.  The key of the
    action declared in such a file keeps its extension too, and the
    reference written without extension does not reach it. *)
Theorem normalizePath_strips_first_json_occurrence :
  normalizePath "/app/api/v1/queues/sync.json"
    = filePathToUrl "app/api/v1/queues/sync.json" /\
  normalizePath "security/check"
    = filePathToUrl "app/lib/security/check.json" /\
  endsWith "/api/v1/data.json.bak.json" ".json" = true /\
  normalizePath "/api/v1/data.json.bak.json" = "/api/v1/data.bak.json" /\
  normalizePath "/api/v1/data.json.bak.json" <> "/api/v1/data.json.bak" /\
  filePathToUrl "app/api/v1/data.json.bak.json" = "/api/v1/data.bak.json" /\
  normalizePath "/api/v1/data.json.bak"
    <> filePathToUrl "app/api/v1/data.json.bak.json".
Proof.
  repeat split; try reflexivity; discriminate.
Qed.

(** ** The generic URL-pattern scan *)

(** The magic-link string does not yield exactly one reference. *)
Lemma magic_link_not_one_reference :
  ~ exists r : Reference,
      extracted (fst (scanForApiUrlPatterns magic_link "/srv/app/views/mail.ejs"
                        (new_Scanner "/srv/app")))
        = [("/api/v1/security/magic-login", r)] /\
      type r = TemplateUrl.
Proof.
  intros (r & H & _). vm_compute in H. discriminate H.
Qed.

(** C3 (amended).  The magic-link string yields exactly two references,
    both normalized to the path without the query: the first from the
    direct pattern (url-string), the second from the template pattern
    (template-url); a declared action of that key receives both. *)
Theorem magic_link_two_references (root file : string) (a : Action) :
  let key := "/api/v1/security/magic-login" in
  let src := path_relative root file in
  extracted (fst (scanForApiUrlPatterns magic_link file (new_Scanner root)))
    = [(key, mkReference src UrlString key);
       (key, mkReference src TemplateUrl key)] /\
  serverActions
    (fst (scanForApiUrlPatterns magic_link file
            (mkScanner root [(key, a)] [] [])))
    = [(key, push_reference (mkReference src TemplateUrl key)
               (push_reference (mkReference src UrlString key) a))].
Proof.
  split; reflexivity.
Qed.

(** ** [addReference] *)

Section JsMapFacts.
Variable V : Type.

Lemma map_get_update_same (m : list (string * V)) (k : string) (f : V -> V) :
  map_get (map_update m k f) k = option_map f (map_get m k).
Proof.
  unfold map_get. induction m as [|[k' v'] m IH]; simpl; [reflexivity|].
  destruct (k' =? k) eqn:E; simpl; rewrite E; [reflexivity | exact IH].
Qed.

Lemma map_get_update_other (m : list (string * V)) (k k0 : string)
      (f : V -> V) :
  k0 <> k -> map_get (map_update m k f) k0 = map_get m k0.
Proof.
  unfold map_get. intros Hne.
  induction m as [|[k' v'] m IH]; simpl; [reflexivity|].
  destruct (k' =? k) eqn:E; simpl.
  - apply String.eqb_eq in E. subst k'.
    apply String.eqb_neq in Hne. rewrite String.eqb_sym in Hne.
    now rewrite Hne.
  - rewrite IH. reflexivity.
Qed.

Lemma map_get_set_same (m : list (string * V)) (k : string) (v : V) :
  map_get (map_set m k v) k = Some v.
Proof.
  unfold map_get. induction m as [|[k' v'] m IH]; simpl.
  - now rewrite String.eqb_refl.
  - destruct (k' =? k) eqn:E; simpl.
    + now rewrite String.eqb_refl.
    + rewrite E. exact IH.
Qed.

Lemma map_get_set_other (m : list (string * V)) (k k0 : string) (v : V) :
  k0 <> k -> map_get (map_set m k v) k0 = map_get m k0.
Proof.
  unfold map_get. intros Hne.
  induction m as [|[k' v'] m IH]; simpl.
  - apply String.eqb_neq in Hne. rewrite String.eqb_sym in Hne.
    now rewrite Hne.
  - destruct (k' =? k) eqn:E; simpl.
    + apply String.eqb_eq in E. subst k'.
      apply String.eqb_neq in Hne. rewrite String.eqb_sym in Hne.
      now rewrite Hne.
    + destruct (k' =? k0); [reflexivity | exact IH].
Qed.

Lemma map_keys_update (m : list (string * V)) (k : string) (f : V -> V) :
  map_keys (map_update m k f) = map_keys m.
Proof.
  unfold map_keys. induction m as [|[k' v'] m IH]; simpl; [reflexivity|].
  destruct (k' =? k); simpl; [reflexivity | now rewrite IH].
Qed.

Lemma map_has_In (m : list (string * V)) (k : string) :
  map_has m k = true <-> In k (map_keys m).
Proof.
  unfold map_has, map_keys.
  induction m as [|[k' v'] m IH]; simpl.
  - split; [discriminate | tauto].
  - destruct (k' =? k) eqn:E.
    + apply String.eqb_eq in E. tauto.
    + apply String.eqb_neq in E. rewrite IH. tauto.
Qed.

Lemma map_keys_set (m : list (string * V)) (k : string) (v : V) :
  map_keys (map_set m k v) =
    if map_has m k then map_keys m else map_keys m ++ [k].
Proof.
  unfold map_keys, map_has.
  induction m as [|[k' v'] m IH]; simpl; [reflexivity|].
  destruct (k' =? k) eqn:E; simpl.
  - apply String.eqb_eq in E. now subst.
  - rewrite IH. destruct (assoc k m); reflexivity.
Qed.
End JsMapFacts.

(** The empty string and a pure fragment are not rejected: each is
    recorded in the lookup under a key with the library prefix. *)
Lemma addReference_empty_string_recorded :
  normalizePath "" = "lib/" /\
  normalizePath "#top" = "lib/#top" /\
  fst (addReference "" "/srv/app/app/api/run.json" ExecString
         (new_Scanner "/srv/app")) <> new_Scanner "/srv/app" /\
  references (fst (addReference "#top" "/srv/app/views/index.ejs" HtmlUrl
                     (new_Scanner "/srv/app")))
    = [("lib/#top", [mkReference "views/index.ejs" HtmlUrl "#top"])].
Proof.
  repeat split; try reflexivity. vm_compute. discriminate.
Qed.

(** C4 (amended).  [addReference] rejects no string: it returns normally
    and the reference is appended in the lookup under the normalized key;
    the index keeps its keys, the action under the normalized key, if
    there is one, receives the reference, and every other action keeps
    its reference list. *)
Theorem addReference_records_every_string
        (p file : string) (t : RefType) (st : Scanner) :
  let st' := fst (addReference p file t st) in
  let key := normalizePath p in
  let r := mkReference (path_relative (projectRoot st) file) t p in
  snd (addReference p file t st) = Normal tt /\
  map_get (references st') key =
    Some (match map_get (references st) key with
          | Some l => l
          | None => []
          end ++ [r]) /\
  map_keys (serverActions st') = map_keys (serverActions st) /\
  (forall k, k <> key ->
             map_get (serverActions st') k = map_get (serverActions st) k) /\
  (forall a, map_get (serverActions st) key = Some a ->
             map_get (serverActions st') key = Some (push_reference r a)) /\
  (map_get (serverActions st) key = None ->
   serverActions st' = serverActions st).
Proof.
  cbv zeta. split; [reflexivity|]. split; [|split; [|split; [|split]]].
  - simpl. rewrite map_get_update_same. unfold map_has.
    fold (map_get (references st) (normalizePath p)).
    destruct (map_get (references st) (normalizePath p)) as [l|] eqn:E; simpl.
    + rewrite E. reflexivity.
    + rewrite map_get_set_same. reflexivity.
  - simpl. destruct (map_has (serverActions st) (normalizePath p));
      [apply map_keys_update | reflexivity].
  - intros k Hk. simpl.
    destruct (map_has (serverActions st) (normalizePath p));
      [apply map_get_update_other, Hk | reflexivity].
  - intros a Ha. simpl. unfold map_has.
    fold (map_get (serverActions st) (normalizePath p)). rewrite Ha.
    rewrite map_get_update_same, Ha. reflexivity.
  - intros Ha. simpl. unfold map_has.
    fold (map_get (serverActions st) (normalizePath p)). rewrite Ha.
    reflexivity.
Qed.

(** The empty string, met as the value of an [exec] field in a project
    whose only action is [/api/run]: it is recorded under [lib/] and the
    action keeps its empty reference list. *)
Lemma addReference_records_every_string_witness :
  let a := Act.mkAction "/srv/app/app/api/run.json" "app/api/run.json"
                        "/api/run" (JObj [("steps", JArr [])]) [] in
  let st := mkScanner "/srv/app" [("/api/run", a)] [] [] in
  let st' := fst (addReference "" "/srv/app/app/api/run.json" ExecString st) in
  map_get (serverActions st) (normalizePath "") = None /\
  serverActions st' = serverActions st /\
  map_get (references st') "lib/"
    = Some [mkReference "app/api/run.json" ExecString ""].
Proof.
  cbv zeta. split; [reflexivity|]. split.
  - apply (addReference_records_every_string "" "/srv/app/app/api/run.json"
             ExecString). reflexivity.
  - apply (addReference_records_every_string "" "/srv/app/app/api/run.json"
             ExecString).
Defined.

(** ** Empty directories *)

Lemma findEmptyFoldersInDirectory_Dir (dir : string)
      (items : list (string * node)) :
  findEmptyFoldersInDirectory dir (Dir items) =
    match items with
    | [] => [dir]
    | _ :: _ =>
        if hasNonEmptyContent dir items then subEmpty_of dir items
        else subEmpty_of dir items ++ [dir]
    end.
Proof.
  assert (E : forall l,
             (fix items_loop (l : list (string * node)) : list string :=
                match l with
                | [] => []
                | (item, c) :: rest =>
                    match c with
                    | Dir _ =>
                        findEmptyFoldersInDirectory (path_join dir item) c
                    | File => []
                    end ++ items_loop rest
                end) l = subEmpty_of dir l).
  { induction l as [|[item c] l IH]; [reflexivity|].
    rewrite IH. destruct c; reflexivity. }
  destruct items as [|e items]; [reflexivity|].
  rewrite <- (E (e :: items)). reflexivity.
Qed.

Lemma In_subEmpty_of (dir p : string) (l : list (string * node)) :
  In p (subEmpty_of dir l) <->
  exists k c, In (k, c) l /\
              In p (findEmptyFoldersInDirectory (path_join dir k) c).
Proof.
  induction l as [|[item c] l IH]; simpl.
  - split; [tauto | intros (k & c & [] & _)].
  - rewrite in_app_iff, IH. split.
    + intros [H | (k & c' & H1 & H2)].
      * exists item, c. auto.
      * exists k, c'. auto.
    + intros (k & c' & [H1 | H1] & H2).
      * inversion H1; subst. auto.
      * right. exists k, c'. auto.
Qed.

Lemma item_hasContent_Dir (items : list (string * node)) (dir : string) :
  item_hasContent (Dir items) = hasNonEmptyContent dir items.
Proof.
  simpl. induction items as [|[k c] l IH]; [reflexivity|].
  simpl. destruct (item_hasContent c); [reflexivity | exact IH].
Qed.

Lemma hasNonEmptyContent_true (dir : string) (items : list (string * node)) :
  hasNonEmptyContent dir items = true <->
  exists k c, In (k, c) items /\ item_hasContent c = true.
Proof.
  induction items as [|[k c] l IH]; simpl.
  - split; [discriminate | intros (k & c & [] & _)].
  - destruct (item_hasContent c) eqn:E.
    + split; [|reflexivity]. intros _. exists k, c. auto.
    + rewrite IH. split.
      * intros (k' & c' & H1 & H2). exists k', c'. auto.
      * intros (k' & c' & [H1 | H1] & H2).
        -- inversion H1; subst. congruence.
        -- exists k', c'. auto.
Qed.

(** [hasNonEmptyContent] decides whether a file lies below. *)
Lemma item_hasContent_spec (n : node) :
  item_hasContent n = true <-> n = File \/ file_below n.
Proof.
  induction n as [|entries IH] using node_induction.
  - simpl. split; auto.
  - rewrite (item_hasContent_Dir entries ""), hasNonEmptyContent_true.
    rewrite Forall_forall in IH. split.
    + intros (k & c & Hin & Hc). right.
      apply (IH (k, c) Hin) in Hc. simpl in Hc. destruct Hc as [-> | Hc].
      * eapply file_below_here; eauto.
      * eapply file_below_sub; eauto.
    + intros [H | H]; [discriminate|].
      inversion H as [es k Hin | es k c Hin Hc]; subst.
      * exists k, File. auto.
      * exists k, c. split; [exact Hin|].
        apply (IH (k, c) Hin). auto.
Qed.

Lemma hasNonEmptyContent_spec (dir : string) (items : list (string * node)) :
  hasNonEmptyContent dir items = true <-> file_below (Dir items).
Proof.
  rewrite <- item_hasContent_Dir, item_hasContent_spec.
  split; [intros [H | H]; [discriminate | exact H] | auto].
Qed.

Lemma findEmptyFoldersInDirectory_spec (n : node) :
  forall d p,
    In p (findEmptyFoldersInDirectory d n) <->
    exists m, dir_at d n p m /\ ~ file_below m.
Proof.
  induction n as [|entries IH] using node_induction; intros d p.
  - simpl. split; [tauto|]. intros (m & H & _). inversion H.
  - rewrite Forall_forall in IH.
    assert (Hsub : In p (subEmpty_of d entries) <->
                   exists m k c, In (k, c) entries /\
                                 dir_at (path_join d k) c p m /\
                                 ~ file_below m).
    { rewrite In_subEmpty_of. split.
      - intros (k & c & Hin & Hp).
        apply (IH (k, c) Hin) in Hp. destruct Hp as (m & H1 & H2).
        exists m, k, c. auto.
      - intros (m & k & c & Hin & H1 & H2).
        exists k, c. split; [exact Hin|].
        apply (IH (k, c) Hin). exists m. auto. }
    rewrite findEmptyFoldersInDirectory_Dir.
    assert (Hhere : ~ file_below (Dir entries) ->
                    exists m, dir_at d (Dir entries) d m /\ ~ file_below m).
    { intros H. exists (Dir entries). split; [constructor | exact H]. }
    assert (Hnil : ~ file_below (Dir [])).
    { intros H. inversion H as [es k Hin | es k c Hin _]; destruct Hin. }
    split.
    + intros Hp. destruct entries as [|e entries'] eqn:Ee.
      * destruct Hp as [<- | []]. apply Hhere, Hnil.
      * rewrite <- Ee in *. clear Ee.
        destruct (hasNonEmptyContent d entries) eqn:Hc.
        -- apply Hsub in Hp. destruct Hp as (m & k & c & Hin & H1 & H2).
           exists m. split; [econstructor 2; eauto | exact H2].
        -- apply in_app_iff in Hp. destruct Hp as [Hp | [<- | []]].
           ++ apply Hsub in Hp. destruct Hp as (m & k & c & Hin & H1 & H2).
              exists m. split; [econstructor 2; eauto | exact H2].
           ++ apply Hhere. rewrite <- hasNonEmptyContent_spec with (dir := d).
              congruence.
    + intros (m & Hat & Hm).
      inversion Hat as [d' es | d' es k c p' m' Hin Hat']; subst.
      * destruct entries as [|e entries'] eqn:Ee; [left; reflexivity|].
        rewrite <- Ee in *. clear Ee.
        destruct (hasNonEmptyContent p entries) eqn:Hc.
        -- apply hasNonEmptyContent_spec in Hc. contradiction.
        -- apply in_app_iff. right. left. reflexivity.
      * assert (Hp : In p (subEmpty_of d entries)).
        { apply Hsub. exists m, k, c. auto. }
        destruct entries as [|e entries'] eqn:Ee; [destruct Hin|].
        rewrite <- Ee in *. clear Ee.
        destruct (hasNonEmptyContent d entries);
          [exact Hp | apply in_app_iff; left; exact Hp].
Qed.

(** [isDirectoryEmpty] answers [true] exactly on a directory below which
    there is no file. *)
Lemma isDirectoryEmptyAt_Dir (n : node) :
  match n with
  | File => True
  | Dir items =>
      isDirectoryEmptyAt (Dir items) = negb (hasNonEmptyContent "" items)
  end.
Proof.
  induction n as [|entries IH] using node_induction; [exact I|].
  destruct entries as [|e entries']; [reflexivity|].
  remember (e :: entries') as l eqn:El.
  assert (E : forall l',
             Forall (fun e0 =>
                       match snd e0 with
                       | File => True
                       | Dir items =>
                           isDirectoryEmptyAt (Dir items)
                             = negb (hasNonEmptyContent "" items)
                       end) l' ->
             (fix items_loop (l0 : list (string * node)) : bool :=
                match l0 with
                | [] => true
                | (_, c) :: rest =>
                    match c with
                    | File => false
                    | Dir _ =>
                        if negb (isDirectoryEmptyAt c) then false
                        else items_loop rest
                    end
                end) l' = negb (hasNonEmptyContent "" l')).
  { induction l' as [|[k c] l' IHl]; intros Hl; [reflexivity|].
    inversion Hl as [|? ? Hc Hrest]; subst. specialize (IHl Hrest).
    destruct c as [|items]; [reflexivity|].
    cbn [snd] in Hc. cbn -[isDirectoryEmptyAt item_hasContent].
    rewrite Hc, IHl, (item_hasContent_Dir items "").
    destruct (hasNonEmptyContent "" items); reflexivity. }
  rewrite <- (E l IH). subst l. reflexivity.
Qed.

Lemma isDirectoryEmpty_spec (t : node) (p : string) :
  isDirectoryEmpty t p = true <->
  exists items, resolve t p = Some (Dir items) /\ ~ file_below (Dir items).
Proof.
  unfold isDirectoryEmpty. destruct (resolve t p) as [[|items]|].
  - split; [discriminate | intros (items & H & _); discriminate].
  - pose proof (isDirectoryEmptyAt_Dir (Dir items)) as E. cbv beta iota in E.
    rewrite E, negb_true_iff, <- not_true_iff_false,
      (hasNonEmptyContent_spec "" items).
    split.
    + intros H. exists items. auto.
    + intros (items' & H1 & H2). inversion H1; subst. exact H2.
  - split; [discriminate | intros (items & H & _); discriminate].
Qed.


(** On the sample tree, with [/srv] as the project: the two empty
    directories of [old], then [old] itself; [live] holds a file. *)
Lemma findEmptyFolders_sample :
  map Res.relativePath (findEmptyFolders "/srv" sample_tree)
    = ["app/api/old/a"; "app/api/old/b"; "app/api/old"].
Proof. reflexivity. Qed.

(** ** Deleting empty directories *)

Lemma split_not_nil (s : string) (c : ascii) : split s c <> [].
Proof.
  destruct s as [|a s]; simpl; [discriminate|].
  destruct (Ascii.eqb a c); [discriminate|].
  destruct (split s c); discriminate.
Qed.

Lemma split_length_cons (a : ascii) (s : string) (c : ascii) :
  List.length (split (String a s) c) =
    if Ascii.eqb a c then S (List.length (split s c))
    else List.length (split s c).
Proof.
  simpl. destruct (Ascii.eqb a c); [reflexivity|].
  pose proof (split_not_nil s c) as H.
  destruct (split s c); [contradiction | reflexivity].
Qed.

Lemma split_length_app (a b : string) (c : ascii) :
  List.length (split (a ++ String c b)%string c) =
    List.length (split a c) + List.length (split b c).
Proof.
  induction a as [|x a IH].
  - change (("" ++ String c b)%string) with (String c b).
    rewrite split_length_cons, Ascii.eqb_refl. reflexivity.
  - change ((String x a ++ String c b)%string)
      with (String x (a ++ String c b)%string).
    rewrite !split_length_cons, IH. destruct (Ascii.eqb x c); reflexivity.
Qed.

Lemma depth_positive (a : string) : 0 < depth a.
Proof.
  unfold depth. pose proof (split_not_nil a "/") as H.
  destruct (split a "/"); [contradiction | simpl; lia].
Qed.

(** An entry of a directory, at any level below it, is deeper. *)
Lemma depth_path_join (dir rest : string) :
  depth dir < depth (path_join dir rest).
Proof.
  unfold path_join, depth.
  change (("/" ++ rest)%string) with (String "/" rest).
  rewrite split_length_app. pose proof (depth_positive rest) as H.
  unfold depth in H. lia.
Qed.

Section DeleteFacts.
Variable fs_remove : node -> string -> node * option string.

Lemma delete_step_cases (st : node * DeleteResults) (p : string) :
  (isDirectoryEmpty (fst st) p = false /\ delete_step fs_remove st p = st) \/
  (isDirectoryEmpty (fst st) p = true /\
   snd (fs_remove (fst st) p) = None /\
   delete_step fs_remove st p =
     (fst (fs_remove (fst st) p),
      mkDeleteResults (deleted (snd st) ++ [p]) (errors (snd st)))) \/
  (exists message,
      isDirectoryEmpty (fst st) p = true /\
      snd (fs_remove (fst st) p) = Some message /\
      delete_step fs_remove st p =
        (fst (fs_remove (fst st) p),
         mkDeleteResults (deleted (snd st))
                         (errors (snd st) ++ [mkDeleteError p message]))).
Proof.
  destruct st as [t results]. unfold delete_step. simpl.
  destruct (isDirectoryEmpty t p); [|left; auto].
  right. destruct (fs_remove t p) as [t' [message|]]; simpl.
  - right. exists message. auto.
  - left. auto.
Qed.

(** What is recorded stays recorded. *)
Lemma delete_fold_monotone (l : list string) (st : node * DeleteResults) :
  (forall p, In p (deleted (snd st)) ->
             In p (deleted (snd (fold_left (delete_step fs_remove) l st)))) /\
  (forall e, In e (errors (snd st)) ->
             In e (errors (snd (fold_left (delete_step fs_remove) l st)))).
Proof.
  revert st. induction l as [|a l IH]; intros st; simpl; [auto|].
  destruct (IH (delete_step fs_remove st a)) as [IH1 IH2].
  destruct (delete_step_cases st a)
    as [(_ & E) | [(_ & _ & E) | (message & _ & _ & E)]]; rewrite E in *;
    simpl in *; split; intros x Hx;
    first [apply IH1 | apply IH2]; try apply in_app_iff; auto.
Qed.

(** Every deleted path was verified empty at its turn and removed without
    error. *)
Lemma deleted_origin (l : list string) (st : node * DeleteResults)
      (p : string) :
  In p (deleted (snd (fold_left (delete_step fs_remove) l st))) ->
  In p (deleted (snd st)) \/
  exists l1 l2,
    l = l1 ++ p :: l2 /\
    let before := fold_left (delete_step fs_remove) l1 st in
    isDirectoryEmpty (fst before) p = true /\
    snd (fs_remove (fst before) p) = None.
Proof.
  revert st. induction l as [|a l IH]; intros st; simpl; [auto|].
  intros H. apply IH in H. destruct H as [H | (l1 & l2 & -> & H1 & H2)].
  - destruct (delete_step_cases st a)
      as [(_ & E) | [(Hc & Hr & E) | (message & _ & _ & E)]];
      rewrite E in H; simpl in H; auto.
    apply in_app_iff in H. destruct H as [H | [<- | []]]; [auto|].
    right. exists [], l. simpl. auto.
  - right. exists (a :: l1), l2. simpl. auto.
Qed.

(** Every collected error is the failure of a removal attempted on a
    directory verified empty at its turn. *)
Lemma errors_origin (l : list string) (st : node * DeleteResults)
      (e : DeleteError) :
  In e (errors (snd (fold_left (delete_step fs_remove) l st))) ->
  In e (errors (snd st)) \/
  exists l1 l2,
    l = l1 ++ error_path e :: l2 /\
    let before := fold_left (delete_step fs_remove) l1 st in
    isDirectoryEmpty (fst before) (error_path e) = true /\
    snd (fs_remove (fst before) (error_path e)) = Some (error e).
Proof.
  revert st. induction l as [|a l IH]; intros st; simpl; [auto|].
  intros H. apply IH in H. destruct H as [H | (l1 & l2 & -> & H1 & H2)].
  - destruct (delete_step_cases st a)
      as [(_ & E) | [(_ & _ & E) | (message & Hc & Hr & E)]];
      rewrite E in H; simpl in H; auto.
    apply in_app_iff in H. destruct H as [H | [<- | []]]; [auto|].
    right. exists [], l. simpl. auto.
  - right. exists (a :: l1), l2. simpl. auto.
Qed.

Lemma sortedPaths_perm (folderPaths : list string) :
  Permutation (sortedPaths folderPaths) folderPaths.
Proof. apply js_sort_perm. Qed.

Lemma sortedPaths_later_not_deeper (folderPaths l1 l2 : list string)
      (q p : string) :
  sortedPaths folderPaths = l1 ++ q :: l2 -> In p l2 -> depth p <= depth q.
Proof. apply (js_sort_key_later depth). Qed.

(** C7.  [deleteEmptyFolders] attempts the given paths deepest first (no
    path attempted after a directory lies inside it), deletes a directory
    only if [isDirectoryEmpty] held in the tree as it was at that very
    turn, that is, only if it was then a directory with no file below it,
    and records the failure of a removal in [errors] and goes on with the
    paths that remain. *)
Theorem deleteEmptyFolders_deepest_first_verified_collecting
        (t : node) (folderPaths : list string) :
  let sorted := sortedPaths folderPaths in
  let final := deleteEmptyFolders fs_remove t folderPaths in
  (Permutation sorted folderPaths /\
   final = after_attempts fs_remove t sorted /\
   forall l1 parent l2 rest,
     sorted = l1 ++ parent :: l2 -> ~ In (path_join parent rest) l2) /\
  (forall p,
      In p (deleted (snd final)) ->
      exists l1 l2 items,
        sorted = l1 ++ p :: l2 /\
        isDirectoryEmpty (fst (after_attempts fs_remove t l1)) p = true /\
        resolve (fst (after_attempts fs_remove t l1)) p = Some (Dir items) /\
        ~ file_below (Dir items) /\
        snd (fs_remove (fst (after_attempts fs_remove t l1)) p) = None) /\
  (forall l1 p l2 message,
      sorted = l1 ++ p :: l2 ->
      let before := after_attempts fs_remove t l1 in
      isDirectoryEmpty (fst before) p = true ->
      snd (fs_remove (fst before) p) = Some message ->
      In (mkDeleteError p message) (errors (snd final)) /\
      final =
        fold_left (delete_step fs_remove) l2
          (fst (fs_remove (fst before) p),
           mkDeleteResults (deleted (snd before))
             (errors (snd before) ++ [mkDeleteError p message]))) /\
  (forall e,
      In e (errors (snd final)) ->
      exists l1 l2,
        sorted = l1 ++ error_path e :: l2 /\
        isDirectoryEmpty (fst (after_attempts fs_remove t l1)) (error_path e)
          = true /\
        snd (fs_remove (fst (after_attempts fs_remove t l1)) (error_path e))
          = Some (error e)).
Proof.
  intros sorted final.
  assert (Hfinal : final = after_attempts fs_remove t sorted) by reflexivity.
  split; [|split; [|split]].
  - split; [apply sortedPaths_perm|]. split; [exact Hfinal|].
    intros l1 parent l2 rest E Hin.
    pose proof (sortedPaths_later_not_deeper _ _ _ _ _ E Hin) as H.
    pose proof (depth_path_join parent rest). lia.
  - intros p Hp. rewrite Hfinal in Hp. unfold after_attempts in Hp.
    apply deleted_origin in Hp.
    destruct Hp as [[] | (l1 & l2 & E & Hc & Hr)].
    destruct (proj1 (isDirectoryEmpty_spec _ _) Hc) as (items & H1 & H2).
    exists l1, l2, items. auto.
  - intros l1 p l2 message E before Hc Hr.
    assert (Hstep : final =
              fold_left (delete_step fs_remove) l2
                (fst (fs_remove (fst before) p),
                 mkDeleteResults (deleted (snd before))
                   (errors (snd before) ++ [mkDeleteError p message]))).
    { rewrite Hfinal. unfold after_attempts. rewrite E, fold_left_app.
      simpl. fold (after_attempts fs_remove t l1). fold before.
      destruct (delete_step_cases before p)
        as [(Hc' & _) | [(_ & Hr' & _) | (message' & _ & Hr' & E')]];
        [congruence | congruence |].
      rewrite E'. congruence. }
    split; [|exact Hstep].
    rewrite Hstep. apply delete_fold_monotone. simpl.
    apply in_app_iff. right. left. reflexivity.
  - intros e He. rewrite Hfinal in He. unfold after_attempts in He.
    apply errors_origin in He. destruct He as [[] | He]. exact He.
Qed.

Lemma deleted_among_attempted (l : list string) (st : node * DeleteResults)
      (p : string) :
  In p (deleted (snd (fold_left (delete_step fs_remove) l st))) ->
  In p (deleted (snd st)) \/ In p l.
Proof.
  intros H. apply deleted_origin in H.
  destruct H as [H | (l1 & l2 & -> & _)]; [auto|].
  right. apply in_app_iff. right. left. reflexivity.
Qed.

Lemma errors_among_attempted (l : list string) (st : node * DeleteResults)
      (e : DeleteError) :
  In e (errors (snd (fold_left (delete_step fs_remove) l st))) ->
  In e (errors (snd st)) \/ In (error_path e) l.
Proof.
  intros H. apply errors_origin in H.
  destruct H as [H | (l1 & l2 & -> & _)]; [auto|].
  right. apply in_app_iff. right. left. reflexivity.
Qed.

(** C10.  A directory that [isDirectoryEmpty] finds not empty at its turn
    is passed over without a trace: the turn changes neither the tree nor
    the results, and (the path being given once) the path is in neither
    [deleted] nor [errors] of the returned result. *)
Theorem deleteEmptyFolders_skips_non_empty_silently
        (t : node) (folderPaths l1 l2 : list string) (p : string) :
  NoDup folderPaths ->
  sortedPaths folderPaths = l1 ++ p :: l2 ->
  isDirectoryEmpty (fst (after_attempts fs_remove t l1)) p = false ->
  let final := deleteEmptyFolders fs_remove t folderPaths in
  delete_step fs_remove (after_attempts fs_remove t l1) p
    = after_attempts fs_remove t l1 /\
  ~ In p (deleted (snd final)) /\
  ~ In p (map error_path (errors (snd final))).
Proof.
  intros Hnd E Hc final.
  destruct (delete_step_cases (after_attempts fs_remove t l1) p)
    as [(_ & Hs) | [(Hc' & _) | (message & Hc' & _)]]; try congruence.
  split; [exact Hs|].
  assert (Hnd' : NoDup (l1 ++ p :: l2)).
  { rewrite <- E. eapply Permutation_NoDup;
      [apply Permutation_sym, sortedPaths_perm | exact Hnd]. }
  apply NoDup_remove_2 in Hnd'.
  assert (Hfinal : final =
            fold_left (delete_step fs_remove) l2
                      (after_attempts fs_remove t l1)).
  { unfold final, deleteEmptyFolders. rewrite E, fold_left_app. simpl.
    fold (after_attempts fs_remove t l1). rewrite Hs. reflexivity. }
  rewrite Hfinal. split.
  - intros H. apply deleted_among_attempted in H. destruct H as [H | H].
    + unfold after_attempts in H. apply deleted_among_attempted in H.
      destruct H as [[] | H]. apply Hnd', in_app_iff. auto.
    + apply Hnd', in_app_iff. auto.
  - intros H. apply in_map_iff in H. destruct H as (e & <- & H).
    apply errors_among_attempted in H. destruct H as [H | H].
    + unfold after_attempts in H. apply errors_among_attempted in H.
      destruct H as [[] | H]. apply Hnd', in_app_iff. auto.
    + apply Hnd', in_app_iff. auto.
Qed.

End DeleteFacts.

(** Asked to delete [live] and [old/a], the detector deletes [old/a] and
    passes over [live], which holds a file: [live] is in neither list. *)
Lemma deleteEmptyFolders_skips_non_empty_silently_witness :
  let paths := ["/srv/app/api/live"; "/srv/app/api/old/a"] in
  let final := deleteEmptyFolders (remove_unless []) sample_tree paths in
  deleted (snd final) = ["/srv/app/api/old/a"] /\
  errors (snd final) = [] /\
  ~ In "/srv/app/api/live" (deleted (snd final)) /\
  ~ In "/srv/app/api/live" (map error_path (errors (snd final))).
Proof.
  cbv zeta.
  split; [reflexivity|]. split; [reflexivity|].
  apply (@deleteEmptyFolders_skips_non_empty_silently (remove_unless [])
           sample_tree ["/srv/app/api/live"; "/srv/app/api/old/a"]
           ["/srv/app/api/old/a"] [] "/srv/app/api/live").
  - repeat constructor; simpl; intuition discriminate.
  - reflexivity.
  - reflexivity.
Defined.

(** ** Regular-expression matching

    A match of a pattern is again a match of the pattern when taken on its
    own, with the same capture.  This is what makes the second [match] of
    the scanner's loops ([m.match(r)[1]] on every [m] of [s.match(r_g)])
    succeed. *)

Lemma length_app (a b : string) :
  String.length (a ++ b)%string = String.length a + String.length b.
Proof. induction a as [|c a IH]; simpl; [reflexivity | now rewrite IH]. Qed.

Lemma string_app_assoc (a b c : string) :
  ((a ++ b) ++ c)%string = (a ++ (b ++ c))%string.
Proof. induction a as [|x a IH]; simpl; [reflexivity | now rewrite IH]. Qed.

Lemma take_app_le (n : nat) (pre post : string) :
  n <= String.length pre -> take n (pre ++ post)%string = take n pre.
Proof.
  revert pre. induction n as [|n IH]; intros pre H.
  - destruct pre; reflexivity.
  - destruct pre as [|c pre]; simpl in *; [lia|].
    rewrite IH by lia. reflexivity.
Qed.

Lemma take_all (s : string) : take (String.length s) s = s.
Proof. induction s as [|c s IH]; simpl; [reflexivity | now rewrite IH]. Qed.

Lemma take_app_exact (pre post : string) :
  take (String.length (pre ++ post)%string - String.length post)
       (pre ++ post)%string = pre.
Proof.
  rewrite length_app.
  replace (String.length pre + String.length post - String.length post)
    with (String.length pre) by lia.
  rewrite take_app_le by lia. apply take_all.
Qed.

Section MatcherFacts.
Variable A : Type.

Lemma star_k_ext (p : ascii -> bool) (s : string) (k1 k2 : string -> option A) :
  (forall y, k1 y = k2 y) -> star_k p s k1 = star_k p s k2.
Proof.
  intros H. induction s as [|c s IH]; simpl; [apply H|].
  rewrite IH, H. reflexivity.
Qed.

Lemma match_k_ext (r : regex) :
  forall (s : string) (cap : option string)
         (k1 k2 : string -> option string -> option A),
    (forall y c, k1 y c = k2 y c) -> match_k r s cap k1 = match_k r s cap k2.
Proof.
  induction r as [|p|p|p|r1 IH1 r2 IH2|r1 IH1]; intros s cap k1 k2 H; simpl.
  - apply H.
  - destruct s as [|c s]; [reflexivity|].
    destruct (p c); [apply H | reflexivity].
  - apply star_k_ext. intros y. apply H.
  - destruct s as [|c s]; [reflexivity|].
    destruct (p c); [|reflexivity]. apply star_k_ext. intros y. apply H.
  - apply IH1. intros y c. apply IH2. exact H.
  - apply IH1. intros y c. apply H.
Qed.

Lemma star_k_inv (p : ascii -> bool) (s : string) (k : string -> option A)
      (a : A) :
  star_k p s k = Some a ->
  exists pre rest, s = (pre ++ rest)%string /\ k rest = Some a.
Proof.
  induction s as [|c s IH]; simpl; intros H.
  - exists "", "". auto.
  - destruct (p c).
    + destruct (star_k p s k) as [b|] eqn:E.
      * inversion H; subst b. destruct (IH eq_refl) as (pre & rest & -> & Hk).
        exists (String c pre), rest. auto.
      * exists "", (String c s). auto.
    + exists "", (String c s). auto.
Qed.

(** A successful match hands an end of the input to its continuation,
    and a pattern with a group hands over a capture. *)
Lemma match_k_inv (r : regex) :
  forall (s : string) (cap : option string)
         (k : string -> option string -> option A) (a : A),
    match_k r s cap k = Some a ->
    exists pre rest cap',
      s = (pre ++ rest)%string /\ k rest cap' = Some a /\
      (has_group r = true \/ cap <> None -> cap' <> None).
Proof.
  induction r as [|p|p|p|r1 IH1 r2 IH2|r1 IH1]; intros s cap k a H; simpl in *.
  - exists "", s, cap. repeat split; auto.
    intros [? | ?]; [discriminate | auto].
  - destruct s as [|c s]; [discriminate|].
    destruct (p c); [|discriminate].
    exists (String c ""), s, cap. repeat split; auto.
    intros [? | ?]; [discriminate | auto].
  - apply star_k_inv in H. destruct H as (pre & rest & -> & Hk).
    exists pre, rest, cap. repeat split; auto.
    intros [? | ?]; [discriminate | auto].
  - destruct s as [|c s]; [discriminate|].
    destruct (p c); [|discriminate].
    apply star_k_inv in H. destruct H as (pre & rest & -> & Hk).
    exists (String c pre), rest, cap. repeat split; auto.
    intros [? | ?]; [discriminate | auto].
  - apply IH1 in H. destruct H as (pre1 & rest1 & cap1 & -> & H & Hc1).
    apply IH2 in H. destruct H as (pre2 & rest2 & cap2 & -> & H & Hc2).
    exists (pre1 ++ pre2)%string, rest2, cap2.
    rewrite string_app_assoc. repeat split; auto.
    intros [Hg | Hc].
    + apply orb_true_iff in Hg. destruct Hg as [Hg | Hg]; auto.
    + auto.
  - apply IH1 in H. destruct H as (pre & rest & cap1 & -> & H & _).
    eexists pre, rest, _. repeat split; [exact H|]. intros _. discriminate.
Qed.

Lemma star_k_fail (p : ascii -> bool) (s : string) (k : string -> option A) :
  (forall rest, String.length rest <= String.length s -> k rest = None) ->
  star_k p s k = None.
Proof.
  intros H. destruct (star_k p s k) as [a|] eqn:E; [|reflexivity].
  apply star_k_inv in E. destruct E as (pre & rest & -> & Hk).
  rewrite H in Hk; [discriminate|]. rewrite length_app. lia.
Qed.

Lemma match_k_fail (r : regex) (s : string) (cap : option string)
      (k : string -> option string -> option A) :
  (forall rest c, String.length rest <= String.length s -> k rest c = None) ->
  match_k r s cap k = None.
Proof.
  intros H. destruct (match_k r s cap k) as [a|] eqn:E; [|reflexivity].
  apply match_k_inv in E. destruct E as (pre & rest & c & -> & Hk & _).
  rewrite H in Hk; [discriminate|]. rewrite length_app. lia.
Qed.

(** Replacing the continuation by one that agrees with it on the answer
    [a] and on failure does not change a match that answers [a]. *)
Section Refine.
Variable a : A.

Lemma star_k_refine (p : ascii -> bool) (s : string)
      (k k' : string -> option A) :
  (forall y, (k y = Some a -> k' y = Some a) /\ (k y = None -> k' y = None)) ->
  (star_k p s k = Some a -> star_k p s k' = Some a) /\
  (star_k p s k = None -> star_k p s k' = None).
Proof.
  intros H. induction s as [|c s IH]; simpl; [apply H|].
  destruct (p c); [|apply H].
  destruct IH as [IHs IHn].
  destruct (star_k p s k) as [b|] eqn:E.
  - split; [|discriminate]. intros Hb. rewrite (IHs Hb). reflexivity.
  - rewrite (IHn eq_refl). apply H.
Qed.

Lemma match_k_refine (r : regex) :
  forall (s : string) (cap : option string)
         (k k' : string -> option string -> option A),
    (forall y c, (k y c = Some a -> k' y c = Some a) /\
                 (k y c = None -> k' y c = None)) ->
    (match_k r s cap k = Some a -> match_k r s cap k' = Some a) /\
    (match_k r s cap k = None -> match_k r s cap k' = None).
Proof.
  induction r as [|p|p|p|r1 IH1 r2 IH2|r1 IH1]; intros s cap k k' H; simpl.
  - apply H.
  - destruct s as [|c s]; [auto|]. destruct (p c); [apply H | auto].
  - apply star_k_refine. intros y. apply H.
  - destruct s as [|c s]; [auto|]. destruct (p c); [|auto].
    apply star_k_refine. intros y. apply H.
  - apply IH1. intros y c. apply IH2. exact H.
  - apply IH1. intros y c. apply H.
Qed.
End Refine.

(** Cutting the input after the part that a match reads. *)
Lemma star_k_truncate (p : ascii -> bool) (pre post : string)
      (k : string -> option A) :
  (forall y, String.length y < String.length post -> k y = None) ->
  star_k p (pre ++ post)%string k
    = star_k p pre (fun x => k (x ++ post)%string).
Proof.
  intros H. induction pre as [|c pre IH]; simpl.
  - destruct post as [|c post]; simpl; [reflexivity|].
    destruct (p c); [|reflexivity].
    rewrite star_k_fail; [reflexivity|].
    intros rest Hr. apply H. simpl. lia.
  - rewrite IH. reflexivity.
Qed.

Lemma match_k_truncate (r : regex) :
  forall (pre post : string) (cap : option string)
         (k : string -> option string -> option A),
    (forall y c, String.length y < String.length post -> k y c = None) ->
    match_k r (pre ++ post)%string cap k
      = match_k r pre cap (fun x c => k (x ++ post)%string c).
Proof.
  induction r as [|p|p|p|r1 IH1 r2 IH2|r1 IH1]; intros pre post cap k H; simpl.
  - reflexivity.
  - destruct pre as [|c pre]; simpl; [|reflexivity].
    destruct post as [|c post]; [reflexivity|].
    destruct (p c); [|reflexivity]. apply H. simpl. lia.
  - apply star_k_truncate. intros y. apply H.
  - destruct pre as [|c pre]; simpl.
    + destruct post as [|c post]; [reflexivity|].
      destruct (p c); [|reflexivity].
      apply star_k_fail. intros rest Hr. apply H. simpl. lia.
    + destruct (p c); [|reflexivity].
      apply star_k_truncate. intros y. apply H.
  - rewrite IH1.
    + apply match_k_ext. intros y c. apply IH2. exact H.
    + intros y c Hy. apply match_k_fail. intros rest c' Hr. apply H. lia.
  - rewrite IH1.
    + apply match_k_ext. intros y c. f_equal. f_equal.
      rewrite !length_app.
      replace (String.length pre + String.length post
               - (String.length y + String.length post))
        with (String.length pre - String.length y) by lia.
      apply take_app_le. lia.
    + intros y c Hy. apply H. exact Hy.
Qed.
End MatcherFacts.

Lemma star_k_map (A B : Type) (g : A -> B) (p : ascii -> bool) (s : string)
      (k : string -> option A) :
  star_k p s (fun y => option_map g (k y)) = option_map g (star_k p s k).
Proof.
  induction s as [|c s IH]; simpl; [reflexivity|].
  destruct (p c); [|reflexivity].
  rewrite IH. destruct (star_k p s k); reflexivity.
Qed.

Lemma match_k_map (A B : Type) (g : A -> B) (r : regex) :
  forall (s : string) (cap : option string)
         (k : string -> option string -> option A),
    match_k r s cap (fun y c => option_map g (k y c))
      = option_map g (match_k r s cap k).
Proof.
  induction r as [|p|p|p|r1 IH1 r2 IH2|r1 IH1]; intros s cap k; simpl.
  - reflexivity.
  - destruct s as [|c s]; [reflexivity|]. destruct (p c); reflexivity.
  - apply (star_k_map g p s (fun rest => k rest cap)).
  - destruct s as [|c s]; [reflexivity|]. destruct (p c); [|reflexivity].
    apply (star_k_map g p s (fun rest => k rest cap)).
  - rewrite <- IH1. apply match_k_ext. intros y c. apply IH2.
  - rewrite <- IH1. reflexivity.
Qed.

Lemma exec_at_suffix (r : regex) (s rest : string) (cap : option string) :
  exec_at r s = Some (rest, cap) ->
  exists pre, s = (pre ++ rest)%string /\ (has_group r = true -> cap <> None).
Proof.
  unfold exec_at. intros H. apply match_k_inv in H.
  destruct H as (pre & rest' & cap' & -> & E & Hc). inversion E; subst.
  exists pre. auto.
Qed.

Lemma exec_at_truncate (r : regex) (pre post : string) (cap : option string) :
  exec_at r (pre ++ post)%string = Some (post, cap) ->
  exec_at r pre = Some ("", cap).
Proof.
  unfold exec_at. intros H.
  set (k1 := fun (y : string) (c : option string) =>
               if (String.length y <? String.length post)%nat
               then None else Some (y, c)).
  assert (H1 : match_k r (pre ++ post)%string None k1 = Some (post, cap)).
  { refine (proj1 (@match_k_refine _ (post, cap) r _ _
                     (fun y c => Some (y, c)) k1 _) H).
    intros y c. split; [|discriminate].
    intros E. inversion E; subst. unfold k1.
    now rewrite Nat.ltb_irrefl. }
  rewrite match_k_truncate in H1.
  2:{ intros y c Hy. unfold k1. apply Nat.ltb_lt in Hy. now rewrite Hy. }
  rewrite (match_k_ext r pre None _
             (fun y c => option_map (fun yc => ((fst yc ++ post)%string, snd yc))
                                    (Some (y, c)))) in H1.
  2:{ intros y c. unfold k1. simpl.
      replace (String.length (y ++ post)%string <? String.length post)%nat
        with false; [reflexivity|].
      symmetry. apply Nat.ltb_ge. rewrite length_app. lia. }
  rewrite match_k_map in H1.
  destruct (match_k r pre None (fun y c => Some (y, c))) as [[y c]|];
    [|discriminate].
  simpl in H1. inversion H1 as [[E1 E2]]. subst c.
  assert (Hy : String.length y = 0).
  { apply (f_equal String.length) in E1. rewrite length_app in E1. lia. }
  destruct y; [reflexivity | discriminate].
Qed.

Lemma exec_unfold (r : regex) (s : string) :
  exec r s =
    match exec_at r s with
    | Some (rest, cap) =>
        Some (take (String.length s - String.length rest) s, cap)
    | None =>
        match s with
        | EmptyString => None
        | String _ s' => exec r s'
        end
    end.
Proof. destruct s; reflexivity. Qed.

Lemma match_all_from_inv (r : regex) (s : string) :
  forall (skip : nat) (m : string),
    In m (match_all_from r s skip) ->
    exists s' rest cap,
      exec_at r s' = Some (rest, cap) /\
      m = take (String.length s' - String.length rest) s'.
Proof.
  induction s as [|c s IH]; intros skip m H.
  - destruct skip; simpl in H; [|destruct H].
    destruct (exec_at r "") as [[rest cap]|] eqn:E; [|destruct H].
    destruct H as [<- | []]. exists "", rest, cap. auto.
  - destruct skip as [|n]; simpl in H; [|eapply IH; exact H].
    destruct (exec_at r (String c s)) as [[rest cap]|] eqn:E.
    + destruct H as [<- | H]; [|eapply IH; exact H].
      exists (String c s), rest, cap. auto.
    + eapply IH; exact H.
Qed.

(** Every match of a global search matches on its own, as a whole and
    with a capture. *)
Lemma match_all_group1 (r : regex) (content m : string) :
  has_group r = true ->
  In m (match_all r content) ->
  exists g, exec r m = Some (m, Some g).
Proof.
  intros Hg H. apply match_all_from_inv in H.
  destruct H as (s' & rest & cap & E & ->).
  destruct (exec_at_suffix _ _ E) as (pre & -> & Hc).
  rewrite take_app_exact.
  apply exec_at_truncate in E.
  destruct cap as [g|]; [|exfalso; apply (Hc Hg); reflexivity].
  exists g. rewrite exec_unfold, E. simpl.
  rewrite Nat.sub_0_r, take_all. reflexivity.
Qed.

(** ** Reference extraction as a sequence of recorded references *)

Lemma safe_uniform (A : Type) (m : M A) : safe m -> uniform m.
Proof. intros (evs & a & H). exists evs, (Normal a). exact H. Qed.

Lemma safe_ret (A : Type) (a : A) : safe (ret a).
Proof. exists [], a. intros st. reflexivity. Qed.

Lemma uniform_throw (A : Type) (e : exn) : uniform (@throw A e).
Proof. exists [], (Throw e). intros st. reflexivity. Qed.

Lemma safe_addReference (p file : string) (t : RefType) :
  safe (addReference p file t).
Proof. exists [(p, file, t)], tt. intros st. reflexivity. Qed.

Lemma uniform_bind (A B : Type) (m : M A) (f : A -> M B) :
  uniform m -> (forall a, uniform (f a)) -> uniform (bind m f).
Proof.
  intros (e1 & o1 & H1) Hf. destruct o1 as [a|e].
  - destruct (Hf a) as (e2 & o2 & H2). exists (e1 ++ e2), o2.
    intros st. unfold bind. rewrite H1, H2. unfold run_events.
    now rewrite fold_left_app.
  - exists e1, (Throw e). intros st. unfold bind. now rewrite H1.
Qed.

Lemma safe_bind (A B : Type) (m : M A) (f : A -> M B) :
  safe m -> (forall a, safe (f a)) -> safe (bind m f).
Proof.
  intros (e1 & a & H1) Hf. destruct (Hf a) as (e2 & b & H2).
  exists (e1 ++ e2), b. intros st. unfold bind. rewrite H1, H2.
  unfold run_events. now rewrite fold_left_app.
Qed.

Lemma uniform_try_catch (A : Type) (m : M A) (h : exn -> M A) :
  uniform m -> (forall e, uniform (h e)) -> uniform (try_catch m h).
Proof.
  intros (e1 & o1 & H1) Hh. destruct o1 as [a|e].
  - exists e1, (Normal a). intros st. unfold try_catch. now rewrite H1.
  - destruct (Hh e) as (e2 & o2 & H2). exists (e1 ++ e2), o2.
    intros st. unfold try_catch. rewrite H1, H2. unfold run_events.
    now rewrite fold_left_app.
Qed.

(** A [try] whose handler returns normally returns normally. *)
Lemma safe_try_catch (A : Type) (m : M A) (h : exn -> M A) :
  uniform m -> (forall e, safe (h e)) -> safe (try_catch m h).
Proof.
  intros (e1 & o1 & H1) Hh. destruct o1 as [a|e].
  - exists e1, a. intros st. unfold try_catch. now rewrite H1.
  - destruct (Hh e) as (e2 & b & H2). exists (e1 ++ e2), b.
    intros st. unfold try_catch. rewrite H1, H2. unfold run_events.
    now rewrite fold_left_app.
Qed.

Lemma uniform_forEach (A : Type) (l : list A) (body : A -> M unit) :
  (forall x, In x l -> uniform (body x)) -> uniform (forEach l body).
Proof.
  induction l as [|x l IH]; intros H; simpl.
  - apply safe_uniform, safe_ret.
  - apply uniform_bind; [apply H; left; reflexivity|].
    intros _. apply IH. intros y Hy. apply H. right. exact Hy.
Qed.

Lemma safe_forEach (A : Type) (l : list A) (body : A -> M unit) :
  (forall x, In x l -> safe (body x)) -> safe (forEach l body).
Proof.
  induction l as [|x l IH]; intros H; simpl.
  - apply safe_ret.
  - apply safe_bind; [apply H; left; reflexivity|].
    intros _. apply IH. intros y Hy. apply H. right. exact Hy.
Qed.

Lemma findInObject_JArr (items : list json) (key : string)
      (callback : json -> M unit) :
  findInObject (JArr items) key callback =
    forEach items (fun item => findInObject item key callback).
Proof.
  simpl. induction items as [|x l IH]; [reflexivity|].
  simpl. rewrite IH. reflexivity.
Qed.

Lemma findInObject_JObj (entries : list (string * json)) (key : string)
      (callback : json -> M unit) :
  findInObject (JObj entries) key callback =
    forEach entries (fun kv =>
      if fst kv =? key then callback (snd kv)
      else findInObject (snd kv) key callback).
Proof.
  simpl. induction entries as [|[k v] l IH]; [reflexivity|].
  simpl. rewrite IH. reflexivity.
Qed.

Lemma uniform_findInObject (key : string) (callback : json -> M unit) :
  (forall v, uniform (callback v)) ->
  forall obj, uniform (findInObject obj key callback).
Proof.
  intros Hc obj.
  induction obj as [| | | |items IH|entries IH] using json_induction;
    try (apply safe_uniform, safe_ret).
  - rewrite findInObject_JArr. apply uniform_forEach.
    rewrite Forall_forall in IH. exact IH.
  - rewrite findInObject_JObj. apply uniform_forEach.
    rewrite Forall_forall in IH. intros kv Hkv.
    destruct (fst kv =? key); [apply Hc | apply IH, Hkv].
Qed.

Lemma safe_findInObject (key : string) (callback : json -> M unit) :
  (forall v, safe (callback v)) ->
  forall obj, safe (findInObject obj key callback).
Proof.
  intros Hc obj.
  induction obj as [| | | |items IH|entries IH] using json_induction;
    try apply safe_ret.
  - rewrite findInObject_JArr. apply safe_forEach.
    rewrite Forall_forall in IH. exact IH.
  - rewrite findInObject_JObj. apply safe_forEach.
    rewrite Forall_forall in IH. intros kv Hkv.
    destruct (fst kv =? key); [apply Hc | apply IH, Hkv].
Qed.

Lemma safe_scanForApiUrlPatterns (str file : string) :
  safe (scanForApiUrlPatterns str file).
Proof.
  unfold scanForApiUrlPatterns. apply safe_bind.
  - apply safe_forEach. intros m _. apply safe_addReference.
  - intros _. apply safe_forEach. intros m _.
    destruct (exec api_re m) as [[apiMatch cap]|];
      [apply safe_addReference | apply safe_ret].
Qed.

Lemma safe_group1 (r : regex) (content m : string) :
  has_group r = true -> In m (match_all r content) -> safe (group1 r m).
Proof.
  intros Hg Hm. destruct (match_all_group1 r content m Hg Hm) as (g & E).
  unfold group1. rewrite E. apply safe_ret.
Qed.

Lemma uniform_group1 (r : regex) (m : string) : uniform (group1 r m).
Proof.
  unfold group1. destruct (exec r m) as [[w [g|]]|];
    first [apply safe_uniform, safe_ret | apply uniform_throw].
Qed.

Lemma safe_if_string (value : json) (f : string -> M unit) :
  (forall s, safe (f s)) -> safe (if_string value f).
Proof. intros H. destruct value; simpl; first [apply H | apply safe_ret]. Qed.

Lemma safe_scanHtmlFiles (fs : FileSystem) : safe (scanHtmlFiles fs).
Proof.
  unfold scanHtmlFiles. apply safe_forEach. intros file _.
  apply safe_bind; [|intros _; apply safe_bind; [|intros _; apply safe_bind;
                                                   [|intros _]]].
  - apply safe_forEach. intros m Hm. apply safe_bind.
    + eapply safe_group1; [reflexivity | exact Hm].
    + intros url. apply safe_addReference.
  - apply safe_forEach. intros m Hm. apply safe_bind.
    + eapply safe_group1; [reflexivity | exact Hm].
    + intros url. apply safe_addReference.
  - apply safe_forEach. intros m Hm. apply safe_bind.
    + eapply safe_group1; [reflexivity | exact Hm].
    + intros url. destruct (includes url "/api/");
        [apply safe_scanForApiUrlPatterns | apply safe_ret].
  - apply safe_scanForApiUrlPatterns.
Qed.

Lemma safe_scanJavaScriptFiles (fs : FileSystem) :
  safe (scanJavaScriptFiles fs).
Proof.
  unfold scanJavaScriptFiles. apply safe_forEach. intros file _.
  apply safe_bind; [|intros _].
  - apply safe_forEach. intros m Hm. apply safe_bind.
    + eapply safe_group1; [reflexivity | exact Hm].
    + intros url. destruct (startsWith url "/api/");
        [apply safe_addReference | apply safe_ret].
  - apply safe_forEach. intros m Hm. apply safe_bind.
    + eapply safe_group1; [reflexivity | exact Hm].
    + intros url. destruct (startsWith url "/api/");
        [apply safe_addReference | apply safe_ret].
Qed.

Lemma uniform_readJsonM (fs : FileSystem) (file : string) :
  uniform (readJsonM fs file).
Proof.
  unfold readJsonM. destruct (readJson fs file);
    [apply safe_uniform, safe_ret | apply uniform_throw].
Qed.

(** The body of the loop of [scanJsonFiles] below its [try]. *)
Lemma uniform_scanJson_body (fs : FileSystem) (file : string) :
  uniform
    (content <- readJsonM fs file ;;
     findInObject content "api_file" (fun value =>
       addReference_value value file QueueApiFile) ;;
     findInObject content "exec" (fun value =>
       if_string value (fun s => addReference s file ExecString)) ;;
     findInObject content "module" (fun value =>
       if_string value (fun s => addReference s file ExecModule)) ;;
     findInObject content "value" (fun value =>
       if_string value (fun s => scanForApiUrlPatterns s file)) ;;
     findInObject content "url" (fun value =>
       if_string value (fun s => scanForApiUrlPatterns s file)) ;;
     findInObject content "link" (fun value =>
       if_string value (fun s => scanForApiUrlPatterns s file))).
Proof.
  apply uniform_bind; [apply uniform_readJsonM | intros content].
  apply uniform_bind; [|intros _].
  { apply uniform_findInObject. intros v. destruct v; simpl;
      first [apply safe_uniform, safe_addReference | apply uniform_throw]. }
  assert (Hs : forall key (f : string -> M unit),
             (forall s, safe (f s)) ->
             uniform (findInObject content key (fun value => if_string value f))).
  { intros key f Hf. apply safe_uniform, safe_findInObject. intros v.
    apply safe_if_string, Hf. }
  apply uniform_bind; [apply Hs; intros s; apply safe_addReference | intros _].
  apply uniform_bind; [apply Hs; intros s; apply safe_addReference | intros _].
  apply uniform_bind;
    [apply Hs; intros s; apply safe_scanForApiUrlPatterns | intros _].
  apply uniform_bind;
    [apply Hs; intros s; apply safe_scanForApiUrlPatterns | intros _].
  apply Hs; intros s; apply safe_scanForApiUrlPatterns.
Qed.

Lemma safe_scanJsonFiles (fs : FileSystem) : safe (scanJsonFiles fs).
Proof.
  unfold scanJsonFiles. apply safe_forEach. intros file _.
  apply safe_try_catch; [apply uniform_scanJson_body|].
  intros e. apply safe_ret.
Qed.

(** [findReferences] never throws, and the references it records are
    the same whatever the scanner holds. *)
Lemma safe_findReferences (fs : FileSystem) : safe (findReferences fs).
Proof.
  unfold findReferences.
  apply safe_bind; [apply safe_scanHtmlFiles | intros _].
  apply safe_bind; [apply safe_scanJsonFiles | intros _].
  apply safe_scanJavaScriptFiles.
Qed.

(** ** Building a map by successive [set]s *)

Section JsMapExt.
Variable V : Type.

Lemma assoc_not_key (m : list (string * V)) (k : string) :
  ~ In k (map_keys m) -> assoc k m = None.
Proof.
  intros H. pose proof (map_has_In m k) as E. unfold map_has in E.
  destruct (assoc k m); [|reflexivity].
  exfalso. apply H, E. reflexivity.
Qed.

(** Two maps with the same keys in the same order and the same value
    under every key are equal. *)
Lemma map_ext (m m' : list (string * V)) :
  NoDup (map_keys m) -> map_keys m = map_keys m' ->
  (forall k, assoc k m = assoc k m') -> m = m'.
Proof.
  revert m'. induction m as [|[k v] m IH]; intros m' Hnd Hk Ha.
  - destruct m'; [reflexivity | discriminate].
  - destruct m' as [|[k' v'] m']; [discriminate|].
    simpl in Hk. inversion Hk; subst k'.
    inversion Hnd as [|? ? Hnk Hnd']; subst.
    pose proof (Ha k) as Hv. simpl in Hv. rewrite String.eqb_refl in Hv.
    inversion Hv; subst v'. f_equal. apply IH; [exact Hnd' | assumption |].
    intros k0. destruct (String.eqb_spec k k0) as [<- | Hne].
    + rewrite !assoc_not_key; [reflexivity | | exact Hnk].
      unfold map_keys in *. rewrite <- H1. exact Hnk.
    + specialize (Ha k0). simpl in Ha.
      apply String.eqb_neq in Hne. rewrite Hne in Ha. exact Ha.
Qed.

Lemma map_set_NoDup (m : list (string * V)) (k : string) (v : V) :
  NoDup (map_keys m) -> NoDup (map_keys (map_set m k v)).
Proof.
  intros H. rewrite map_keys_set. destruct (map_has m k) eqn:E; [exact H|].
  apply NoDup_app; [exact H | repeat constructor; intros [] |].
  intros x Hx [<- | []]. apply map_has_In in Hx. congruence.
Qed.

Variable X : Type.
Variable op : X -> option (string * V).

Lemma assoc_apply_op (m : list (string * V)) (x : X) (k : string) :
  assoc k (apply_op op m x) = lookup_step op k (assoc k m) x.
Proof.
  unfold apply_op, lookup_step. destruct (op x) as [[k' v]|]; [|reflexivity].
  destruct (String.eqb_spec k' k) as [-> | Hne].
  - apply map_get_set_same.
  - apply map_get_set_other. congruence.
Qed.

Lemma assoc_fold_apply (l : list X) (m : list (string * V)) (k : string) :
  assoc k (fold_left (apply_op op) l m)
    = fold_left (lookup_step op k) l (assoc k m).
Proof.
  revert m. induction l as [|x l IH]; intros m; simpl; [reflexivity|].
  rewrite IH, assoc_apply_op. reflexivity.
Qed.

Lemma keys_apply_op_incl (m : list (string * V)) (x : X) (k : string) :
  In k (map_keys m) -> In k (map_keys (apply_op op m x)).
Proof.
  unfold apply_op. destruct (op x) as [[k' v]|]; [|auto].
  rewrite map_keys_set. destruct (map_has m k'); [auto|].
  intros H. apply in_app_iff. auto.
Qed.

Lemma keys_fold_apply_incl (l : list X) (m : list (string * V)) (k : string) :
  In k (map_keys m) -> In k (map_keys (fold_left (apply_op op) l m)).
Proof.
  revert m. induction l as [|x l IH]; intros m H; simpl; [exact H|].
  apply IH, keys_apply_op_incl, H.
Qed.

(** A key that some turn sets is a key of the result. *)
Lemma keys_fold_apply_set (l : list X) (m : list (string * V))
      (x : X) (k : string) (v : V) :
  In x l -> op x = Some (k, v) -> In k (map_keys (fold_left (apply_op op) l m)).
Proof.
  revert m. induction l as [|y l IH]; intros m Hin Hop; [destruct Hin|].
  simpl. destruct Hin as [-> | Hin]; [|apply IH; assumption].
  apply keys_fold_apply_incl. unfold apply_op. rewrite Hop.
  rewrite map_keys_set. destruct (map_has m k) eqn:E.
  - apply map_has_In, E.
  - apply in_app_iff. right. left. reflexivity.
Qed.

(** A key of the result was there before or is set by some turn. *)
Lemma keys_fold_apply_origin (l : list X) (m : list (string * V)) (k : string) :
  In k (map_keys (fold_left (apply_op op) l m)) ->
  In k (map_keys m) \/ exists x v, In x l /\ op x = Some (k, v).
Proof.
  revert m. induction l as [|y l IH]; intros m H; simpl in H; [auto|].
  apply IH in H. destruct H as [H | (x & v & Hx & Hop)].
  - unfold apply_op in H. destruct (op y) as [[k' v]|] eqn:E; [|auto].
    rewrite map_keys_set in H. destruct (map_has m k'); [auto|].
    apply in_app_iff in H. destruct H as [H | [<- | []]]; [auto|].
    right. exists y, v. split; [left; reflexivity | exact E].
  - right. exists x, v. split; [right; exact Hx | exact Hop].
Qed.

Lemma keys_fold_apply_same (l : list X) (m : list (string * V)) :
  (forall x k v, In x l -> op x = Some (k, v) -> In k (map_keys m)) ->
  map_keys (fold_left (apply_op op) l m) = map_keys m.
Proof.
  revert m. induction l as [|y l IH]; intros m H; simpl; [reflexivity|].
  assert (E : map_keys (apply_op op m y) = map_keys m).
  { unfold apply_op. destruct (op y) as [[k v]|] eqn:Ey; [|reflexivity].
    rewrite map_keys_set.
    replace (map_has m k) with true; [reflexivity|].
    symmetry. apply map_has_In. eapply H; [left; reflexivity | exact Ey]. }
  rewrite IH, E; [reflexivity|].
  intros x k v Hx Hop. rewrite E. eapply H; [right; exact Hx | exact Hop].
Qed.

Lemma fold_apply_NoDup (l : list X) (m : list (string * V)) :
  NoDup (map_keys m) -> NoDup (map_keys (fold_left (apply_op op) l m)).
Proof.
  revert m. induction l as [|y l IH]; intros m H; simpl; [exact H|].
  apply IH. unfold apply_op. destruct (op y) as [[k v]|]; [|exact H].
  apply map_set_NoDup, H.
Qed.

(** The value found under a key after the turns either does not depend on
    what was there before, or no turn sets the key. *)
Lemma lookup_fold_cases (k : string) (l : list X) (acc acc' : option V) :
  fold_left (lookup_step op k) l acc = fold_left (lookup_step op k) l acc' \/
  (fold_left (lookup_step op k) l acc = acc /\
   forall x v, In x l -> op x <> Some (k, v)).
Proof.
  revert acc acc'. induction l as [|y l IH]; intros acc acc'; simpl.
  - right. split; [reflexivity | intros x v []].
  - destruct (op y) as [[k' v]|] eqn:E.
    + destruct (String.eqb_spec k' k) as [-> | Hne].
      * left. unfold lookup_step at 2 4. rewrite E, String.eqb_refl.
        reflexivity.
      * assert (Hs : forall a, lookup_step op k a y = a).
        { intros a. unfold lookup_step. rewrite E.
          apply String.eqb_neq in Hne. now rewrite Hne. }
        rewrite !Hs.
        destruct (IH acc acc') as [H | [H1 H2]]; [left; exact H|].
        right. split; [exact H1|]. intros x v0 [<- | Hx]; [congruence | auto].
    + assert (Hs : forall a, lookup_step op k a y = a).
      { intros a. unfold lookup_step. now rewrite E. }
      rewrite !Hs.
      destruct (IH acc acc') as [H | [H1 H2]]; [left; exact H|].
      right. split; [exact H1|]. intros x v0 [<- | Hx]; [congruence | auto].
Qed.

(** Running the turns again on their own result, whatever the values now
    stored under its keys, rebuilds the result. *)
Lemma fold_apply_again (l : list X) (m2 : list (string * V)) :
  map_keys m2 = map_keys (fold_left (apply_op op) l []) ->
  fold_left (apply_op op) l m2 = fold_left (apply_op op) l [].
Proof.
  intros Hk. apply map_ext.
  - rewrite keys_fold_apply_same.
    + rewrite Hk. apply fold_apply_NoDup. constructor.
    + intros x k v Hx Hop. rewrite Hk. eapply keys_fold_apply_set; eauto.
  - rewrite keys_fold_apply_same; [exact Hk|].
    intros x k v Hx Hop. rewrite Hk. eapply keys_fold_apply_set; eauto.
  - intros k. rewrite !assoc_fold_apply.
    change (assoc k (@nil (string * V))) with (@None V).
    destruct (lookup_fold_cases k l (assoc k m2) None) as [H | [H1 H2]];
      [exact H|].
    etransitivity; [exact H1|].
    destruct (lookup_fold_cases k l None (assoc k m2)) as [H | [H3 _]];
      [etransitivity; [symmetry; exact H1 | symmetry; exact H]|].
    etransitivity; [|symmetry; exact H3].
    apply assoc_not_key. rewrite Hk. intros Hin.
    apply keys_fold_apply_origin in Hin.
    destruct Hin as [[] | (x & v & Hx & Hop)]. exact (H2 x v Hx Hop).
Qed.

(** A turn that sets nothing can be left out. *)
Lemma fold_apply_filter (l : list X) (keep : X -> bool)
      (m : list (string * V)) :
  (forall x, In x l -> keep x = false -> op x = None) ->
  fold_left (apply_op op) (filter keep l) m = fold_left (apply_op op) l m.
Proof.
  revert m. induction l as [|y l IH]; intros m H; simpl; [reflexivity|].
  destruct (keep y) eqn:E; simpl.
  - apply IH. intros x Hx. apply H. right. exact Hx.
  - assert (Ey : apply_op op m y = m).
    { unfold apply_op. now rewrite (H y (or_introl eq_refl) E). }
    rewrite Ey. apply IH. intros x Hx. apply H. right. exact Hx.
Qed.
End JsMapExt.

(** ** Discovery *)

Lemma discover_turn_eq (fs : FileSystem) (file : string) (st : Scanner) :
  discover_turn fs file st = (discover_file fs st file, Normal tt).
Proof.
  destruct st as [root acts refs out].
  unfold discover_turn, discover_file, declared, parse_warning, apply_op,
    bind, get, try_catch, readJsonM, member, modify, ret, throw.
  cbn [projectRoot serverActions references console].
  destruct (readJson fs file) as [content|]; [|reflexivity].
  destruct content as [| b | n | s | items | entries];
    cbn; rewrite ?app_nil_r; try reflexivity.
  destruct (truthy_opt (assoc "exec" entries)); cbn;
    [rewrite ?app_nil_r; reflexivity|].
  destruct (truthy_opt (assoc "steps" entries)); cbn;
    rewrite ?app_nil_r; reflexivity.
Qed.

Lemma forEach_fold (A : Type) (l : list A) (body : A -> M unit)
      (g : Scanner -> A -> Scanner) :
  (forall x st, body x st = (g st x, Normal tt)) ->
  forall st, forEach l body st = (fold_left g l st, Normal tt).
Proof.
  intros H. induction l as [|x l IH]; intros st; simpl; [reflexivity|].
  unfold bind. rewrite H. apply IH.
Qed.

(** Discovery always returns normally. *)
Lemma discoverServerActions_eq (fs : FileSystem) (st : Scanner) :
  discoverServerActions fs st =
    (fold_left (discover_file fs) (glob_actions fs) st, Normal tt).
Proof.
  unfold discoverServerActions. apply forEach_fold.
  intros x st'. apply discover_turn_eq.
Qed.

Lemma discover_fold_fields (fs : FileSystem) (l : list string) (st : Scanner) :
  let st' := fold_left (discover_file fs) l st in
  projectRoot st' = projectRoot st /\
  serverActions st' =
    fold_left (apply_op (declared (projectRoot st) fs)) l (serverActions st) /\
  references st' = references st /\
  forall w, In w (console st) -> In w (console st').
Proof.
  revert st. induction l as [|x l IH]; intros st; simpl; [auto|].
  destruct (IH (discover_file fs st x)) as (H1 & H2 & H3 & H4).
  simpl in *. repeat split; try assumption.
  intros w Hw. apply H4, in_app_iff. auto.
Qed.

Lemma discover_fold_warns (fs : FileSystem) (l : list string) (st : Scanner)
      (file : string) :
  In file l -> readJson fs file = None ->
  In ("Warning: Could not parse " ++ path_relative (projectRoot st) file)%string
     (console (fold_left (discover_file fs) l st)).
Proof.
  revert st. induction l as [|x l IH]; intros st Hin Hr; [destruct Hin|].
  simpl. destruct Hin as [-> | Hin].
  - apply discover_fold_fields. simpl. apply in_app_iff. right.
    unfold parse_warning. rewrite Hr. left. reflexivity.
  - specialize (IH (discover_file fs st x) Hin Hr). exact IH.
Qed.

(** ** Recording references *)

Lemma record_fields (st : Scanner) (ev : event) :
  projectRoot (record st ev) = projectRoot st /\
  map_keys (serverActions (record st ev)) = map_keys (serverActions st) /\
  console (record st ev) = console st.
Proof.
  destruct ev as [[p f] t]. simpl. repeat split.
  destruct (map_has (serverActions st) (normalizePath p)); [|reflexivity].
  apply map_keys_update.
Qed.

Lemma run_events_fields (evs : list event) (st : Scanner) :
  projectRoot (run_events evs st) = projectRoot st /\
  map_keys (serverActions (run_events evs st)) = map_keys (serverActions st) /\
  console (run_events evs st) = console st.
Proof.
  unfold run_events. revert st.
  induction evs as [|ev evs IH]; intros st; simpl; [auto|].
  destruct (IH (record st ev)) as (H1 & H2 & H3).
  destruct (record_fields st ev) as (E1 & E2 & E3).
  repeat split; congruence.
Qed.

(** The index after the recording depends on the project root and on the
    index before it only. *)
Lemma run_events_index (evs : list event) (st st' : Scanner) :
  projectRoot st = projectRoot st' ->
  serverActions st = serverActions st' ->
  serverActions (run_events evs st) = serverActions (run_events evs st').
Proof.
  unfold run_events. revert st st'.
  induction evs as [|ev evs IH]; intros st st' Hr Ha; simpl; [exact Ha|].
  apply IH.
  - destruct (record_fields st ev) as (E1 & _).
    destruct (record_fields st' ev) as (E2 & _).
    congruence.
  - destruct ev as [[p f] t]. simpl. rewrite Hr, Ha. reflexivity.
Qed.

Lemma map_update_Forall (V : Type) (Q : V -> Prop) (m : list (string * V))
      (k : string) (f : V -> V) :
  (forall v, Q v -> Q (f v)) ->
  Forall (fun kv => Q (snd kv)) m ->
  Forall (fun kv => Q (snd kv)) (map_update m k f).
Proof.
  intros Hf. induction m as [|[k' v] m IH]; intros H; simpl; [constructor|].
  inversion H; subst. destruct (k' =? k); constructor; simpl in *; auto.
Qed.

Lemma map_set_Forall (V : Type) (Q : V -> Prop) (m : list (string * V))
      (k : string) (v : V) :
  Q v -> Forall (fun kv => Q (snd kv)) m ->
  Forall (fun kv => Q (snd kv)) (map_set m k v).
Proof.
  intros Hv. induction m as [|[k' v'] m IH]; intros H; simpl.
  - constructor; [exact Hv | constructor].
  - inversion H; subst. destruct (k' =? k); constructor; simpl in *; auto.
Qed.

Lemma run_events_filePath (evs : list event) (st : Scanner) (file : string) :
  Forall (fun kv => Act.filePath (snd kv) <> file) (serverActions st) ->
  Forall (fun kv => Act.filePath (snd kv) <> file)
         (serverActions (run_events evs st)).
Proof.
  unfold run_events. revert st.
  induction evs as [|ev evs IH]; intros st H; simpl; [exact H|].
  apply IH. destruct ev as [[p f] t]. simpl.
  destruct (map_has (serverActions st) (normalizePath p)); [|exact H].
  apply (map_update_Forall (fun a => Act.filePath a <> file)); [|exact H].
  intros a Ha. exact Ha.
Qed.

Lemma fold_declared_filePath (root : string) (fs : FileSystem)
      (l : list string) (m : list (string * Action)) (file : string) :
  readJson fs file = None ->
  Forall (fun kv => Act.filePath (snd kv) <> file) m ->
  Forall (fun kv => Act.filePath (snd kv) <> file)
         (fold_left (apply_op (declared root fs)) l m).
Proof.
  intros Hr. revert m. induction l as [|x l IH]; intros m H; simpl; [exact H|].
  apply IH. unfold apply_op, declared.
  destruct (readJson fs x) as [content|] eqn:E; [|exact H].
  destruct (declares_action content); [|exact H].
  apply (map_set_Forall (fun a => Act.filePath a <> file)); [|exact H].
  simpl. intros ->. congruence.
Qed.

(** ** The scan as a whole *)

Lemma result_of_index (fs : FileSystem) (st st' : Scanner) :
  projectRoot st = projectRoot st' ->
  serverActions st = serverActions st' ->
  result_of fs st = result_of fs st'.
Proof.
  intros Hr Ha. unfold result_of, analyzeResults. rewrite Hr, Ha. reflexivity.
Qed.

Lemma scan_eq (fs : FileSystem) (evs : list event) (st : Scanner) :
  writes (findReferences fs) evs (Normal tt) ->
  let st2 :=
    run_events evs (fold_left (discover_file fs) (glob_actions fs) st) in
  scan fs st = (st2, Normal (result_of fs st2)).
Proof.
  intros Hw. unfold scan, bind. rewrite discoverServerActions_eq, Hw.
  reflexivity.
Qed.

(** The scan always returns a result. *)
Lemma scan_returns (fs : FileSystem) (st : Scanner) :
  exists r, snd (scan fs st) = Normal r.
Proof.
  destruct (safe_findReferences fs) as (evs & [] & Hw).
  rewrite (scan_eq st Hw). eexists. reflexivity.
Qed.

(** C1.  In every result of [analyzeResults], and so in the result of
    every scan, each entry is classified by the length of its reference
    list alone: no reference gives confidence safe-to-delete and status
    unused, one or more give review-needed and used; and every declared
    action has an entry carrying its reference list. *)
Theorem classification_by_reference_count (fs : FileSystem) (st : Scanner) :
  let classified (e : Res.Entry) :=
    Res.referenceCount e = List.length (Res.references e) /\
    Res.confidence e =
      (if (List.length (Res.references e) =? 0)%nat
       then SafeToDelete else ReviewNeeded) /\
    Res.status e =
      (if (List.length (Res.references e) =? 0)%nat
       then Unused else Used) in
  Forall classified (Res.actions (analyzeResults st)) /\
  Forall (fun kv =>
            Exists (fun e => Res.urlPath e = fst kv /\
                             Res.references e = Act.references (snd kv))
                   (Res.actions (analyzeResults st)))
         (serverActions st) /\
  exists r : Results,
    snd (scan fs st) = Normal r /\ Forall classified (Res.actions r).
Proof.
  cbv zeta.
  assert (H : forall st', Forall (fun e =>
              Res.referenceCount e = List.length (Res.references e) /\
              Res.confidence e =
                (if (List.length (Res.references e) =? 0)%nat
                 then SafeToDelete else ReviewNeeded) /\
              Res.status e =
                (if (List.length (Res.references e) =? 0)%nat
                 then Unused else Used))
            (Res.actions (analyzeResults st'))).
  { intros st'. rewrite analyzeResults_actions, Forall_forall. intros e He.
    apply js_sort_In, in_map_iff in He. destruct He as (kv & <- & _).
    simpl. auto. }
  split; [apply H|]. split.
  - rewrite analyzeResults_actions, Forall_forall. intros kv Hkv.
    rewrite Exists_exists. exists (entry_of kv). split.
    + apply js_sort_In, in_map. exact Hkv.
    + simpl. auto.
  - destruct (safe_findReferences fs) as (evs & [] & Hw).
    rewrite (scan_eq st Hw). eexists. split; [reflexivity|]. apply H.
Qed.

(** C9.  In every scan result the total is the sum of the used and the
    likely-unused counts, and the possibly-unused count is zero. *)
Theorem summary_counts_invariant (fs : FileSystem) (st : Scanner) :
  (let s := Res.summary (analyzeResults st) in
   Res.totalActions s = Res.used s + Res.likelyUnused s /\
   Res.possiblyUnused s = 0) /\
  exists r : Results,
    snd (scan fs st) = Normal r /\
    Res.totalActions (Res.summary r) =
      Res.used (Res.summary r) + Res.likelyUnused (Res.summary r) /\
    Res.possiblyUnused (Res.summary r) = 0.
Proof.
  split; [apply analyzeResults_summary|].
  destruct (safe_findReferences fs) as (evs & [] & Hw).
  rewrite (scan_eq st Hw). eexists. split; [reflexivity|].
  apply analyzeResults_summary.
Qed.

(** C5.  Scanning again, with the same scanner object or a new one, the
    files being the same, returns the same result: the same summary, the
    same actions in the same order, each with the same reference list. *)
Theorem scan_twice_same_result (fs : FileSystem) (root : string) :
  let first := scan fs (new_Scanner root) in
  let again := scan fs (fst first) in
  let anew := scan fs (new_Scanner root) in
  exists r : Results,
    snd first = Normal r /\ snd again = Normal r /\ snd anew = Normal r.
Proof.
  destruct (safe_findReferences fs) as (evs & [] & Hw).
  cbv zeta. rewrite !(scan_eq _ Hw). cbn [fst snd].
  eexists. split; [reflexivity|]. split; [|reflexivity].
  f_equal.
  set (st1 := fold_left (discover_file fs) (glob_actions fs)
                        (new_Scanner root)).
  set (st2 := run_events evs st1).
  set (st3 := fold_left (discover_file fs) (glob_actions fs) st2).
  destruct (discover_fold_fields fs (glob_actions fs) (new_Scanner root))
    as (R1 & A1 & _).
  destruct (discover_fold_fields fs (glob_actions fs) st2) as (R3 & A3 & _).
  destruct (run_events_fields evs st1) as (R2 & K2 & _).
  fold st1 in R1, A1. fold st2 in R2, K2. fold st3 in R3, A3.
  cbn [projectRoot serverActions new_Scanner] in R1, A1.
  assert (E3 : serverActions st3 = serverActions st1).
  { rewrite A3, A1, R2, R1. apply fold_apply_again.
    rewrite K2, A1. reflexivity. }
  apply result_of_index.
  - destruct (run_events_fields evs st3) as (R4 & _). congruence.
  - apply run_events_index; [congruence | exact E3].
Qed.

Lemma forEach_filter (A : Type) (l : list A) (keep : A -> bool)
      (body : A -> M unit) :
  (forall x, keep x = false -> forall st, body x st = (st, Normal tt)) ->
  forall st, forEach (filter keep l) body st = forEach l body st.
Proof.
  intros H. induction l as [|x l IH]; intros st; simpl; [reflexivity|].
  destruct (keep x) eqn:E; simpl.
  - unfold bind. destruct (body x st) as [st' [[]|e]]; [apply IH | reflexivity].
  - unfold bind. rewrite (H x E). apply IH.
Qed.

(** A file that does not parse adds nothing to the references. *)
Lemma findReferences_without (fs : FileSystem) (file : string) (st : Scanner) :
  readJson fs file = None ->
  findReferences (without file fs) st = findReferences fs st.
Proof.
  intros Hr. unfold findReferences, bind.
  change (scanHtmlFiles (without file fs)) with (scanHtmlFiles fs).
  change (scanJavaScriptFiles (without file fs)) with (scanJavaScriptFiles fs).
  destruct (scanHtmlFiles fs st) as [st1 [[]|e]]; [|reflexivity].
  assert (E : scanJsonFiles (without file fs) st1 = scanJsonFiles fs st1).
  { unfold scanJsonFiles. cbn [glob_json without].
    apply (forEach_filter (glob_json fs) (fun g => negb (g =? file))).
    intros x Hx st'. apply negb_false_iff, String.eqb_eq in Hx. subst x.
    unfold try_catch, bind, readJsonM. cbn [readJson]. rewrite Hr.
    reflexivity. }
  rewrite E. reflexivity.
Qed.

Lemma In_map_keys (V : Type) (m : list (string * V)) (k : string) :
  In k (map_keys m) -> exists v, In (k, v) m.
Proof.
  unfold map_keys. intros H. apply in_map_iff in H.
  destruct H as ([k' v] & <- & H). exists v. exact H.
Qed.

(** C8.  A file of the action and library trees that does not parse makes
    discovery print a warning and leave the file out of the index;
    discovery and the scan return normally, with the very result of the
    project without the file, in which every file that parses to a
    declaration with [exec] or [steps] has its entry. *)
Theorem parse_failure_is_not_fatal (fs : FileSystem) (root file : string) :
  In file (glob_actions fs) ->
  readJson fs file = None ->
  let st0 := new_Scanner root in
  let st1 := fst (discoverServerActions fs st0) in
  (snd (discoverServerActions fs st0) = Normal tt /\
   In ("Warning: Could not parse " ++ path_relative root file)%string
      (console st1) /\
   Forall (fun kv => Act.filePath (snd kv) <> file) (serverActions st1) /\
   Forall (fun kv => Act.filePath (snd kv) <> file)
          (serverActions (fst (scan fs st0)))) /\
  exists r : Results,
    snd (scan fs st0) = Normal r /\
    snd (scan (without file fs) st0) = Normal r /\
    forall g content,
      In g (glob_actions fs) ->
      readJson fs g = Some content ->
      declares_action content = true ->
      Exists (fun e => Res.urlPath e = filePathToUrl (path_relative root g))
             (Res.actions r).
Proof.
  intros Hin Hr st0 st1.
  destruct (safe_findReferences fs) as (evs & [] & Hw).
  assert (Hw' : writes (findReferences (without file fs)) evs (Normal tt)).
  { intros st. rewrite findReferences_without by exact Hr. apply Hw. }
  pose proof (discoverServerActions_eq fs st0) as Hd.
  destruct (discover_fold_fields fs (glob_actions fs) st0) as (R1 & A1 & _).
  assert (E1 : st1 = fold_left (discover_file fs) (glob_actions fs) st0).
  { unfold st1. rewrite Hd. reflexivity. }
  rewrite <- E1 in R1, A1.
  cbn [projectRoot serverActions st0 new_Scanner] in R1, A1.
  assert (F1 : Forall (fun kv => Act.filePath (snd kv) <> file)
                      (serverActions st1)).
  { rewrite A1. apply fold_declared_filePath; [exact Hr | constructor]. }
  split.
  - split; [rewrite Hd; reflexivity|].
    split; [rewrite E1; apply (@discover_fold_warns fs _ st0 file Hin Hr)|].
    split; [exact F1|].
    rewrite (scan_eq st0 Hw). cbn [fst]. rewrite <- E1.
    apply run_events_filePath, F1.
  - rewrite (scan_eq st0 Hw), (scan_eq st0 Hw'). cbn [snd]. rewrite <- E1.
    set (st1' := fold_left (discover_file (without file fs))
                           (glob_actions (without file fs)) st0).
    destruct (discover_fold_fields (without file fs)
                (glob_actions (without file fs)) st0) as (R1' & A1' & _).
    fold st1' in R1', A1'.
    cbn [projectRoot serverActions st0 new_Scanner] in R1', A1'.
    assert (EA : serverActions st1' = serverActions st1).
    { rewrite A1', A1. cbn [glob_actions without].
      change (declared root (without file fs)) with (declared root fs).
      apply fold_apply_filter. intros x _ Hx.
      apply negb_false_iff, String.eqb_eq in Hx. subst x.
      unfold declared. rewrite Hr. reflexivity. }
    exists (result_of fs (run_events evs st1)).
    split; [reflexivity|]. split.
    + f_equal.
      change (result_of (without file fs)) with (result_of fs).
      apply result_of_index.
      * destruct (run_events_fields evs st1') as (H1 & _).
        destruct (run_events_fields evs st1) as (H2 & _). congruence.
      * apply run_events_index; [congruence | exact EA].
    + intros g content Hg Hc Hd'.
      set (key := filePathToUrl (path_relative root g)).
      assert (Hk : In key (map_keys (serverActions (run_events evs st1)))).
      { destruct (run_events_fields evs st1) as (_ & K & _). rewrite K, A1.
        eapply keys_fold_apply_set; [exact Hg|].
        unfold declared. rewrite Hc, Hd'. reflexivity. }
      apply In_map_keys in Hk. destruct Hk as (a & Ha).
      unfold result_of. cbn [Res.actions]. rewrite analyzeResults_actions.
      apply Exists_exists. exists (entry_of (key, a)). split; [|reflexivity].
      apply js_sort_In, in_map, Ha.
Qed.

(** ** A sample project *)

(** The scan of the sample project: the unparsable file is reported and
    left out, the unreferenced action comes first; the form attribute is
    found by the attribute pattern and by both patterns of the scan of the
    whole content. *)
Lemma sample_project_scan :
  let out := scan sample_project (new_Scanner "/srv/app") in
  console (fst out) = ["Warning: Could not parse app/api/broken.json"] /\
  exists r,
    snd out = Normal r /\
    Res.summary r = Res.mkSummary 2 1 0 1 /\
    map (fun e => (Res.urlPath e, Res.confidence e, Res.referenceCount e))
        (Res.actions r)
      = [("/api/v1/idle", SafeToDelete, 0); ("/api/v1/run", ReviewNeeded, 3)] /\
    map Res.relativePath (Res.emptyFolders r)
      = ["app/api/old/a"; "app/api/old"].
Proof.
  cbv zeta. split; [vm_compute; reflexivity|].
  eexists. split; [vm_compute; reflexivity|].
  split; [reflexivity|]. split; reflexivity.
Qed.

Lemma parse_failure_is_not_fatal_witness :
  In "/srv/app/app/api/broken.json" (glob_actions sample_project) /\
  readJson sample_project "/srv/app/app/api/broken.json" = None /\
  exists r : Results,
    snd (scan sample_project (new_Scanner "/srv/app")) = Normal r /\
    snd (scan (without "/srv/app/app/api/broken.json" sample_project)
              (new_Scanner "/srv/app")) = Normal r.
Proof.
  assert (H1 : In "/srv/app/app/api/broken.json" (glob_actions sample_project))
    by (left; reflexivity).
  assert (H2 : readJson sample_project "/srv/app/app/api/broken.json" = None)
    by reflexivity.
  split; [exact H1|]. split; [exact H2|].
  destruct (@parse_failure_is_not_fatal sample_project "/srv/app"
              "/srv/app/app/api/broken.json" H1 H2) as (_ & r & Hr & Hw & _).
  exists r. split; [exact Hr | exact Hw].
Defined.

(** Asked to delete [old] and its two entries, with the removal of
    [old/a] refused: the refusal is recorded and the two other paths are
    still attempted, the entries before [old]. *)
Lemma deleteEmptyFolders_deepest_first_verified_collecting_witness :
  let paths := ["/srv/app/api/old"; "/srv/app/api/old/a";
                "/srv/app/api/old/b"] in
  let final := deleteEmptyFolders (remove_unless ["/srv/app/api/old/a"])
                                  sample_tree paths in
  sortedPaths paths = ["/srv/app/api/old/a"; "/srv/app/api/old/b";
                       "/srv/app/api/old"] /\
  deleted (snd final) = ["/srv/app/api/old/b"; "/srv/app/api/old"] /\
  In (mkDeleteError "/srv/app/api/old/a" "EACCES: permission denied")
     (errors (snd final)).
Proof.
  cbv zeta. split; [reflexivity|]. split; [reflexivity|].
  destruct (deleteEmptyFolders_deepest_first_verified_collecting
              (remove_unless ["/srv/app/api/old/a"]) sample_tree
              ["/srv/app/api/old"; "/srv/app/api/old/a"; "/srv/app/api/old/b"])
    as (_ & _ & H & _).
  apply (H [] "/srv/app/api/old/a"
           ["/srv/app/api/old/b"; "/srv/app/api/old"]
           "EACCES: permission denied"); reflexivity.
Defined.

(** ** The order and the counts of [analyzeResults] *)

Section TierSort.
Let tier_cmp (a b : Res.Entry) : Z :=
  (confidenceOrder (Res.confidence a) - confidenceOrder (Res.confidence b))%Z.

Lemma insert_sorted_safe (x : Res.Entry) (l : list Res.Entry) :
  is_safe x = true -> insert_sorted tier_cmp x l = x :: l.
Proof.
  intros Hx. destruct l as [|y l]; [reflexivity|]. simpl.
  unfold tier_cmp, is_safe in *.
  destruct (Res.confidence x); [|discriminate].
  destruct (Res.confidence y); reflexivity.
Qed.

Lemma insert_sorted_review (x : Res.Entry) (safe review : list Res.Entry) :
  is_safe x = false ->
  Forall (fun e => is_safe e = true) safe ->
  Forall (fun e => is_safe e = false) review ->
  insert_sorted tier_cmp x (safe ++ review) = safe ++ x :: review.
Proof.
  intros Hx Hs Hr. induction Hs as [|y safe Hy Hs IH]; simpl.
  - destruct review as [|y review]; [reflexivity|]. simpl.
    inversion Hr as [|? ? Hy _]; subst.
    unfold tier_cmp, is_safe in *.
    destruct (Res.confidence x); [discriminate|].
    destruct (Res.confidence y); [discriminate | reflexivity].
  - rewrite IH. unfold tier_cmp, is_safe in *.
    destruct (Res.confidence x); [discriminate|].
    destruct (Res.confidence y); [reflexivity | discriminate].
Qed.

(** The sort of [analyzeResults] is the stable partition into the two
    tiers. *)
Lemma tier_sort_partition (l : list Res.Entry) :
  js_sort tier_cmp l
    = filter is_safe l ++ filter (fun e => negb (is_safe e)) l.
Proof.
  induction l as [|x l IH]; [reflexivity|].
  simpl. rewrite IH. destruct (is_safe x) eqn:Hx; simpl.
  - apply insert_sorted_safe, Hx.
  - apply insert_sorted_review; [exact Hx | |].
    + rewrite Forall_forall. intros e He. apply filter_In in He. tauto.
    + rewrite Forall_forall. intros e He. apply filter_In in He.
      apply negb_true_iff. tauto.
Qed.
End TierSort.

Lemma analyzeResults_partition (st : Scanner) :
  Res.actions (analyzeResults st)
    = filter is_safe (map entry_of (serverActions st))
      ++ filter (fun e => negb (is_safe e)) (map entry_of (serverActions st)).
Proof. rewrite analyzeResults_actions. apply tier_sort_partition. Qed.

(** X1.  The actions of a result are the safe-to-delete entries followed
    by the review-needed entries, each tier in the order in which
    discovery indexed the actions. *)
Theorem analyzeResults_safe_first_in_discovery_order (st : Scanner) :
  let entries := map entry_of (serverActions st) in
  Res.actions (analyzeResults st)
    = filter is_safe entries ++ filter (fun e => negb (is_safe e)) entries /\
  map Res.urlPath entries = map_keys (serverActions st) /\
  map Res.references entries = map (fun kv => Act.references (snd kv))
                                   (serverActions st).
Proof.
  cbv zeta. split; [apply analyzeResults_partition|].
  rewrite !map_map. split; reflexivity.
Qed.

Lemma filter_twice (A : Type) (p : A -> bool) (l : list A) :
  filter p (filter p l) = filter p l.
Proof.
  induction l as [|x l IH]; [reflexivity|]. simpl.
  destruct (p x) eqn:E; simpl; [rewrite E, IH|]; auto.
Qed.

Lemma filter_opposite (A : Type) (p : A -> bool) (l : list A) :
  filter p (filter (fun x => negb (p x)) l) = [] /\
  filter (fun x => negb (p x)) (filter p l) = [].
Proof.
  induction l as [|x l [IH1 IH2]]; [auto|]. simpl.
  destruct (p x) eqn:E; simpl; rewrite ?E; simpl; auto.
Qed.

Lemma analyze_step_counts (l : list (string * Action))
      (s : Res.Summary) (acc : list Res.Entry) :
  let s' := fst (fold_left analyze_step l (s, acc)) in
  Res.totalActions s' = Res.totalActions s /\
  Res.likelyUnused s' =
    Res.likelyUnused s + List.length (filter is_safe (map entry_of l)) /\
  Res.used s' =
    Res.used s
    + List.length (filter (fun e => negb (is_safe e)) (map entry_of l)).
Proof.
  revert s acc. induction l as [|[k a] l IH]; intros s acc; simpl.
  - repeat split; lia.
  - assert (Hs : is_safe (entry_of (k, a))
                 = (List.length (Act.references a) =? 0)%nat).
    { unfold is_safe, entry_of. simpl.
      destruct (List.length (Act.references a) =? 0)%nat; reflexivity. }
    rewrite Hs.
    destruct (List.length (Act.references a) =? 0)%nat;
      match goal with
      | |- context [fold_left analyze_step l (?s1, ?a1)] =>
          destruct (IH s1 a1) as (H1 & H2 & H3)
      end; cbn [negb List.length Res.totalActions Res.likelyUnused Res.used]
             in *;
      repeat split; try assumption; lia.
Qed.

(** X2.  The counts of the summary are the sizes of the array and of its
    two tiers. *)
Theorem summary_counts_match_actions (st : Scanner) :
  let r := analyzeResults st in
  Res.totalActions (Res.summary r) = List.length (Res.actions r) /\
  Res.likelyUnused (Res.summary r)
    = List.length (filter is_safe (Res.actions r)) /\
  Res.used (Res.summary r)
    = List.length (filter (fun e => negb (is_safe e)) (Res.actions r)).
Proof.
  cbv zeta. rewrite analyzeResults_partition.
  set (E := map entry_of (serverActions st)).
  rewrite !filter_app, !filter_twice.
  destruct (filter_opposite is_safe E) as [H1 H2]. rewrite H1, H2.
  rewrite app_nil_r. simpl.
  assert (HE : List.length (filter is_safe E)
               + List.length (filter (fun e => negb (is_safe e)) E)
               = List.length (serverActions st)).
  { unfold E. rewrite <- (length_map entry_of (serverActions st)).
    generalize (map entry_of (serverActions st)). intros l.
    induction l as [|x l IH]; [reflexivity|]. simpl.
    destruct (is_safe x); simpl; lia. }
  unfold analyzeResults.
  pose proof (analyze_step_counts (serverActions st)
    (Res.mkSummary (List.length (serverActions st)) 0 0 0) []) as H.
  destruct (fold_left analyze_step _ _) as [s acts]; simpl in *.
  destruct H as (T & L & U). fold E in L, U.
  rewrite List.length_app. repeat split; lia.
Qed.

(** ** Invariants of the index and of the reference lists *)

Lemma map_set_Forall_pair (V : Type) (Q : string * V -> Prop)
      (m : list (string * V)) (k : string) (v : V) :
  Q (k, v) -> Forall Q m -> Forall Q (map_set m k v).
Proof.
  intros Hv. induction m as [|[k' v'] m IH]; intros H; simpl.
  - constructor; [exact Hv | constructor].
  - inversion H; subst. destruct (k' =? k); constructor; auto.
Qed.

Lemma map_update_Forall_pair (V : Type) (Q : string * V -> Prop)
      (m : list (string * V)) (k : string) (f : V -> V) :
  (forall k' v, Q (k', v) -> Q (k', f v)) ->
  Forall Q m -> Forall Q (map_update m k f).
Proof.
  intros Hf. induction m as [|[k' v] m IH]; intros H; simpl; [constructor|].
  inversion H; subst. destruct (k' =? k); constructor; auto.
Qed.

Lemma map_get_In (V : Type) (m : list (string * V)) (k : string) (v : V) :
  map_get m k = Some v -> In (k, v) m.
Proof.
  unfold map_get. induction m as [|[k' v'] m IH]; simpl; [discriminate|].
  destruct (String.eqb_spec k' k) as [-> | Hne].
  - intros E. inversion E. left. reflexivity.
  - intros E. right. apply IH, E.
Qed.

Lemma In_map_get (V : Type) (m : list (string * V)) (k : string) (v : V) :
  NoDup (map_keys m) -> In (k, v) m -> map_get m k = Some v.
Proof.
  unfold map_get, map_keys.
  induction m as [|[k' v'] m IH]; simpl; intros Hnd Hin; [destruct Hin|].
  inversion Hnd as [|? ? Hk Hnd']; subst.
  destruct Hin as [E | Hin].
  - inversion E; subst. now rewrite String.eqb_refl.
  - destruct (String.eqb_spec k' k) as [-> | Hne]; [|apply IH; assumption].
    exfalso. apply Hk. apply in_map_iff. exists (k, v). auto.
Qed.

Lemma fold_declared_indexed (root : string) (fs : FileSystem)
      (l : list string) (m : list (string * Action)) :
  incl l (glob_actions fs) ->
  Forall (fun kv => indexed root fs kv /\ Act.references (snd kv) = []) m ->
  Forall (fun kv => indexed root fs kv /\ Act.references (snd kv) = [])
         (fold_left (apply_op (declared root fs)) l m).
Proof.
  revert m. induction l as [|x l IH]; intros m Hl H; simpl; [exact H|].
  apply IH; [intros y Hy; apply Hl; right; exact Hy|].
  unfold apply_op, declared.
  destruct (readJson fs x) as [content|] eqn:E; [|exact H].
  destruct (declares_action content) eqn:D; [|exact H].
  apply map_set_Forall_pair; [|exact H].
  unfold indexed. simpl. repeat split; try assumption.
  apply Hl. left. reflexivity.
Qed.

Lemma run_events_indexed (root : string) (fs : FileSystem)
      (evs : list event) (st : Scanner) :
  Forall (indexed root fs) (serverActions st) ->
  Forall (indexed root fs) (serverActions (run_events evs st)).
Proof.
  unfold run_events. revert st.
  induction evs as [|ev evs IH]; intros st H; simpl; [exact H|].
  apply IH. destruct ev as [[p f] t]. simpl.
  destruct (map_has (serverActions st) (normalizePath p)); [|exact H].
  apply map_update_Forall_pair; [|exact H].
  intros k a Ha. exact Ha.
Qed.

(** The scanner a new scanner is left as by a scan. *)
Lemma scan_state (fs : FileSystem) (root : string) :
  exists evs,
    fst (scan fs (new_Scanner root))
      = run_events evs (fold_left (discover_file fs) (glob_actions fs)
                                  (new_Scanner root)) /\
    snd (scan fs (new_Scanner root))
      = Normal (result_of fs (fst (scan fs (new_Scanner root)))).
Proof.
  destruct (safe_findReferences fs) as (evs & [] & Hw).
  exists evs. rewrite (scan_eq (new_Scanner root) Hw). split; reflexivity.
Qed.

Lemma discovered_index (fs : FileSystem) (root : string) :
  let st1 := fold_left (discover_file fs) (glob_actions fs) (new_Scanner root) in
  projectRoot st1 = root /\
  references st1 = [] /\
  NoDup (map_keys (serverActions st1)) /\
  Forall (fun kv => indexed root fs kv /\ Act.references (snd kv) = [])
         (serverActions st1).
Proof.
  destruct (discover_fold_fields fs (glob_actions fs) (new_Scanner root))
    as (R & A & F & _).
  cbv zeta. cbn [projectRoot serverActions references new_Scanner] in R, A, F.
  rewrite A. repeat split; try assumption.
  - apply fold_apply_NoDup. constructor.
  - apply fold_declared_indexed; [apply incl_refl | constructor].
Qed.

(** X3.  After a scan by a new scanner the keys of the index are
    pairwise distinct, and every entry is the declaration of a candidate
    file: its key is its URL path, computed from the path of the file
    relative to the project, and the file parsed to its content, which
    has [exec] or [steps]. *)
Theorem index_entries_are_declared_files (fs : FileSystem) (root : string) :
  let st := fst (scan fs (new_Scanner root)) in
  NoDup (map_keys (serverActions st)) /\
  Forall (indexed root fs) (serverActions st).
Proof.
  cbv zeta. destruct (scan_state fs root) as (evs & -> & _).
  destruct (discovered_index fs root) as (_ & _ & Hnd & Hi).
  destruct (run_events_fields evs
              (fold_left (discover_file fs) (glob_actions fs)
                         (new_Scanner root))) as (_ & K & _).
  split; [rewrite K; exact Hnd|].
  apply run_events_indexed.
  eapply Forall_impl; [|exact Hi]. intros kv [H _]. exact H.
Qed.

(** What the lookup and the index hold after one more recorded
    reference. *)
Lemma lookup_or_nil_record (st : Scanner) (p file : string) (t : RefType)
      (k : string) :
  lookup_or_nil (references (record st (p, file, t))) k =
    if k =? normalizePath p
    then lookup_or_nil (references st) k
         ++ [mkReference (path_relative (projectRoot st) file) t p]
    else lookup_or_nil (references st) k.
Proof.
  unfold lookup_or_nil. simpl.
  destruct (String.eqb_spec k (normalizePath p)) as [-> | Hne].
  - rewrite map_get_update_same. unfold map_has.
    fold (map_get (references st) (normalizePath p)).
    destruct (map_get (references st) (normalizePath p)) as [l|] eqn:E; simpl.
    + rewrite E. reflexivity.
    + rewrite map_get_set_same. reflexivity.
  - rewrite map_get_update_other by exact Hne.
    destruct (negb (map_has (references st) (normalizePath p)));
      [rewrite map_get_set_other by exact Hne|]; reflexivity.
Qed.

Lemma index_record (st : Scanner) (p file : string) (t : RefType)
      (k : string) :
  map_get (serverActions (record st (p, file, t))) k =
    if k =? normalizePath p
    then option_map
           (push_reference
              (mkReference (path_relative (projectRoot st) file) t p))
           (map_get (serverActions st) k)
    else map_get (serverActions st) k.
Proof.
  simpl. unfold map_has.
  fold (map_get (serverActions st) (normalizePath p)).
  destruct (String.eqb_spec k (normalizePath p)) as [-> | Hne].
  - destruct (map_get (serverActions st) (normalizePath p)) as [a|] eqn:E.
    + rewrite map_get_update_same, E. reflexivity.
    + rewrite E. reflexivity.
  - destruct (map_get (serverActions st) (normalizePath p));
      [apply map_get_update_other, Hne | reflexivity].
Qed.

Lemma run_events_attached (evs : list event) (st : Scanner) :
  (forall k a, map_get (serverActions st) k = Some a ->
               Act.references a = lookup_or_nil (references st) k) ->
  (forall k, Forall (resolves_to k) (lookup_or_nil (references st) k)) ->
  let st' := run_events evs st in
  (forall k a, map_get (serverActions st') k = Some a ->
               Act.references a = lookup_or_nil (references st') k) /\
  (forall k, Forall (resolves_to k) (lookup_or_nil (references st') k)).
Proof.
  unfold run_events. revert st.
  induction evs as [|ev evs IH]; intros st HJ HK; simpl; [auto|].
  destruct ev as [[p f] t]. apply IH.
  - intros k a. rewrite index_record, lookup_or_nil_record.
    destruct (k =? normalizePath p).
    + destruct (map_get (serverActions st) k) as [a0|] eqn:E; [|discriminate].
      simpl. intros Ha. inversion Ha; subst a. simpl.
      rewrite (HJ k a0 E). reflexivity.
    + apply HJ.
  - intros k. rewrite lookup_or_nil_record.
    destruct (String.eqb_spec k (normalizePath p)) as [-> | Hne]; [|apply HK].
    apply Forall_app. split; [apply HK|].
    constructor; [reflexivity | constructor].
Qed.

(** X4.  After a scan by a new scanner the reference list of every
    action is the list the lookup holds under the key of the action, and
    every reference of the lookup, hence of an action, is stored under the
    key its original string normalizes to. *)
Theorem references_attached_to_matching_action
        (fs : FileSystem) (root : string) :
  let st := fst (scan fs (new_Scanner root)) in
  Forall (fun kv =>
            Act.references (snd kv) = lookup_or_nil (references st) (fst kv) /\
            Forall (resolves_to (fst kv)) (Act.references (snd kv)))
         (serverActions st) /\
  forall k, Forall (resolves_to k) (lookup_or_nil (references st) k).
Proof.
  cbv zeta. destruct (scan_state fs root) as (evs & -> & _).
  destruct (discovered_index fs root) as (_ & HR & Hnd & Hi).
  set (st1 := fold_left (discover_file fs) (glob_actions fs)
                        (new_Scanner root)) in *.
  destruct (run_events_fields evs st1) as (_ & K & _).
  destruct (@run_events_attached evs st1) as [HJ HK].
  - intros k a Ha. apply map_get_In in Ha.
    rewrite Forall_forall in Hi. destruct (Hi _ Ha) as [_ E]. simpl in E.
    rewrite E. unfold lookup_or_nil. rewrite HR. reflexivity.
  - intros k. unfold lookup_or_nil. rewrite HR. constructor.
  - split; [|exact HK].
    rewrite Forall_forall. intros [k a] Hin. simpl.
    assert (Ha : map_get (serverActions (run_events evs st1)) k = Some a).
    { rewrite <- K in Hnd. apply In_map_get; [exact Hnd | exact Hin]. }
    rewrite (HJ k a Ha). split; [reflexivity | apply HK].
Qed.

(** ** The namespace of the references of the generic scan *)

Section Emits.
Variable P : event -> Prop.

Lemma emits_ret (A : Type) (a : A) : emits P (ret a).
Proof. exists [], (Normal a). split; [intros st; reflexivity | constructor]. Qed.

Lemma emits_throw (A : Type) (e : exn) : emits P (@throw A e).
Proof. exists [], (Throw e). split; [intros st; reflexivity | constructor]. Qed.

Lemma emits_addReference (p file : string) (t : RefType) :
  P (p, file, t) -> emits P (addReference p file t).
Proof.
  intros H. exists [(p, file, t)], (Normal tt).
  split; [intros st; reflexivity | constructor; [exact H | constructor]].
Qed.

Lemma emits_bind (A B : Type) (m : M A) (f : A -> M B) :
  emits P m -> (forall a, emits P (f a)) -> emits P (bind m f).
Proof.
  intros (e1 & o1 & H1 & F1) Hf. destruct o1 as [a|e].
  - destruct (Hf a) as (e2 & o2 & H2 & F2). exists (e1 ++ e2), o2. split.
    + intros st. unfold bind. rewrite H1, H2. unfold run_events.
      now rewrite fold_left_app.
    + apply Forall_app. auto.
  - exists e1, (Throw e). split; [|exact F1].
    intros st. unfold bind. now rewrite H1.
Qed.

Lemma emits_try_catch (A : Type) (m : M A) (h : exn -> M A) :
  emits P m -> (forall e, emits P (h e)) -> emits P (try_catch m h).
Proof.
  intros (e1 & o1 & H1 & F1) Hh. destruct o1 as [a|e].
  - exists e1, (Normal a). split; [|exact F1].
    intros st. unfold try_catch. now rewrite H1.
  - destruct (Hh e) as (e2 & o2 & H2 & F2). exists (e1 ++ e2), o2. split.
    + intros st. unfold try_catch. rewrite H1, H2. unfold run_events.
      now rewrite fold_left_app.
    + apply Forall_app. auto.
Qed.

Lemma emits_forEach (A : Type) (l : list A) (body : A -> M unit) :
  (forall x, In x l -> emits P (body x)) -> emits P (forEach l body).
Proof.
  induction l as [|x l IH]; intros H; simpl.
  - apply emits_ret.
  - apply emits_bind; [apply H; left; reflexivity|].
    intros _. apply IH. intros y Hy. apply H. right. exact Hy.
Qed.

Lemma emits_findInObject (key : string) (callback : json -> M unit) :
  (forall v, emits P (callback v)) ->
  forall obj, emits P (findInObject obj key callback).
Proof.
  intros Hc obj.
  induction obj as [| | | |items IH|entries IH] using json_induction;
    try apply emits_ret.
  - rewrite findInObject_JArr. apply emits_forEach.
    rewrite Forall_forall in IH. exact IH.
  - rewrite findInObject_JObj. apply emits_forEach.
    rewrite Forall_forall in IH. intros kv Hkv.
    destruct (fst kv =? key); [apply Hc | apply IH, Hkv].
Qed.

Lemma emits_if_string (value : json) (f : string -> M unit) :
  (forall s, emits P (f s)) -> emits P (if_string value f).
Proof. intros H. destruct value; simpl; first [apply H | apply emits_ret]. Qed.

Lemma emits_group1 (r : regex) (m : string) : emits P (group1 r m).
Proof.
  unfold group1. destruct (exec r m) as [[w [g|]]|];
    first [apply emits_ret | apply emits_throw].
Qed.
End Emits.

(** A literal is matched against the start of the input. *)
Lemma lit_match (A : Type) (l : string) :
  forall (s : string) (cap : option string)
         (k : string -> option string -> option A) (a : A),
    match_k (lit l) s cap k = Some a ->
    exists s2, s = (l ++ s2)%string /\ k s2 cap = Some a.
Proof.
  induction l as [|c l IH]; intros s cap k a H; simpl in H.
  - exists s. auto.
  - destruct s as [|c' s]; [discriminate|].
    destruct (Ascii.eqb_spec c c') as [<- | Hne]; [|discriminate].
    apply IH in H. destruct H as (s2 & -> & Hk). exists s2. auto.
Qed.

Lemma api_re_match (s rest : string) (cap : option string) :
  exec_at api_re s = Some (rest, cap) ->
  exists x, take (String.length s - String.length rest) s
            = ("/api/" ++ x)%string.
Proof.
  unfold exec_at, api_re. intros H.
  change (match_k (lit "/api/") s None
            (fun rest0 cap' =>
               match_k (Plus api_char) rest0 cap'
                       (fun rest1 cap1 => Some (rest1, cap1)))
          = Some (rest, cap)) in H.
  apply lit_match in H. destruct H as (s2 & -> & H).
  apply match_k_inv in H. destruct H as (pre & rest' & cap' & -> & E & _).
  inversion E; subst. exists pre.
  rewrite <- string_app_assoc. apply take_app_exact.
Qed.

Lemma exec_inv (r : regex) (s w : string) (cap : option string) :
  exec r s = Some (w, cap) ->
  exists s' rest,
    exec_at r s' = Some (rest, cap) /\
    w = take (String.length s' - String.length rest) s'.
Proof.
  induction s as [|c s IH]; rewrite exec_unfold.
  - destruct (exec_at r "") as [[rest cap']|] eqn:E; [|discriminate].
    intros H. inversion H; subst. exists "", rest. auto.
  - destruct (exec_at r (String c s)) as [[rest cap']|] eqn:E; [|exact IH].
    intros H. inversion H; subst. exists (String c s), rest. auto.
Qed.

Lemma includes_char_cons (d a : ascii) (s : string) :
  includes (String a s) (String d "") =
    if Ascii.eqb d a then true else includes s (String d "").
Proof.
  simpl. destruct (ascii_dec d a) as [-> | Hne].
  - rewrite Ascii.eqb_refl. destruct s; reflexivity.
  - apply Ascii.eqb_neq in Hne. rewrite Hne. reflexivity.
Qed.

Lemma includes_split_head_same (s : string) (c : ascii) :
  includes (split_head s c) (String c "") = false.
Proof.
  induction s as [|a s IH]; [reflexivity|]. simpl split_head.
  destruct (Ascii.eqb a c) eqn:E; [reflexivity|].
  rewrite includes_char_cons, Ascii.eqb_sym, E. exact IH.
Qed.

Lemma includes_split_head_other (s : string) (c d : ascii) :
  includes s (String d "") = false ->
  includes (split_head s c) (String d "") = false.
Proof.
  induction s as [|a s IH]; [reflexivity|].
  rewrite includes_char_cons. simpl split_head.
  destruct (Ascii.eqb d a) eqn:E; [discriminate|]. intros H.
  destruct (Ascii.eqb a c); [reflexivity|].
  rewrite includes_char_cons, E. apply IH, H.
Qed.

(** The cleaned path of a match of pattern 1. *)
Lemma clean_path_api (x : string) (t : RefType) :
  in_api_namespace (clean_path ("/api/" ++ x)%string) t.
Proof.
  split.
  - intros _. unfold startsWith, clean_path. cbn.
    repeat match goal with
           | |- context [ascii_dec ?a ?b] =>
               destruct (ascii_dec a b); [|congruence]
           end.
    now destruct (split_head (split_head x "?") "#").
  - intros _. unfold clean_path. split.
    + apply includes_split_head_other, includes_split_head_same.
    + apply includes_split_head_same.
Qed.

Lemma emits_scanForApiUrlPatterns (str file : string) :
  emits (fun ev => in_api_namespace (fst (fst ev)) (snd ev))
        (scanForApiUrlPatterns str file).
Proof.
  unfold scanForApiUrlPatterns. apply emits_bind; [|intros _].
  - apply emits_forEach. intros m Hm. apply emits_addReference. simpl.
    apply match_all_from_inv in Hm. destruct Hm as (s' & rest & cap & E & ->).
    destruct (api_re_match _ E) as (x & ->). apply clean_path_api.
  - apply emits_forEach. intros m _.
    destruct (exec api_re m) as [[apiMatch cap]|] eqn:E; [|apply emits_ret].
    apply emits_addReference. simpl.
    apply exec_inv in E. destruct E as (s' & rest & E & ->).
    destruct (api_re_match _ E) as (x & ->). apply clean_path_api.
Qed.

Lemma emits_findReferences (fs : FileSystem) :
  emits (fun ev => in_api_namespace (fst (fst ev)) (snd ev))
        (findReferences fs).
Proof.
  assert (Hfree : forall p t, generic_type t = false -> in_api_namespace p t).
  { intros p t Ht. split; [congruence|].
    intros [-> | ->]; discriminate. }
  assert (Hjs : forall p t, startsWith p "/api/" = true ->
                            (t = JsFetch \/ t = JsAjax) ->
                            in_api_namespace p t).
  { intros p t Hp Ht. split; [auto|].
    intros [-> | ->]; destruct Ht; discriminate. }
  unfold findReferences.
  apply emits_bind; [|intros _; apply emits_bind; [|intros _]].
  - unfold scanHtmlFiles. apply emits_forEach. intros file _.
    apply emits_bind; [|intros _; apply emits_bind; [|intros _; apply emits_bind;
                                                      [|intros _]]].
    + apply emits_forEach. intros m _.
      apply emits_bind; [apply emits_group1 | intros url].
      apply emits_addReference, Hfree. reflexivity.
    + apply emits_forEach. intros m _.
      apply emits_bind; [apply emits_group1 | intros url].
      apply emits_addReference, Hfree. reflexivity.
    + apply emits_forEach. intros m _.
      apply emits_bind; [apply emits_group1 | intros url].
      destruct (includes url "/api/");
        [apply emits_scanForApiUrlPatterns | apply emits_ret].
    + apply emits_scanForApiUrlPatterns.
  - unfold scanJsonFiles. apply emits_forEach. intros file _.
    apply emits_try_catch; [|intros e; apply emits_ret].
    apply emits_bind; [|intros content].
    { unfold readJsonM. destruct (readJson fs file);
        [apply emits_ret | apply emits_throw]. }
    apply emits_bind; [|intros _].
    { apply emits_findInObject. intros v. destruct v; simpl;
        first [apply emits_addReference, Hfree; reflexivity
              | apply emits_throw]. }
    assert (Hs : forall key (f : string -> M unit),
               (forall s, emits (fun ev =>
                                   in_api_namespace (fst (fst ev)) (snd ev))
                                (f s)) ->
               emits (fun ev => in_api_namespace (fst (fst ev)) (snd ev))
                     (findInObject content key
                                   (fun value => if_string value f))).
    { intros key f Hf. apply emits_findInObject. intros v.
      apply emits_if_string, Hf. }
    apply emits_bind;
      [apply Hs; intros s; apply emits_addReference, Hfree; reflexivity
      | intros _].
    apply emits_bind;
      [apply Hs; intros s; apply emits_addReference, Hfree; reflexivity
      | intros _].
    apply emits_bind;
      [apply Hs; intros s; apply emits_scanForApiUrlPatterns | intros _].
    apply emits_bind;
      [apply Hs; intros s; apply emits_scanForApiUrlPatterns | intros _].
    apply Hs; intros s; apply emits_scanForApiUrlPatterns.
  - unfold scanJavaScriptFiles. apply emits_forEach. intros file _.
    apply emits_bind; [|intros _].
    + apply emits_forEach. intros m _.
      apply emits_bind; [apply emits_group1 | intros url].
      destruct (startsWith url "/api/") eqn:E; [|apply emits_ret].
      apply emits_addReference, Hjs; auto.
    + apply emits_forEach. intros m _.
      apply emits_bind; [apply emits_group1 | intros url].
      destruct (startsWith url "/api/") eqn:E; [|apply emits_ret].
      apply emits_addReference, Hjs; auto.
Qed.

Lemma run_events_namespace (evs : list event) (st : Scanner) :
  Forall (fun ev => in_api_namespace (fst (fst ev)) (snd ev)) evs ->
  (forall k, Forall (fun r => in_api_namespace (originalReference r) (type r))
                    (lookup_or_nil (references st) k)) ->
  forall k, Forall (fun r => in_api_namespace (originalReference r) (type r))
                   (lookup_or_nil (references (run_events evs st)) k).
Proof.
  unfold run_events. revert st.
  induction evs as [|ev evs IH]; intros st Hev H; simpl; [exact H|].
  inversion Hev as [|? ? Hp Hev']; subst.
  destruct ev as [[p f] t]. apply IH; [exact Hev'|].
  intros k. rewrite lookup_or_nil_record.
  destruct (k =? normalizePath p); [|apply H].
  apply Forall_app. split; [apply H|].
  constructor; [exact Hp | constructor].
Qed.

(** The state and the references of the entries after a scan by a new
    scanner. *)
Lemma scan_entries_in_lookup (fs : FileSystem) (root : string)
      (evs : list event) :
  writes (findReferences fs) evs (Normal tt) ->
  let st1 := fold_left (discover_file fs) (glob_actions fs) (new_Scanner root) in
  let st := run_events evs st1 in
  scan fs (new_Scanner root) = (st, Normal (result_of fs st)) /\
  Forall (fun e => exists k, Res.references e = lookup_or_nil (references st) k)
         (Res.actions (result_of fs st)).
Proof.
  intros Hw st1 st. split; [apply (scan_eq (new_Scanner root) Hw)|].
  destruct (discovered_index fs root) as (_ & HR & Hnd & Hi).
  fold st1 in HR, Hnd, Hi.
  destruct (run_events_fields evs st1) as (_ & K & _). fold st in K.
  destruct (@run_events_attached evs st1) as [HJ _].
  - intros k a Ha. apply map_get_In in Ha.
    rewrite Forall_forall in Hi. destruct (Hi _ Ha) as [_ E]. simpl in E.
    rewrite E. unfold lookup_or_nil. rewrite HR. reflexivity.
  - intros k. unfold lookup_or_nil. rewrite HR. constructor.
  - fold st in HJ. unfold result_of. cbn [Res.actions].
    rewrite analyzeResults_actions, Forall_forall. intros e He.
    apply js_sort_In, in_map_iff in He. destruct He as ([k a] & <- & Hin).
    exists k. simpl. apply HJ. rewrite <- K in Hnd.
    apply In_map_get; [exact Hnd | exact Hin].
Qed.

Lemma writes_outcome (A : Type) (m : M A) (e1 e2 : list event)
      (o1 o2 : outcome A) :
  writes m e1 o1 -> writes m e2 o2 -> o1 = o2.
Proof.
  intros H1 H2. pose proof (H1 (new_Scanner "")) as E1.
  rewrite (H2 (new_Scanner "")) in E1. inversion E1. reflexivity.
Qed.

(** X5.  In the result of a scan by a new scanner, a reference found by
    the generic URL scan or in a script names a path that begins with
    [/api/], and one found by the generic URL scan carries neither a
    query nor a fragment: only the attributes of markup and the fields
    [api_file], [exec] and [module] can name a library action. *)
Theorem generic_references_stay_in_api_namespace
        (fs : FileSystem) (root : string) :
  exists r : Results,
    snd (scan fs (new_Scanner root)) = Normal r /\
    Forall (fun e =>
              Forall (fun ref =>
                        in_api_namespace (originalReference ref) (type ref))
                     (Res.references e))
           (Res.actions r).
Proof.
  destruct (emits_findReferences fs) as (evs & o & Hw & Hev).
  destruct (safe_findReferences fs) as (evs2 & [] & Hw2).
  assert (o = Normal tt) by (eapply writes_outcome; eassumption). subst o.
  destruct (scan_entries_in_lookup root Hw) as [E HL].
  rewrite E. eexists. split; [reflexivity|].
  eapply Forall_impl; [|exact HL]. intros e (k & ->).
  apply run_events_namespace; [exact Hev|].
  intros k0. destruct (discovered_index fs root) as (_ & HR & _).
  unfold lookup_or_nil. rewrite HR. constructor.
Qed.


(** ** Files are never removed *)

Lemma walk_app (cs1 cs2 : list string) :
  forall n,
    walk n (cs1 ++ cs2) =
      match walk n cs1 with Some m => walk m cs2 | None => None end.
Proof.
  induction cs1 as [|c cs IH]; intros n; simpl; [reflexivity|].
  destruct n as [|es]; [reflexivity|].
  destruct (assoc c es); [apply IH | reflexivity].
Qed.

Lemma walk_file_below (cs : list string) :
  forall n, cs <> [] -> walk n cs = Some File -> file_below n.
Proof.
  induction cs as [|c cs IH]; intros n Hne H; [congruence|].
  simpl in H. destruct n as [|es]; [discriminate|].
  destruct (assoc c es) as [child|] eqn:E; [|discriminate].
  apply (@map_get_In node es c child) in E.
  destruct cs as [|c' cs'].
  - simpl in H. inversion H; subst. eapply file_below_here; eauto.
  - eapply file_below_sub; [exact E|]. apply IH; [discriminate | exact H].
Qed.

Lemma assoc_filter_other (V : Type) (c k : string) (es : list (string * V)) :
  (k =? c) = false ->
  assoc k (filter (fun e => negb (fst e =? c)) es) = assoc k es.
Proof.
  intros Hk. assert (Hk' : (c =? k) = false) by now rewrite String.eqb_sym.
  induction es as [|[k' v] es IH]; simpl; [reflexivity|].
  destruct (String.eqb_spec k' c) as [-> | Hne]; simpl.
  - rewrite Hk'. exact IH.
  - destruct (k' =? k); [reflexivity | exact IH].
Qed.

Lemma assoc_filter_same (V : Type) (c : string) (es : list (string * V)) :
  assoc c (filter (fun e => negb (fst e =? c)) es) = None.
Proof.
  induction es as [|[k' v] es IH]; simpl; [reflexivity|].
  destruct (k' =? c) eqn:E; simpl; [exact IH|]. rewrite E. exact IH.
Qed.

Lemma assoc_map_at (c k : string) (f : node -> node)
      (es : list (string * node)) :
  assoc k (map (fun e => if fst e =? c then (fst e, f (snd e)) else e) es) =
    if k =? c then option_map f (assoc k es) else assoc k es.
Proof.
  induction es as [|[k' v] es IH]; simpl.
  - destruct (k =? c); reflexivity.
  - destruct (String.eqb_spec k' c) as [-> | Hne]; simpl.
    + destruct (String.eqb_spec c k) as [<- | Hne].
      * rewrite String.eqb_refl. reflexivity.
      * exact IH.
    + destruct (String.eqb_spec k' k) as [-> | Hne2].
      * destruct (String.eqb_spec k c); [contradiction | reflexivity].
      * exact IH.
Qed.

Lemma prune_nil (t : node) : prune t [] = t.
Proof. destruct t; reflexivity. Qed.

Lemma prune_File (cs : list string) : prune File cs = File.
Proof. destruct cs as [|c [|c' cs]]; reflexivity. Qed.

Lemma prune_last (es : list (string * node)) (c : string) :
  prune (Dir es) [c] = Dir (filter (fun e => negb (fst e =? c)) es).
Proof. reflexivity. Qed.

Lemma prune_inner (es : list (string * node)) (c c' : string)
      (cs : list string) :
  prune (Dir es) (c :: c' :: cs) =
    Dir (map (fun e => if fst e =? c then (fst e, prune (snd e) (c' :: cs))
                       else e) es).
Proof. reflexivity. Qed.

(** Taking the entry at [cs] out of the tree leaves a file where it is,
    unless the file is that entry or lies below it. *)
Lemma walk_prune_file (cs : list string) :
  forall (t : node) (cs' : list string),
    walk t cs' = Some File ->
    (forall rest, cs' <> cs ++ rest) ->
    walk (prune t cs) cs' = Some File.
Proof.
  induction cs as [|c cs IH]; intros t cs' H Hn.
  - now rewrite prune_nil.
  - destruct t as [|es]; [now rewrite prune_File|].
    destruct cs' as [|c' rest']; [simpl in H; discriminate|].
    simpl in H. destruct (assoc c' es) as [child|] eqn:E; [|discriminate].
    destruct cs as [|c2 cs2].
    + rewrite prune_last. cbn [walk].
      rewrite assoc_filter_other; [now rewrite E|].
      destruct (String.eqb_spec c' c) as [-> | Hne]; [|reflexivity].
      exfalso. apply (Hn rest'). reflexivity.
    + rewrite prune_inner. cbn [walk].
      pose proof (assoc_map_at c c' (fun n => prune n (c2 :: cs2)) es) as Em.
      cbv beta in Em. rewrite Em, E.
      destruct (String.eqb_spec c' c) as [-> | Hne]; simpl; [|exact H].
      apply IH; [exact H|]. intros rest Er. apply (Hn rest). simpl.
      now rewrite Er.
Qed.

Lemma prune_keeps_file (t : node) (p : string) (cs : list string) :
  isDirectoryEmpty t p = true ->
  walk t cs = Some File ->
  walk (prune t (path_components p)) cs = Some File.
Proof.
  intros Hc H. apply isDirectoryEmpty_spec in Hc.
  destruct Hc as (items & Hr & Hnf). unfold resolve in Hr.
  apply walk_prune_file; [exact H|]. intros rest ->.
  rewrite walk_app, Hr in H. apply Hnf.
  apply (@walk_file_below rest); [|exact H].
  intros ->. simpl in H. discriminate.
Qed.

Lemma delete_step_keeps_file (denied : list string)
      (st : node * DeleteResults) (p : string) (cs : list string) :
  walk (fst st) cs = Some File ->
  walk (fst (delete_step (remove_unless denied) st p)) cs = Some File.
Proof.
  intros H.
  destruct (delete_step_cases (remove_unless denied) st p)
    as [(_ & E) | [(Hc & _ & E) | (message & Hc & _ & E)]];
    rewrite E; simpl; [exact H| |];
    unfold remove_unless; destruct (existsb (String.eqb p) denied); simpl;
    first [exact H | apply prune_keeps_file; assumption].
Qed.

Lemma delete_fold_keeps_file (denied : list string) (l : list string)
      (cs : list string) :
  forall st : node * DeleteResults,
    walk (fst st) cs = Some File ->
    walk (fst (fold_left (delete_step (remove_unless denied)) l st)) cs
      = Some File.
Proof.
  induction l as [|p l IH]; intros st H; simpl; [exact H|].
  apply IH, delete_step_keeps_file, H.
Qed.

(** X6.  Whatever paths [deleteEmptyFolders] is given, and wherever the
    removal is refused, no regular file is lost: with a removal that takes
    the named entry and all below it out of the tree, a path that
    designated a file before the call designates a file after it. *)
Theorem deleteEmptyFolders_keeps_every_file
        (denied : list string) (t : node) (folderPaths : list string)
        (p : string) :
  resolve t p = Some File ->
  resolve (fst (deleteEmptyFolders (remove_unless denied) t folderPaths)) p
    = Some File.
Proof.
  unfold resolve, deleteEmptyFolders. intros H.
  apply delete_fold_keeps_file. exact H.
Qed.

Lemma deleteEmptyFolders_keeps_every_file_witness :
  resolve
    (fst (deleteEmptyFolders (remove_unless []) sample_tree
            ["/srv/app/api/live"; "/srv/app/api/old"; "/srv/app/api"]))
    "/srv/app/api/live/run.json" = Some File.
Proof.
  apply deleteEmptyFolders_keeps_every_file. reflexivity.
Defined.

(** ** The reported folders as paths of the tree *)

Lemma split_app_sep (a b : string) (c : ascii) :
  split (a ++ String c b)%string c = split a c ++ split b c.
Proof.
  induction a as [|x a IH].
  - simpl. now rewrite Ascii.eqb_refl.
  - change ((String x a ++ String c b)%string)
      with (String x (a ++ String c b)%string).
    simpl. rewrite IH. destruct (Ascii.eqb x c); [reflexivity|].
    pose proof (split_not_nil a c) as Hn.
    destruct (split a c) as [|w ws]; [contradiction | reflexivity].
Qed.

Lemma path_components_join (d k : string) :
  entry_name k ->
  path_components (path_join d k) = path_components d ++ [k].
Proof.
  intros [Hne Hs]. unfold path_components, path_join.
  change (("/" ++ k)%string) with (String "/" k).
  rewrite split_app_sep, filter_app, Hs. simpl.
  destruct (String.eqb_spec k ""); [contradiction | reflexivity].
Qed.

Lemma well_formed_child (es : list (string * node)) (k : string) (c : node) :
  well_formed (Dir es) -> In (k, c) es ->
  entry_name k /\ well_formed c /\ assoc k es = Some c.
Proof.
  intros Hwf Hin. inversion Hwf as [|? Hnd Hall]; subst.
  rewrite Forall_forall in Hall. destruct (Hall _ Hin) as [Hk Hc].
  split; [exact Hk|]. split; [exact Hc|].
  apply (@In_map_get node es k c); assumption.
Qed.

Lemma well_formed_walk (cs : list string) :
  forall t n, well_formed t -> walk t cs = Some n -> well_formed n.
Proof.
  induction cs as [|c cs IH]; intros t n Hwf H; simpl in H.
  - inversion H; subst. exact Hwf.
  - destruct t as [|es]; [discriminate|].
    destruct (assoc c es) as [child|] eqn:E; [|discriminate].
    apply (@map_get_In node es c child) in E.
    destruct (@well_formed_child es c child Hwf E) as (_ & Hc & _).
    exact (IH _ _ Hc H).
Qed.

Lemma dir_at_walk (d : string) (n : node) (p : string) (m : node) :
  dir_at d n p m -> well_formed n ->
  exists ks,
    path_components p = path_components d ++ ks /\ walk n ks = Some m.
Proof.
  induction 1 as [d es | d es k c p m Hin Hat IH]; intros Hwf.
  - exists []. rewrite app_nil_r. auto.
  - destruct (@well_formed_child es k c Hwf Hin) as (Hk & Hc & Ha).
    destruct (IH Hc) as (ks & E1 & E2). exists (k :: ks).
    rewrite E1, (path_components_join d Hk), <- app_assoc.
    split; [reflexivity|]. simpl. rewrite Ha. exact E2.
Qed.

Lemma dir_at_Dir (d : string) (n : node) (p : string) (m : node) :
  dir_at d n p m -> exists items, m = Dir items.
Proof. induction 1 as [d es|]; [exists es; reflexivity | assumption]. Qed.

(** A reported path, in a well-formed tree, designates the directory
    found. *)
Lemma reported_resolves (t : node) (d p : string) :
  well_formed t ->
  In p (findEmptyFoldersAt t d) ->
  exists items, resolve t p = Some (Dir items) /\ ~ file_below (Dir items).
Proof.
  intros Hwf Hp. unfold findEmptyFoldersAt in Hp.
  destruct (resolve t d) as [n|] eqn:En; [|destruct Hp].
  apply findEmptyFoldersInDirectory_spec in Hp. destruct Hp as (m & Hat & Hm).
  destruct (dir_at_Dir Hat) as (items & ->). exists items.
  split; [|exact Hm].
  destruct (dir_at_walk Hat (well_formed_walk _ Hwf En)) as (ks & E1 & E2).
  unfold resolve in *. now rewrite E1, walk_app, En.
Qed.

Lemma findEmptyFolders_paths (root : string) (t : node) (p : string) :
  In p (map Res.path (findEmptyFolders root t)) <->
  exists area, In area search_areas /\
               In p (findEmptyFoldersAt t (path_join root area)).
Proof.
  unfold findEmptyFolders. rewrite map_map. cbn [Res.path]. rewrite map_id.
  rewrite in_flat_map. unfold search_areas. split.
  - intros (sd & Hsd & Hp).
    assert (Hp' : In p (findEmptyFoldersAt t sd))
      by (destruct (pathExists t sd); [exact Hp | destruct Hp]).
    destruct Hsd as [<- | [<- | []]];
      [exists "app/api" | exists "app/lib"]; simpl; auto.
  - intros (area & Ha & Hp). exists (path_join root area). split.
    + destruct Ha as [<- | [<- | []]]; simpl; auto.
    + unfold pathExists. unfold findEmptyFoldersAt in *.
      destruct (resolve t (path_join root area)); [exact Hp | destruct Hp].
Qed.

Lemma well_formed_sample_tree : well_formed sample_tree.
Proof.
  unfold sample_tree.
  repeat first
    [ apply well_formed_File
    | apply well_formed_Dir
    | apply Forall_cons
    | apply Forall_nil
    | apply NoDup_cons
    | apply NoDup_nil
    | split
    | discriminate
    | reflexivity
    | (simpl; intuition discriminate) ].
Qed.

(** X7.  In a well-formed tree (the entries of a directory have names
    without separator, no two the same) every folder that
    [findEmptyFolders] reports passes the check [deleteEmptyFolders]
    makes before it removes a directory: [isDirectoryEmpty] answers
    [true] on its path. *)
Theorem reported_folders_pass_the_deletion_check
        (root : string) (t : node) (f : Res.EmptyFolder) :
  well_formed t ->
  In f (findEmptyFolders root t) ->
  isDirectoryEmpty t (Res.path f) = true.
Proof.
  intros Hwf Hf. apply isDirectoryEmpty_spec.
  assert (Hp : In (Res.path f) (map Res.path (findEmptyFolders root t)))
    by (apply in_map; exact Hf).
  apply findEmptyFolders_paths in Hp. destruct Hp as (area & _ & Hp).
  exact (reported_resolves _ _ Hwf Hp).
Qed.

Lemma reported_folders_pass_the_deletion_check_witness :
  isDirectoryEmpty sample_tree "/srv/app/api/old" = true.
Proof.
  apply (@reported_folders_pass_the_deletion_check "/srv" sample_tree
           (Res.mkEmptyFolder "/srv/app/api/old" "app/api/old")).
  - exact well_formed_sample_tree.
  - simpl. auto.
Defined.

Lemma prefix_app (a b : string) : String.prefix a (a ++ b)%string = true.
Proof.
  induction a as [|x a IH]; simpl; [now destruct b|].
  destruct (ascii_dec x x); [exact IH | congruence].
Qed.

Lemma drop_length_app (a b : string) :
  drop (String.length a) (a ++ b)%string = b.
Proof. induction a as [|x a IH]; simpl; [now destruct b | exact IH]. Qed.

Lemma path_relative_join (root rest : string) :
  path_relative root (path_join root rest) = rest.
Proof.
  unfold path_relative, path_join.
  change (("/" ++ rest)%string) with (String "/" rest).
  replace ((root ++ String "/" rest)%string)
    with (((root ++ "/") ++ rest)%string)
    by (now rewrite string_app_assoc).
  rewrite prefix_app.
  replace (String.length root + 1) with (String.length (root ++ "/")%string)
    by (now rewrite length_app).
  apply drop_length_app.
Qed.

Lemma dir_at_below (d : string) (n : node) (p : string) (m : node) :
  dir_at d n p m -> p = d \/ exists rest, p = path_join d rest.
Proof.
  induction 1 as [d es | d es k c p m Hin Hat IH]; [left; reflexivity|].
  right. destruct IH as [-> | (rest & ->)].
  - exists k. reflexivity.
  - exists (path_join k rest). unfold path_join.
    now rewrite !string_app_assoc.
Qed.

(** X8.  [findEmptyFolders] reports nothing outside the two action
    areas: a reported folder is [app/api] or [app/lib] of the project or
    lies below one of them, and its [relativePath] is its place in the
    project. *)
Theorem findEmptyFolders_only_in_action_areas
        (root : string) (t : node) (f : Res.EmptyFolder) :
  In f (findEmptyFolders root t) ->
  exists area rel,
    In area search_areas /\
    (rel = area \/ exists rest, rel = path_join area rest) /\
    Res.path f = path_join root rel /\
    Res.relativePath f = rel.
Proof.
  intros Hf.
  assert (Hrel : Res.relativePath f = path_relative root (Res.path f)).
  { unfold findEmptyFolders in Hf. apply in_map_iff in Hf.
    destruct Hf as (p & <- & _). reflexivity. }
  assert (Hp : In (Res.path f) (map Res.path (findEmptyFolders root t)))
    by (apply in_map; exact Hf).
  apply findEmptyFolders_paths in Hp. destruct Hp as (area & Ha & Hp).
  unfold findEmptyFoldersAt in Hp.
  destruct (resolve t (path_join root area)) as [n|]; [|destruct Hp].
  apply findEmptyFoldersInDirectory_spec in Hp. destruct Hp as (m & Hat & _).
  apply dir_at_below in Hat. destruct Hat as [E | (rest & E)].
  - exists area, area. rewrite Hrel, E, path_relative_join. auto.
  - exists area, (path_join area rest).
    assert (E' : Res.path f = path_join root (path_join area rest)).
    { rewrite E. unfold path_join. now rewrite !string_app_assoc. }
    rewrite Hrel, E', path_relative_join. split; [exact Ha|].
    split; [right; exists rest; reflexivity | auto].
Qed.

Lemma findEmptyFolders_only_in_action_areas_witness :
  exists area rel,
    In area search_areas /\
    (rel = area \/ exists rest, rel = path_join area rest) /\
    "/srv/app/api/old/a" = path_join "/srv" rel /\
    "app/api/old/a" = rel.
Proof.
  apply (@findEmptyFolders_only_in_action_areas "/srv" sample_tree
           (Res.mkEmptyFolder "/srv/app/api/old/a" "app/api/old/a")).
  simpl. auto.
Defined.


(** ** The key of an action file and the spellings of a reference *)

Lemma prefix_cons (a b : ascii) (p s : string) :
  String.prefix (String a p) (String b s) = Ascii.eqb a b && String.prefix p s.
Proof.
  simpl. destruct (ascii_dec a b) as [-> | Hne].
  - now rewrite Ascii.eqb_refl.
  - apply Ascii.eqb_neq in Hne. now rewrite Hne.
Qed.

Lemma prefix_nil (s : string) : String.prefix "" s = true.
Proof. now destruct s. Qed.

Lemma prefix_refl (p : string) : String.prefix p p = true.
Proof.
  induction p as [|c p IH]; [reflexivity|].
  now rewrite prefix_cons, Ascii.eqb_refl.
Qed.

Lemma replace_unfold (s pat rep : string) :
  replace s pat rep =
    if String.prefix pat s then (rep ++ drop (String.length pat) s)%string
    else match s with
         | EmptyString => EmptyString
         | String c s' => String c (replace s' pat rep)
         end.
Proof. destruct s; reflexivity. Qed.

Lemma replace_prefix (pat rest rep : string) :
  replace (pat ++ rest)%string pat rep = (rep ++ rest)%string.
Proof. now rewrite replace_unfold, prefix_app, drop_length_app. Qed.

Lemma includes_unfold (s p : string) :
  includes s p =
    if String.prefix p s then true
    else match s with
         | EmptyString => false
         | String _ s' => includes s' p
         end.
Proof. destruct s; reflexivity. Qed.

Lemma includes_skip (c : ascii) (r : string) :
  c <> "."%char -> includes (String c r) ".json" = includes r ".json".
Proof.
  intros Hc. rewrite includes_unfold, prefix_cons.
  destruct (Ascii.eqb_spec "." c); [congruence | reflexivity].
Qed.

Lemma includes_drop (n : nat) :
  forall x p, includes (drop n x) p = true -> includes x p = true.
Proof.
  induction n as [|n IH]; intros x p H; [destruct x; exact H|].
  destruct x as [|c x]; [exact H|].
  simpl drop in H. apply IH in H. rewrite includes_unfold.
  destruct (String.prefix p (String c x)); [reflexivity | exact H].
Qed.

Lemma not_includes_endsWith (x p : string) :
  includes x p = false -> endsWith x p = false.
Proof.
  intros H. unfold endsWith.
  destruct (String.length p <=? String.length x)%nat; [|reflexivity].
  destruct (String.eqb_spec (drop (String.length x - String.length p) x) p)
    as [E | Hne]; [|reflexivity].
  exfalso.
  assert (Hi : includes x p = true).
  { apply (includes_drop (String.length x - String.length p)).
    rewrite E, includes_unfold, prefix_refl. reflexivity. }
  congruence.
Qed.

(** An occurrence of the extension that began before the extension
    itself would need a second dot in it. *)
Lemma json_border (y : string) :
  String.prefix ".json" (y ++ ".json")%string = true ->
  y = "" \/ String.prefix ".json" y = true.
Proof.
  intros H. destruct y as [|c1 y]; [left; reflexivity|]. right.
  change ((String c1 y ++ ".json")%string)
    with (String c1 (y ++ ".json")%string) in H.
  rewrite prefix_cons in H. apply andb_true_iff in H. destruct H as [E1 H].
  rewrite prefix_cons, E1. cbn [andb].
  destruct y as [|c2 y]; [cbn in H; discriminate|].
  change ((String c2 y ++ ".json")%string)
    with (String c2 (y ++ ".json")%string) in H.
  rewrite prefix_cons in H. apply andb_true_iff in H. destruct H as [E2 H].
  rewrite prefix_cons, E2. cbn [andb].
  destruct y as [|c3 y]; [cbn in H; discriminate|].
  change ((String c3 y ++ ".json")%string)
    with (String c3 (y ++ ".json")%string) in H.
  rewrite prefix_cons in H. apply andb_true_iff in H. destruct H as [E3 H].
  rewrite prefix_cons, E3. cbn [andb].
  destruct y as [|c4 y]; [cbn in H; discriminate|].
  change ((String c4 y ++ ".json")%string)
    with (String c4 (y ++ ".json")%string) in H.
  rewrite prefix_cons in H. apply andb_true_iff in H. destruct H as [E4 H].
  rewrite prefix_cons, E4. cbn [andb].
  destruct y as [|c5 y]; [cbn in H; discriminate|].
  change ((String c5 y ++ ".json")%string)
    with (String c5 (y ++ ".json")%string) in H.
  rewrite prefix_cons in H. apply andb_true_iff in H. destruct H as [E5 H].
  rewrite prefix_cons, E5. cbn [andb]. apply prefix_nil.
Qed.

(** Where the extension occurs only at the end, the first-occurrence
    replace removes it. *)
Lemma replace_json_suffix (x : string) :
  includes x ".json" = false ->
  replace (x ++ ".json")%string ".json" "" = x.
Proof.
  induction x as [|c x IH]; intros H; [reflexivity|].
  rewrite includes_unfold in H.
  destruct (String.prefix ".json" (String c x)) eqn:Hp; [discriminate|].
  rewrite replace_unfold.
  destruct (String.prefix ".json" (String c x ++ ".json")%string) eqn:Hq.
  - apply json_border in Hq. destruct Hq as [Hq | Hq]; congruence.
  - change ((String c x ++ ".json")%string)
      with (String c (x ++ ".json")%string).
    cbv beta iota. rewrite IH; [reflexivity | exact H].
Qed.

Lemma strip_json (x : string) :
  includes x ".json" = false ->
  (if endsWith (x ++ ".json")%string ".json"
   then replace (x ++ ".json")%string ".json" "" else (x ++ ".json")%string)
  = x /\
  (if endsWith x ".json" then replace x ".json" "" else x) = x.
Proof.
  intros H. rewrite endsWith_app, (not_includes_endsWith _ _ H).
  split; [apply replace_json_suffix, H | reflexivity].
Qed.

(** X9.  For an action file [app/api/s.json] whose name has [.json]
    only as its extension, the key of the index is [/api/s], and the four
    spellings of a reference to it (with or without the extension, with
    or without the leading [/app]) all normalize to that key. *)
Theorem api_reference_spellings_meet_the_key (s : string) :
  includes s ".json" = false ->
  let key := filePathToUrl ("app/api/" ++ s ++ ".json") in
  key = ("/api/" ++ s)%string /\
  normalizePath ("/api/" ++ s) = key /\
  normalizePath ("/api/" ++ s ++ ".json") = key /\
  normalizePath ("/app/api/" ++ s) = key /\
  normalizePath ("/app/api/" ++ s ++ ".json") = key.
Proof.
  intros Hs key.
  assert (Ha : includes ("api/" ++ s) ".json" = false).
  { cbn [append]. rewrite !includes_skip by discriminate. exact Hs. }
  assert (Hb : includes ("/api/" ++ s) ".json" = false).
  { cbn [append]. rewrite !includes_skip by discriminate. exact Hs. }
  assert (Hkey : key = ("/api/" ++ s)%string).
  { unfold key, filePathToUrl, startsWith.
    rewrite (prefix_app "app/api/" (s ++ ".json")).
    change (("app/api/" ++ s ++ ".json")%string)
      with (("app/" ++ ("api/" ++ s) ++ ".json")%string).
    rewrite replace_prefix.
    change (("" ++ ("api/" ++ s) ++ ".json")%string)
      with ((("api/" ++ s) ++ ".json")%string).
    now rewrite (replace_json_suffix _ Ha). }
  destruct (strip_json _ Hb) as [Hj Hn].
  rewrite Hkey. split; [reflexivity|].
  split; [|split; [|split]].
  - unfold normalizePath, startsWith. rewrite (prefix_app "/api/" s).
    exact Hn.
  - unfold normalizePath, startsWith.
    rewrite (prefix_app "/api/" (s ++ ".json")). exact Hj.
  - unfold normalizePath, startsWith.
    change (String.prefix "/api/" ("/app/api/" ++ s)) with false.
    rewrite (prefix_app "/app/api/" s), replace_prefix. exact Hn.
  - unfold normalizePath, startsWith.
    change (String.prefix "/api/" ("/app/api/" ++ s ++ ".json")) with false.
    rewrite (prefix_app "/app/api/" (s ++ ".json")), replace_prefix. exact Hj.
Qed.

Lemma api_reference_spellings_meet_the_key_witness :
  filePathToUrl "app/api/v1/courses/create.json" = "/api/v1/courses/create" /\
  normalizePath "/app/api/v1/courses/create.json" = "/api/v1/courses/create".
Proof.
  destruct (@api_reference_spellings_meet_the_key "v1/courses/create")
    as (H1 & _ & _ & _ & H5); [reflexivity|].
  split; [exact H1 | exact (eq_trans H5 H1)].
Defined.

Lemma startsWith_slash (s p : string) :
  startsWith s "/" = false -> startsWith s (String "/" p) = false.
Proof.
  unfold startsWith. destruct s as [|c s]; [reflexivity|].
  rewrite !prefix_cons, prefix_nil, andb_true_r. now intros ->.
Qed.

Lemma startsWith_slash_app (s x : string) (c : ascii) :
  c <> "/"%char ->
  startsWith s "/" = false ->
  startsWith (s ++ String c x) "/" = false.
Proof.
  unfold startsWith. intros Hc. destruct s as [|c' s].
  - intros _. change (("" ++ String c x)%string) with (String c x).
    rewrite prefix_cons.
    destruct (Ascii.eqb_spec "/" c); [congruence | reflexivity].
  - change ((String c' s ++ String c x)%string)
      with (String c' (s ++ String c x)%string).
    rewrite !prefix_cons, !prefix_nil. exact (fun H => H).
Qed.

(** The extension does not complete the prefix [lib/]. *)
Lemma startsWith_lib_app (s : string) :
  startsWith s "lib/" = false ->
  startsWith (s ++ ".json") "lib/" = false.
Proof.
  unfold startsWith. intros H.
  destruct s as [|c1 s]; [reflexivity|].
  change ((String c1 s ++ ".json")%string)
    with (String c1 (s ++ ".json")%string).
  rewrite prefix_cons in *.
  destruct (Ascii.eqb "l" c1); [cbn [andb] in *|reflexivity].
  destruct s as [|c2 s]; [reflexivity|].
  change ((String c2 s ++ ".json")%string)
    with (String c2 (s ++ ".json")%string).
  rewrite prefix_cons in *.
  destruct (Ascii.eqb "i" c2); [cbn [andb] in *|reflexivity].
  destruct s as [|c3 s]; [reflexivity|].
  change ((String c3 s ++ ".json")%string)
    with (String c3 (s ++ ".json")%string).
  rewrite prefix_cons in *.
  destruct (Ascii.eqb "b" c3); [cbn [andb] in *|reflexivity].
  destruct s as [|c4 s]; [reflexivity|].
  change ((String c4 s ++ ".json")%string)
    with (String c4 (s ++ ".json")%string).
  rewrite prefix_cons in *.
  destruct (Ascii.eqb "/" c4); [cbn [andb] in *|reflexivity].
  rewrite prefix_nil in H. discriminate.
Qed.

(** X10.  For a library file [app/lib/s.json] whose name has [.json]
    only as its extension and begins neither with a separator nor with
    [lib/], the key of the index is [lib/s], and the four spellings of a
    reference to it (with or without [lib/], with or without the
    extension) all normalize to that key. *)
Theorem lib_reference_spellings_meet_the_key (s : string) :
  includes s ".json" = false ->
  startsWith s "/" = false ->
  startsWith s "lib/" = false ->
  let key := filePathToUrl ("app/lib/" ++ s ++ ".json") in
  key = ("lib/" ++ s)%string /\
  normalizePath s = key /\
  normalizePath (s ++ ".json") = key /\
  normalizePath ("lib/" ++ s) = key /\
  normalizePath ("lib/" ++ s ++ ".json") = key.
Proof.
  intros Hs Hslash Hlib key.
  assert (Ha : includes ("lib/" ++ s) ".json" = false).
  { cbn [append]. rewrite !includes_skip by discriminate. exact Hs. }
  assert (Hkey : key = ("lib/" ++ s)%string).
  { unfold key, filePathToUrl, startsWith.
    change (String.prefix "app/api/" ("app/lib/" ++ s ++ ".json")) with false.
    rewrite (prefix_app "app/lib/" (s ++ ".json")).
    change (("app/lib/" ++ s ++ ".json")%string)
      with (("app/" ++ ("lib/" ++ s) ++ ".json")%string).
    rewrite replace_prefix.
    change (("" ++ ("lib/" ++ s) ++ ".json")%string)
      with ((("lib/" ++ s) ++ ".json")%string).
    now rewrite (replace_json_suffix _ Ha). }
  destruct (strip_json _ Ha) as [Hj Hn].
  assert (Hslash' : startsWith (s ++ ".json") "/" = false)
    by (apply startsWith_slash_app; [discriminate | exact Hslash]).
  rewrite Hkey. split; [reflexivity|].
  split; [|split; [|split]].
  - unfold normalizePath.
    rewrite (startsWith_slash s "api/" Hslash),
      (startsWith_slash s "app/api/" Hslash), Hslash, Hlib.
    exact Hn.
  - unfold normalizePath.
    rewrite (startsWith_slash _ "api/" Hslash'),
      (startsWith_slash _ "app/api/" Hslash'), Hslash',
      (startsWith_lib_app _ Hlib).
    exact Hj.
  - unfold normalizePath.
    change (startsWith ("lib/" ++ s) "/api/") with false.
    change (startsWith ("lib/" ++ s) "/app/api/") with false.
    change (startsWith ("lib/" ++ s) "/") with false.
    unfold startsWith. rewrite !(prefix_app "lib/" s). exact Hn.
  - unfold normalizePath.
    change (startsWith ("lib/" ++ s ++ ".json") "/api/") with false.
    change (startsWith ("lib/" ++ s ++ ".json") "/app/api/") with false.
    change (startsWith ("lib/" ++ s ++ ".json") "/") with false.
    unfold startsWith. rewrite !(prefix_app "lib/" (s ++ ".json")).
    exact Hj.
Qed.

Lemma lib_reference_spellings_meet_the_key_witness :
  filePathToUrl "app/lib/security/check.json" = "lib/security/check" /\
  normalizePath "security/check" = "lib/security/check".
Proof.
  destruct (@lib_reference_spellings_meet_the_key "security/check")
    as (H1 & H2 & _); [reflexivity | reflexivity | reflexivity |].
  split; [exact H1 | exact (eq_trans H2 H1)].
Defined.


(** ** The search of a document *)

Lemma forEach_app (A : Type) (l1 l2 : list A) (f : A -> M unit) :
  forall st, forEach (l1 ++ l2) f st = (forEach l1 f ;; forEach l2 f) st.
Proof.
  induction l1 as [|a l1 IH]; intros st; [reflexivity|].
  cbn [app forEach]. unfold bind at 1 2 3.
  destruct (f a st) as [st' [[]|e]]; [|reflexivity].
  rewrite IH. reflexivity.
Qed.

Lemma forEach_flat_map (A B : Type) (l : list A) (h : A -> list B)
      (g : A -> M unit) (cb : B -> M unit) :
  (forall x, In x l -> forall st, g x st = forEach (h x) cb st) ->
  forall st, forEach l g st = forEach (flat_map h l) cb st.
Proof.
  induction l as [|a l IH]; intros H st; [reflexivity|].
  cbn [flat_map forEach]. rewrite forEach_app. unfold bind.
  rewrite (H a (or_introl eq_refl)).
  destruct (forEach (h a) cb st) as [st' [[]|e]]; [|reflexivity].
  apply IH. intros x Hx. apply H. right. exact Hx.
Qed.

Lemma forEach_one (A : Type) (a : A) (f : A -> M unit) (st : Scanner) :
  forEach [a] f st = f a st.
Proof.
  cbn [forEach]. unfold bind, ret.
  destruct (f a st) as [st' [[]|e]]; reflexivity.
Qed.

Lemma found_JArr (items : list json) (key : string) :
  found (JArr items) key = flat_map (fun item => found item key) items.
Proof. reflexivity. Qed.

Lemma found_JObj (entries : list (string * json)) (key : string) :
  found (JObj entries) key =
    flat_map (fun kv => if fst kv =? key then [snd kv]
                        else found (snd kv) key) entries.
Proof. reflexivity. Qed.

Lemma findInObject_found (key : string) (callback : json -> M unit)
      (obj : json) :
  forall st, findInObject obj key callback st
             = forEach (found obj key) callback st.
Proof.
  induction obj as [| | | |items IH|entries IH] using json_induction;
    intros st; try reflexivity.
  - rewrite findInObject_JArr, found_JArr. apply forEach_flat_map.
    rewrite Forall_forall in IH. exact IH.
  - rewrite findInObject_JObj, found_JObj. apply forEach_flat_map.
    rewrite Forall_forall in IH. intros kv Hkv st'.
    destruct (fst kv =? key); [now rewrite forEach_one | apply IH, Hkv].
Qed.

(** X11.  [findInObject] calls back on the values [found] lists, in
    that order, and stops where a call throws; the value of a matching
    key is handed over as it is and is not searched: what lies in it
    under the same key is never visited. *)
Theorem findInObject_visits_outermost_matches
        (key : string) (callback : json -> M unit) :
  (forall obj st,
      findInObject obj key callback st = forEach (found obj key) callback st) /\
  (forall pre v post,
      found (JObj (pre ++ (key, v) :: post)) key
        = found (JObj pre) key ++ v :: found (JObj post) key) /\
  (forall pre v post,
      found (JArr (pre ++ v :: post)) key
        = found (JArr pre) key ++ found v key ++ found (JArr post) key).
Proof.
  split; [|split].
  - intros obj st. apply findInObject_found.
  - intros pre v post. rewrite !found_JObj, flat_map_app.
    cbn [flat_map fst snd]. rewrite String.eqb_refl. reflexivity.
  - intros pre v post. rewrite !found_JArr, flat_map_app. reflexivity.
Qed.

(** ** A job file that is not a string *)

Lemma safe_addReference_eq (p file : string) (t : RefType) (st : Scanner) :
  addReference p file t st = (record st (p, file, t), Normal tt).
Proof. reflexivity. Qed.

Lemma forEach_api_files (file : string) (strs : list string) :
  forall st,
    forEach (map JStr strs)
            (fun value => addReference_value value file QueueApiFile) st
    = (run_events (map (fun s => (s, file, QueueApiFile)) strs) st, Normal tt).
Proof.
  induction strs as [|s strs IH]; intros st; [reflexivity|].
  cbn [map forEach]. unfold bind at 1. cbn [addReference_value].
  rewrite (safe_addReference_eq s file QueueApiFile st). apply IH.
Qed.

(** X12.  Only the value of [api_file] is passed to [addReference]
    untested.  Where a document holds an [api_file] that is not a string,
    the turn of [scanJsonFiles] for its file records the job files found
    before it and nothing else: the references the file makes under
    [exec], [module], [value], [url] and [link] are dropped, and the scan
    goes on with the next file. *)
Theorem non_string_api_file_drops_the_other_references
        (fs : FileSystem) (file : string) (content : json)
        (strs : list string) (v : json) (rest : list json) :
  readJson fs file = Some content ->
  found content "api_file" = map JStr strs ++ v :: rest ->
  (forall s, v <> JStr s) ->
  scanJsonFiles fs = forEach (glob_json fs) (scanJson_turn fs) /\
  writes (scanJson_turn fs file)
         (map (fun s => (s, file, QueueApiFile)) strs) (Normal tt).
Proof.
  intros Hread Hfound Hv. split; [reflexivity|]. intros st.
  unfold scanJson_turn, try_catch, readJsonM. rewrite Hread.
  unfold bind at 1. unfold ret at 1. unfold bind at 1.
  rewrite findInObject_found, Hfound, forEach_app. unfold bind at 1.
  rewrite forEach_api_files. cbn [forEach]. unfold bind at 1.
  destruct v as [| b | n | s | items | entries]; try reflexivity.
  exfalso. apply (Hv s). reflexivity.
Qed.

Lemma non_string_api_file_drops_the_other_references_witness :
  writes (scanJson_turn sample_queue_project "/srv/app/jobs.json")
         [("/app/api/jobs/a.json", "/srv/app/jobs.json", QueueApiFile)]
         (Normal tt).
Proof.
  apply (@non_string_api_file_drops_the_other_references
           sample_queue_project "/srv/app/jobs.json"
           (JObj [("api_file", JStr "/app/api/jobs/a.json");
                  ("options", JObj [("api_file", JNum 7)]);
                  ("exec", JStr "lib/notify")])
           ["/app/api/jobs/a.json"] (JNum 7) []).
  - reflexivity.
  - reflexivity.
  - intros s. discriminate.
Defined.


(** ** Deleting the reported folders *)

Lemma part_of_refl (n : node) : part_of n n.
Proof.
  induction n as [|es IH] using node_induction; constructor.
  rewrite Forall_forall in IH. intros k c Hin. exists c.
  split; [exact Hin | exact (IH (k, c) Hin)].
Qed.

Lemma part_of_trans (a : node) :
  forall b c, part_of a b -> part_of b c -> part_of a c.
Proof.
  induction a as [|es IH] using node_induction; intros b c Hab Hbc.
  - inversion Hab; subst. inversion Hbc; subst. constructor.
  - inversion Hab as [|? es2 H1]; subst.
    inversion Hbc as [|? es3 H2]; subst.
    constructor. rewrite Forall_forall in IH. intros k c1 Hin.
    destruct (H1 _ _ Hin) as (c2 & Hin2 & P12).
    destruct (H2 _ _ Hin2) as (c3 & Hin3 & P23).
    exists c3. split; [exact Hin3 | exact (IH (k, c1) Hin _ _ P12 P23)].
Qed.

Lemma prune_part_of (cs : list string) : forall t, part_of (prune t cs) t.
Proof.
  induction cs as [|c cs IH]; intros t.
  - rewrite prune_nil. apply part_of_refl.
  - destruct t as [|es]; [rewrite prune_File; constructor|].
    destruct cs as [|c2 cs2].
    + rewrite prune_last. constructor. intros k c1 Hin.
      apply filter_In in Hin. exists c1.
      split; [tauto | apply part_of_refl].
    + rewrite prune_inner. constructor. intros k c1 Hin.
      apply in_map_iff in Hin. destruct Hin as ([k' c'] & E & Hin).
      cbn [fst snd] in E. destruct (k' =? c); inversion E; subst.
      * exists c'. split; [exact Hin | apply IH].
      * exists c1. split; [exact Hin | apply part_of_refl].
Qed.

Lemma file_below_part_of (n1 : node) :
  file_below n1 -> forall n, part_of n1 n -> file_below n.
Proof.
  induction 1 as [es1 k Hin | es1 k c1 Hin Hc IH]; intros n Hp;
    inversion Hp as [|? es H]; subst.
  - destruct (H _ _ Hin) as (c & Hc & Pc). inversion Pc; subst.
    eapply file_below_here; eauto.
  - destruct (H _ _ Hin) as (c & Hc' & Pc).
    eapply file_below_sub; [exact Hc' | apply IH, Pc].
Qed.

Lemma walk_part_of (cs : list string) :
  forall n1 n m1,
    well_formed n -> part_of n1 n -> walk n1 cs = Some m1 ->
    exists m, walk n cs = Some m /\ part_of m1 m /\ well_formed m.
Proof.
  induction cs as [|c cs IH]; intros n1 n m1 Hwf Hp H; simpl in H.
  - inversion H; subst. exists n. simpl. auto.
  - destruct n1 as [|es1]; [discriminate|].
    destruct (assoc c es1) as [c1|] eqn:E; [|discriminate].
    apply (@map_get_In node es1 c c1) in E.
    inversion Hp as [|? es Hall]; subst.
    destruct (Hall _ _ E) as (c' & Hin & Pc).
    destruct (@well_formed_child es c c' Hwf Hin) as (_ & Hwc & Ha).
    destruct (IH _ _ _ Hwc Pc H) as (m & Hm & Pm & Wm).
    exists m. simpl. rewrite Ha. auto.
Qed.

Lemma dir_at_part_of (d : string) (n1 : node) (p : string) (m1 : node) :
  dir_at d n1 p m1 ->
  forall n, part_of n1 n -> exists m, dir_at d n p m /\ part_of m1 m.
Proof.
  induction 1 as [d es1 | d es1 k c p m1 Hin Hat IH]; intros n Hp;
    inversion Hp as [|? es Hall]; subst.
  - exists (Dir es). split; [constructor | exact Hp].
  - destruct (Hall _ _ Hin) as (c' & Hin' & Pc).
    destruct (IH _ Pc) as (m & Hm & Pm).
    exists m. split; [eapply dir_at_sub; eauto | exact Pm].
Qed.

Lemma NoDup_keys_filter (V : Type) (f : string * V -> bool)
      (es : list (string * V)) :
  NoDup (map fst es) -> NoDup (map fst (filter f es)).
Proof.
  induction es as [|e es IH]; simpl; intros H; [constructor|].
  inversion H as [|? ? Hn Hr]; subst.
  destruct (f e); simpl; [|apply IH, Hr].
  constructor; [|apply IH, Hr]. intros Hin. apply Hn.
  apply in_map_iff in Hin. destruct Hin as (x & Ex & Hx).
  apply filter_In in Hx. apply in_map_iff. exists x. tauto.
Qed.

Lemma prune_well_formed (cs : list string) :
  forall t, well_formed t -> well_formed (prune t cs).
Proof.
  induction cs as [|c cs IH]; intros t Hwf.
  - now rewrite prune_nil.
  - destruct t as [|es]; [now rewrite prune_File|].
    inversion Hwf as [|? Hnd Hall]; subst.
    destruct cs as [|c2 cs2].
    + rewrite prune_last. constructor.
      * apply NoDup_keys_filter, Hnd.
      * rewrite Forall_forall in *. intros e He.
        apply filter_In in He. apply Hall. tauto.
    + rewrite prune_inner. constructor.
      * rewrite map_map. erewrite List.map_ext; [exact Hnd|].
        intros [k v]. cbn [fst snd]. now destruct (k =? c).
      * rewrite Forall_forall in *. intros e He.
        apply in_map_iff in He. destruct He as ([k v] & <- & Hin).
        destruct (Hall _ Hin) as [Hk Hv]. cbn [fst snd] in *.
        destruct (k =? c); cbn [fst snd]; split; auto.
Qed.

Lemma walk_prune_self (cs : list string) :
  forall t, cs <> [] -> walk (prune t cs) cs = None.
Proof.
  induction cs as [|c cs IH]; intros t Hne; [congruence|].
  destruct t as [|es]; [now rewrite prune_File|].
  destruct cs as [|c2 cs2].
  - rewrite prune_last. cbn [walk]. now rewrite assoc_filter_same.
  - rewrite prune_inner. cbn [walk].
    pose proof (assoc_map_at c c (fun n => prune n (c2 :: cs2)) es) as Em.
    cbv beta in Em. rewrite Em, String.eqb_refl.
    destruct (assoc c es) as [child|]; [|reflexivity].
    cbn [option_map]. apply IH. discriminate.
Qed.

Lemma walk_prune_other (cs : list string) :
  forall t cs' n,
    (forall rest, cs' <> cs ++ rest) -> walk t cs' = Some n ->
    exists n', walk (prune t cs) cs' = Some n'.
Proof.
  induction cs as [|c cs IH]; intros t cs' n Hn H.
  - exfalso. apply (Hn cs'). reflexivity.
  - destruct t as [|es]; [rewrite prune_File; eauto|].
    destruct cs' as [|c' rest']; [simpl; eauto|].
    cbn [walk] in H. destruct (assoc c' es) as [child|] eqn:E; [|discriminate].
    destruct cs as [|c2 cs2].
    + rewrite prune_last. cbn [walk].
      rewrite assoc_filter_other; [rewrite E; eauto|].
      destruct (String.eqb_spec c' c) as [-> | Hne]; [|reflexivity].
      exfalso. apply (Hn rest'). reflexivity.
    + rewrite prune_inner. cbn [walk].
      pose proof (assoc_map_at c c' (fun n => prune n (c2 :: cs2)) es) as Em.
      cbv beta in Em. rewrite Em, E.
      destruct (String.eqb_spec c' c) as [-> | Hne]; cbn [option_map];
        [|eauto].
      apply (IH child rest' n); [|exact H].
      intros rest Er. apply (Hn rest). simpl. now rewrite Er.
Qed.

(** Taking an entry out of the tree makes no path designate
    something. *)
Lemma walk_prune_none (cs cs' : list string) (t : node) :
  well_formed t -> walk t cs' = None -> walk (prune t cs) cs' = None.
Proof.
  intros Hwf H. destruct (walk (prune t cs) cs') as [n1|] eqn:E; [|reflexivity].
  destruct (walk_part_of cs' Hwf (prune_part_of cs t) E) as (m & Hm & _).
  congruence.
Qed.

Lemma file_below_walk (n : node) :
  file_below n -> well_formed n ->
  exists rest, rest <> [] /\ walk n rest = Some File.
Proof.
  induction 1 as [es k Hin | es k c Hin Hc IH]; intros Hwf.
  - destruct (@well_formed_child es k File Hwf Hin) as (_ & _ & Ha).
    exists [k]. split; [discriminate|]. simpl. now rewrite Ha.
  - destruct (@well_formed_child es k c Hwf Hin) as (_ & Hwc & Ha).
    destruct (IH Hwc) as (rest & _ & Hr).
    exists (k :: rest). split; [discriminate|]. simpl. now rewrite Ha.
Qed.

(** *** The paths of the reported folders *)

Lemma path_components_join_any (d a : string) :
  path_components (path_join d a) = path_components d ++ path_components a /\
  depth (path_join d a) = depth d + depth a.
Proof.
  unfold path_components, path_join, depth.
  change (("/" ++ a)%string) with (String "/" a).
  now rewrite split_app_sep, filter_app, List.length_app.
Qed.

Lemma path_components_fold (ks : list string) :
  forall d,
    Forall entry_name ks ->
    path_components (fold_left path_join ks d) = path_components d ++ ks /\
    depth (fold_left path_join ks d) = depth d + List.length ks.
Proof.
  induction ks as [|k ks IH]; intros d H; simpl.
  - rewrite app_nil_r. split; [reflexivity | lia].
  - inversion H as [|? ? Hk Hks]; subst.
    destruct (IH (path_join d k) Hks) as [E1 E2]. rewrite E1, E2.
    rewrite (path_components_join d Hk).
    destruct (path_components_join_any d k) as [_ Ed]. rewrite Ed.
    destruct Hk as [_ Hs]. unfold depth at 2. rewrite Hs.
    rewrite <- app_assoc. split; [reflexivity | simpl; lia].
Qed.

Lemma dir_at_path (d : string) (n : node) (p : string) (m : node) :
  dir_at d n p m -> well_formed n ->
  exists ks,
    p = fold_left path_join ks d /\ Forall entry_name ks /\
    walk n ks = Some m.
Proof.
  induction 1 as [d es | d es k c p m Hin Hat IH]; intros Hwf.
  - exists []. simpl. auto.
  - destruct (@well_formed_child es k c Hwf Hin) as (Hk & Hc & Ha).
    destruct (IH Hc) as (ks & E1 & E2 & E3). exists (k :: ks).
    split; [exact E1|]. split; [constructor; assumption|].
    simpl. now rewrite Ha.
Qed.

Lemma search_area_components (root area : string) :
  In area search_areas ->
  exists x,
    area = ("app/" ++ x)%string /\
    path_components (path_join root area) = path_components root ++ ["app"; x] /\
    depth (path_join root area) = depth root + 2.
Proof.
  destruct (path_components_join_any root area) as [E1 E2].
  intros [<- | [<- | []]]; [exists "api" | exists "lib"];
    rewrite E1, E2; simpl; auto.
Qed.

(** A reported folder is an area followed by names of entries, and
    designates a directory with no file below it. *)
Lemma reported_path (root : string) (t : node) (p : string) :
  well_formed t ->
  In p (map Res.path (findEmptyFolders root t)) ->
  exists area ks items,
    In area search_areas /\
    p = fold_left path_join ks (path_join root area) /\
    Forall entry_name ks /\
    resolve t p = Some (Dir items) /\ ~ file_below (Dir items).
Proof.
  intros Hwf Hp. apply findEmptyFolders_paths in Hp.
  destruct Hp as (area & Ha & Hp).
  destruct (reported_resolves _ _ Hwf Hp) as (items & Hr & Hf).
  unfold findEmptyFoldersAt in Hp.
  destruct (resolve t (path_join root area)) as [n|] eqn:En; [|destruct Hp].
  apply findEmptyFoldersInDirectory_spec in Hp. destruct Hp as (m & Hat & _).
  destruct (dir_at_path Hat (well_formed_walk _ Hwf En)) as (ks & E1 & E2 & _).
  exists area, ks, items. auto.
Qed.

(** Of two reported folders the one that is not deeper does not lie
    below the other. *)
Lemma reported_not_above (root : string) (ap aq : string)
      (ksp ksq rest : list string) :
  In ap search_areas -> In aq search_areas ->
  Forall entry_name ksp -> Forall entry_name ksq ->
  let p := fold_left path_join ksp (path_join root ap) in
  let q := fold_left path_join ksq (path_join root aq) in
  path_components p = path_components q ++ rest ->
  depth p <= depth q ->
  p = q.
Proof.
  intros Hap Haq Hp Hq p q E Hd. unfold p, q in *.
  destruct (path_components_fold (path_join root ap) Hp) as [Ep Dp].
  destruct (path_components_fold (path_join root aq) Hq) as [Eq Dq].
  destruct (search_area_components root Hap) as (x & Hx & Cx & Dx).
  destruct (search_area_components root Haq) as (y & Hy & Cy & Dy).
  rewrite Ep, Eq, Cx, Cy, <- !app_assoc in E.
  apply app_inv_head in E. simpl in E. inversion E as [[Exy Eks]].
  rewrite Dp, Dq, Dx, Dy in Hd.
  assert (Hrest : rest = []).
  { destruct rest as [|r rest]; [reflexivity|].
    rewrite Eks, List.length_app in Hd. simpl in Hd. lia. }
  subst rest. rewrite app_nil_r in *. subst ksp.
  rewrite ?app_nil_r. now rewrite Hx, Hy, Exy.
Qed.

(** *** The loop with a removal that never fails *)

Lemma delete_step_removing (st : node * DeleteResults) (q : string) :
  delete_step (remove_unless []) st q =
    if isDirectoryEmpty (fst st) q then
      (prune (fst st) (path_components q),
       mkDeleteResults (deleted (snd st) ++ [q]) (errors (snd st)))
    else st.
Proof.
  destruct st as [t r]. unfold delete_step, remove_unless. simpl.
  destruct (isDirectoryEmpty t q); reflexivity.
Qed.

Lemma removing_well_formed_part (l : list string) :
  forall st : node * DeleteResults,
    well_formed (fst st) ->
    let st' := fold_left (delete_step (remove_unless [])) l st in
    well_formed (fst st') /\ part_of (fst st') (fst st) /\
    errors (snd st') = errors (snd st).
Proof.
  induction l as [|q l IH]; intros st Hwf; simpl.
  - split; [exact Hwf|]. split; [apply part_of_refl | reflexivity].
  - rewrite delete_step_removing.
    destruct (isDirectoryEmpty (fst st) q); [|apply IH, Hwf].
    destruct (IH (prune (fst st) (path_components q),
                  mkDeleteResults (deleted (snd st) ++ [q]) (errors (snd st)))
                 (prune_well_formed _ Hwf)) as (H1 & H2 & H3).
    split; [exact H1|]. split; [|exact H3].
    eapply part_of_trans; [exact H2 | apply prune_part_of].
Qed.

Lemma removing_keeps_resolving (cs : list string) (l : list string) :
  forall (st : node * DeleteResults) (n : node),
    (forall q rest, In q l -> cs <> path_components q ++ rest) ->
    walk (fst st) cs = Some n ->
    exists n',
      walk (fst (fold_left (delete_step (remove_unless [])) l st)) cs
        = Some n'.
Proof.
  induction l as [|q l IH]; intros st n Hl H; simpl; [eauto|].
  assert (Hl' : forall q' rest, In q' l -> cs <> path_components q' ++ rest)
    by (intros q' rest Hq'; apply Hl; right; exact Hq').
  rewrite delete_step_removing.
  destruct (isDirectoryEmpty (fst st) q); [|exact (IH _ _ Hl' H)].
  destruct (@walk_prune_other (path_components q) (fst st) cs n) as (n' & Hn');
    [intros rest; apply Hl; left; reflexivity | exact H |].
  exact (IH (_, _) n' Hl' Hn').
Qed.

Lemma removing_deleted_unresolved (l : list string) :
  forall st : node * DeleteResults,
    well_formed (fst st) ->
    (forall q, In q l -> path_components q <> []) ->
    (forall q, In q (deleted (snd st)) ->
               walk (fst st) (path_components q) = None) ->
    let st' := fold_left (delete_step (remove_unless [])) l st in
    forall q, In q (deleted (snd st')) ->
              walk (fst st') (path_components q) = None.
Proof.
  induction l as [|a l IH]; intros st Hwf Hl Hd; simpl; [exact Hd|].
  assert (Hl' : forall q, In q l -> path_components q <> [])
    by (intros q Hq; apply Hl; right; exact Hq).
  rewrite delete_step_removing.
  destruct (isDirectoryEmpty (fst st) a); [|exact (IH st Hwf Hl' Hd)].
  apply IH; [apply prune_well_formed, Hwf | exact Hl' |].
  cbn [fst snd deleted]. intros q Hq. apply in_app_iff in Hq.
  destruct Hq as [Hq | [<- | []]].
  - apply walk_prune_none; [exact Hwf | apply Hd, Hq].
  - apply walk_prune_self, Hl. left. reflexivity.
Qed.

Lemma in_split_first (x : string) (l : list string) :
  In x l -> exists l1 l2, l = l1 ++ x :: l2 /\ ~ In x l1.
Proof.
  induction l as [|a l IH]; intros H; [destruct H|].
  destruct (string_dec a x) as [-> | Hne].
  - exists [], l. simpl. auto.
  - destruct H as [H | H]; [contradiction|].
    destruct (IH H) as (l1 & l2 & -> & Hn).
    exists (a :: l1), l2. split; [reflexivity|].
    intros [E | Hin]; [contradiction | exact (Hn Hin)].
Qed.

(** In the tree as it is at its turn, a reported folder is still an
    empty directory. *)
Lemma reported_still_empty (root : string) (t : node) (l1 l2 : list string)
      (p : string) :
  well_formed t ->
  let folders := map Res.path (findEmptyFolders root t) in
  sortedPaths folders = l1 ++ p :: l2 ->
  ~ In p l1 ->
  isDirectoryEmpty
    (fst (fold_left (delete_step (remove_unless [])) l1
                    (t, mkDeleteResults [] []))) p = true.
Proof.
  intros Hwf folders E Hfirst.
  assert (Hin : forall q, In q (l1 ++ p :: l2) -> In q folders).
  { intros q Hq. rewrite <- E in Hq.
    eapply Permutation_in; [apply sortedPaths_perm | exact Hq]. }
  destruct (@reported_path root t p Hwf) as (ap & ksp & items & Hap & Ep & Hkp & Hr & Hf).
  { apply Hin, in_app_iff. right. left. reflexivity. }
  set (st0 := (t, mkDeleteResults [] [])) in *.
  destruct (@removing_keeps_resolving (path_components p) l1 st0 (Dir items))
    as (n1 & Hn1).
  - intros q rest Hq Epq.
    destruct (@reported_path root t q Hwf) as (aq & ksq & _ & Haq & Eq & Hkq & _).
    { apply Hin, in_app_iff. left. exact Hq. }
    assert (Hd : depth p <= depth q).
    { apply in_split in Hq. destruct Hq as (a & b & ->).
      rewrite <- app_assoc in E. simpl in E.
      apply (@sortedPaths_later_not_deeper folders a (b ++ p :: l2) q p E).
      apply in_app_iff. right. left. reflexivity. }
    apply Hfirst. rewrite Ep, Eq in *.
    rewrite (@reported_not_above root ap aq ksp ksq rest Hap Haq Hkp Hkq Epq Hd).
    exact Hq.
  - exact Hr.
  - destruct (@removing_well_formed_part l1 st0 Hwf) as (_ & Hpart & _).
    destruct (walk_part_of _ Hwf Hpart Hn1) as (m & Hm & Pm & _).
    unfold resolve in Hr. simpl in Hm. rewrite Hr in Hm. inversion Hm; subst m.
    apply isDirectoryEmpty_spec. unfold resolve. rewrite Hn1.
    inversion Pm as [|es1 ? Hall]; subst.
    exists es1. split; [reflexivity|].
    intros Hb. apply Hf. exact (file_below_part_of Hb Pm).
Qed.

(** X13.  What [executeDelete] does with the empty folders: in a
    well-formed tree, with a removal that does not fail,
    [deleteEmptyFolders] on the paths [findEmptyFolders] has just
    reported deletes every one of them (and nothing else) without an
    error, and a second search finds no empty folder. *)
Theorem reported_folders_are_all_deleted (root : string) (t : node) :
  well_formed t ->
  let folders := map Res.path (findEmptyFolders root t) in
  let final := deleteEmptyFolders (remove_unless []) t folders in
  (forall p, In p (deleted (snd final)) <-> In p folders) /\
  errors (snd final) = [] /\
  findEmptyFolders root (fst final) = [].
Proof.
  intros Hwf folders final.
  set (st0 := (t, mkDeleteResults [] [])).
  assert (Hfinal : final = fold_left (delete_step (remove_unless []))
                                     (sortedPaths folders) st0)
    by reflexivity.
  destruct (@removing_well_formed_part (sortedPaths folders) st0 Hwf)
    as (Hwf' & Hpart & Herr).
  rewrite <- Hfinal in Hwf', Hpart, Herr. simpl in Hpart, Herr.
  assert (Hdel : forall p, In p folders -> In p (deleted (snd final))).
  { intros p Hp.
    assert (Hs : In p (sortedPaths folders)).
    { eapply Permutation_in;
        [apply Permutation_sym, sortedPaths_perm | exact Hp]. }
    apply in_split_first in Hs. destruct Hs as (l1 & l2 & E & Hfirst).
    pose proof (@reported_still_empty root t l1 l2 p Hwf E Hfirst) as Hc.
    rewrite Hfinal, E, fold_left_app. cbn [fold_left].
    apply (@delete_fold_monotone (remove_unless []) l2).
    rewrite delete_step_removing. unfold st0. rewrite Hc. cbn [snd deleted].
    apply in_app_iff. right. left. reflexivity. }
  split; [|split].
  - intros p. split; [|apply Hdel].
    intros Hp. rewrite Hfinal in Hp.
    apply deleted_among_attempted in Hp. destruct Hp as [[] | Hp].
    eapply Permutation_in; [apply sortedPaths_perm | exact Hp].
  - exact Herr.
  - destruct (findEmptyFolders root (fst final)) as [|f rest] eqn:Ef;
      [reflexivity | exfalso].
    assert (Hq : In (Res.path f)
                    (map Res.path (findEmptyFolders root (fst final))))
      by (rewrite Ef; left; reflexivity).
    clear Ef. set (q := Res.path f) in *.
    destruct (@reported_path root (fst final) q Hwf' Hq)
      as (_ & _ & items' & _ & _ & _ & Hr' & Hf').
    apply findEmptyFolders_paths in Hq. destruct Hq as (area & Ha & Hq).
    unfold findEmptyFoldersAt in Hq.
    destruct (resolve (fst final) (path_join root area)) as [n'|] eqn:En';
      [|destruct Hq].
    apply findEmptyFoldersInDirectory_spec in Hq.
    destruct Hq as (m' & Hat' & Hm').
    unfold resolve in En'.
    destruct (walk_part_of _ Hwf Hpart En') as (n & En & Pn & Wn).
    destruct (dir_at_part_of Hat' Pn) as (m & Hat & Pm).
    destruct (dir_at_walk Hat Wn) as (ks & Eks & Hks).
    destruct (dir_at_walk Hat' (well_formed_walk _ Hwf' En'))
      as (ks' & Eks' & Hks').
    assert (Hwalk' : walk (fst final) (path_components q) = Some m')
      by (now rewrite Eks', walk_app, En').
    assert (Hwalk : walk t (path_components q) = Some m)
      by (now rewrite Eks, walk_app, En).
    assert (Hm : ~ file_below m).
    { intros Hb.
      destruct (file_below_walk Hb (well_formed_walk _ Hwf Hwalk))
        as (rest' & Hne & Hfile).
      assert (Hkept : walk (fst final) (path_components q ++ rest')
                      = Some File).
      { rewrite Hfinal. apply delete_fold_keeps_file. simpl.
        now rewrite walk_app, Hwalk. }
      rewrite walk_app, Hwalk' in Hkept.
      apply Hm'. exact (@walk_file_below rest' m' Hne Hkept). }
    assert (HqL : In q folders).
    { apply findEmptyFolders_paths. exists area. split; [exact Ha|].
      unfold findEmptyFoldersAt, resolve. rewrite En.
      apply findEmptyFoldersInDirectory_spec. exists m. auto. }
    assert (Hgone : walk (fst final) (path_components q) = None).
    { rewrite Hfinal.
      apply (@removing_deleted_unresolved (sortedPaths folders) st0 Hwf).
      - intros a Hin.
        assert (HaL : In a folders)
          by (eapply Permutation_in; [apply sortedPaths_perm | exact Hin]).
        destruct (@reported_path root t a Hwf HaL)
          as (ar & ksa & _ & Har & Ea & Hka & _).
        destruct (path_components_fold (path_join root ar) Hka) as [Ec _].
        destruct (search_area_components root Har) as (x & _ & Cx & _).
        rewrite Ea, Ec, Cx. intros Hnil.
        apply app_eq_nil in Hnil. destruct Hnil as [Hnil _].
        apply app_eq_nil in Hnil. destruct Hnil as [_ Hnil]. discriminate.
      - intros a [].
      - rewrite <- Hfinal. apply Hdel, HqL. }
    congruence.
Qed.

Lemma reported_folders_are_all_deleted_witness :
  let final :=
    deleteEmptyFolders (remove_unless []) sample_tree
      (map Res.path (findEmptyFolders "/srv" sample_tree)) in
  errors (snd final) = [] /\ findEmptyFolders "/srv" (fst final) = [].
Proof.
  exact (proj2 (@reported_folders_are_all_deleted "/srv" sample_tree
                  well_formed_sample_tree)).
Defined.


(** ** Sets *)

Section JsSetFacts.
Variable A : Type.
Variable same : A -> A -> bool.
Hypothesis same_sym : forall x y, same x y = same y x.
Hypothesis same_trans :
  forall x y z, same x y = true -> same y z = true -> same x z = true.

Lemma Set_has_same (s : list A) (x y : A) :
  same x y = true -> Set_has same s x = Set_has same s y.
Proof.
  intros H. unfold Set_has. induction s as [|z s IH]; [reflexivity|].
  simpl. rewrite IH. f_equal.
  destruct (same x z) eqn:E1, (same y z) eqn:E2; try reflexivity.
  - rewrite same_sym in H. rewrite (same_trans H E1) in E2. discriminate.
  - rewrite (same_trans H E2) in E1. discriminate.
Qed.

Lemma Set_has_add (s : list A) (x y : A) :
  Set_has same (Set_add same s y) x = Set_has same s x || same x y.
Proof.
  unfold Set_add. destruct (Set_has same s y) eqn:E.
  - destruct (same x y) eqn:Exy; [|now rewrite orb_false_r].
    now rewrite (Set_has_same s Exy), E.
  - unfold Set_has. rewrite existsb_app. simpl. now rewrite orb_false_r.
Qed.

Lemma Set_has_fold (l : list A) :
  forall (acc : list A) (x : A),
    Set_has same (fold_left (Set_add same) l acc) x
      = Set_has same acc x || Set_has same l x.
Proof.
  induction l as [|y l IH]; intros acc x; simpl.
  - now rewrite orb_false_r.
  - rewrite IH, Set_has_add, <- orb_assoc. reflexivity.
Qed.

Lemma Set_has_new (l : list A) (x : A) :
  Set_has same (new_Set same l) x = Set_has same l x.
Proof. unfold new_Set. now rewrite Set_has_fold. Qed.

Lemma Set_has_delete (s : list A) (x y : A) :
  Set_has same (Set_delete same s y) x = Set_has same s x && negb (same y x).
Proof.
  unfold Set_has, Set_delete. induction s as [|z s IH]; [reflexivity|].
  simpl. destruct (same y z) eqn:Eyz; simpl; rewrite IH.
  - destruct (same x z) eqn:Exz; simpl; [|reflexivity].
    rewrite (same_sym x z) in Exz.
    rewrite (same_trans Eyz Exz). simpl. now rewrite andb_false_r.
  - destruct (same x z) eqn:Exz; simpl; [|reflexivity].
    destruct (same y x) eqn:Eyx; simpl; [|reflexivity].
    rewrite (same_trans Eyx Exz) in Eyz. discriminate.
Qed.
End JsSetFacts.

Lemma sameValueZero_sym (x y : json) :
  Ignore.sameValueZero x y = Ignore.sameValueZero y x.
Proof.
  destruct x, y; simpl; try reflexivity.
  - now destruct b, b0.
  - apply Z.eqb_sym.
  - apply String.eqb_sym.
Qed.

Lemma sameValueZero_trans (x y z : json) :
  Ignore.sameValueZero x y = true -> Ignore.sameValueZero y z = true ->
  Ignore.sameValueZero x z = true.
Proof.
  destruct x, y; simpl; try discriminate; destruct z; simpl;
    try discriminate; try reflexivity.
  - destruct b, b0, b1; simpl; congruence.
  - rewrite !Z.eqb_eq. congruence.
  - rewrite !String.eqb_eq. congruence.
Qed.

Lemma string_eqb_trans (x y z : string) :
  (x =? y) = true -> (y =? z) = true -> (x =? z) = true.
Proof. rewrite !String.eqb_eq. congruence. Qed.

(** ** The result in the hands of the reporter *)

Lemma confidence_is_not_high (c : Confidence) :
  (confidence_string c =? "high") = false.
Proof. destruct c; reflexivity. Qed.

(** X14.  The confidences and statuses [analyzeResults] assigns are not
    the ones the reporter looks for: the filter of [printSummary] keeps
    no action, so that the summary always announces that there is none,
    whatever [likelyUnused] counts; and [getStatusEmoji] shows the
    question mark, never the wastebasket, for the status of an unused
    action. *)
Theorem printSummary_never_lists_an_action (results : Results) :
  Reporter.highConfidenceUnused results = [] /\
  Reporter.printSummary_listing results = Reporter.NoneFound /\
  Reporter.getStatusEmoji (status_string Unused) = Reporter.QuestionMark /\
  Reporter.getStatusEmoji (status_string Used) = Reporter.CheckMark.
Proof.
  assert (H : Reporter.highConfidenceUnused results = []).
  { unfold Reporter.highConfidenceUnused.
    induction (Res.actions results) as [|a l IH]; [reflexivity|].
    cbn [filter]. rewrite confidence_is_not_high. exact IH. }
  split; [exact H|]. split; [|split; reflexivity].
  unfold Reporter.printSummary_listing. rewrite H. reflexivity.
Qed.

(** ** The result in the hands of the interactive mode *)

Lemma entry_of_strings (kv : string * Action) :
  let e := entry_of kv in
  (status_string (Res.status e) =? "unused") = is_safe e /\
  (confidence_string (Res.confidence e) =? "safe-to-delete") = is_safe e /\
  (is_safe e = true -> Res.referenceCount e = 0 /\ Res.references e = []).
Proof.
  destruct kv as [k a]. unfold entry_of, is_safe. cbn.
  destruct (Act.references a) as [|r l]; cbn; auto.
  repeat split; discriminate.
Qed.

Lemma scan_entries (st : Scanner) (e : Res.Entry) :
  In e (Res.actions (analyzeResults st)) -> exists kv, e = entry_of kv.
Proof.
  rewrite analyzeResults_actions. intros H. apply js_sort_In in H.
  apply in_map_iff in H. destruct H as (kv & <- & _). exists kv. reflexivity.
Qed.

Lemma getFilteredUnmarkedActions_eq (ui : Interactive.InteractiveMode) :
  Interactive.getFilteredUnmarkedActions ui =
    filter (fun action =>
              if Ignore.isIgnored (Interactive.ignoreList ui)
                                  (Res.urlPath action)
                 || Set_has String.eqb (Interactive.selectedForDeletion ui)
                            (Res.urlPath action)
              then false
              else if Interactive.currentFilter ui =? "unused-only" then
                status_string (Res.status action) =? "unused"
              else if Interactive.currentFilter ui =? "safe-only" then
                confidence_string (Res.confidence action) =? "safe-to-delete"
              else true)
           (Res.actions (Interactive.results ui)).
Proof.
  unfold Interactive.getFilteredUnmarkedActions. apply filter_ext.
  intros action. cbv zeta. unfold Ignore.getIgnoredActions, Ignore.isIgnored.
  now rewrite (@Set_has_new json Ignore.sameValueZero sameValueZero_sym
                             sameValueZero_trans).
Qed.

(** X15.  On the result of a scan the filters [unused-only] and
    [safe-only] of the interactive mode offer the same actions, in the
    same order, whatever is marked or ignored; and an action they offer
    has no reference and is neither marked nor ignored. *)
Theorem unused_only_and_safe_only_coincide
        (st : Scanner) (folders : list Res.EmptyFolder)
        (selected : list string) (ignored : list json) :
  let ui filter :=
    Interactive.mkInteractiveMode (results_from st folders) selected ignored
                                  filter in
  Interactive.getFilteredUnmarkedActions (ui "unused-only")
    = Interactive.getFilteredUnmarkedActions (ui "safe-only") /\
  forall e,
    In e (Interactive.getFilteredUnmarkedActions (ui "safe-only")) ->
    Res.referenceCount e = 0 /\ Res.references e = [] /\
    Set_has String.eqb selected (Res.urlPath e) = false /\
    Ignore.isIgnored ignored (Res.urlPath e) = false.
Proof.
  intros ui. rewrite !getFilteredUnmarkedActions_eq. unfold ui.
  cbn [Interactive.results Interactive.selectedForDeletion
       Interactive.ignoreList Interactive.currentFilter results_from
       Res.actions].
  split.
  - apply filter_ext_in. intros e He.
    destruct (scan_entries st e He) as (kv & ->).
    destruct (entry_of_strings kv) as (E1 & E2 & _). cbv zeta in E1, E2.
    rewrite E1, E2. reflexivity.
  - intros e He. apply filter_In in He. destruct He as [He Hk].
    destruct (scan_entries st e He) as (kv & ->).
    destruct (entry_of_strings kv) as (_ & E2 & E3). cbv zeta in E2, E3.
    rewrite E2 in Hk.
    destruct (Ignore.isIgnored ignored _) eqn:Hi; [discriminate|].
    destruct (Set_has String.eqb selected _) eqn:Hm; [discriminate|].
    simpl in Hk. destruct (E3 Hk) as [R1 R2]. auto.
Qed.


(** ** [executeDelete] *)

Lemma filter_split_length (A : Type) (p : A -> bool) (l : list A) :
  List.length l
    = List.length (filter (fun x => negb (p x)) l) + List.length (filter p l).
Proof.
  induction l as [|x l IH]; [reflexivity|].
  simpl. destruct (p x); simpl; lia.
Qed.

Lemma confidence_string_safe (e : Res.Entry) :
  (confidence_string (Res.confidence e) =? "safe-to-delete") = is_safe e /\
  (confidence_string (Res.confidence e) =? "review-needed") = negb (is_safe e).
Proof. unfold is_safe. destruct (Res.confidence e); split; reflexivity. Qed.

Lemma update_results_summary (ui : Interactive.InteractiveMode) :
  let r := Interactive.results (Interactive.update_results ui) in
  Res.actions r
    = filter (fun a =>
                negb (Set_has String.eqb (Interactive.selectedForDeletion ui)
                              (Res.urlPath a)))
             (Res.actions (Interactive.results ui)) /\
  Res.totalActions (Res.summary r) = List.length (Res.actions r) /\
  Res.likelyUnused (Res.summary r)
    = List.length (filter is_safe (Res.actions r)) /\
  Res.used (Res.summary r)
    = List.length (filter (fun e => negb (is_safe e)) (Res.actions r)) /\
  Res.totalActions (Res.summary r)
    = Res.used (Res.summary r) + Res.likelyUnused (Res.summary r).
Proof.
  unfold Interactive.update_results.
  cbn [Interactive.results Res.actions Res.summary Res.totalActions
       Res.likelyUnused Res.used].
  set (actions := filter _ (Res.actions (Interactive.results ui))).
  assert (E1 : filter (fun a => confidence_string (Res.confidence a)
                                =? "safe-to-delete") actions
               = filter is_safe actions)
    by (apply filter_ext; intros a; apply confidence_string_safe).
  assert (E2 : filter (fun a => confidence_string (Res.confidence a)
                                =? "review-needed") actions
               = filter (fun e => negb (is_safe e)) actions)
    by (apply filter_ext; intros a; apply confidence_string_safe).
  rewrite E1, E2. repeat split. apply filter_split_length.
Qed.

Section ExecuteDeleteFacts.
Variable fs_remove : node -> string -> node * option string.
Variable root : string.

Lemma remove_files_count (ui : Interactive.InteractiveMode)
      (selected : list string) :
  forall t count errs t' count' errs',
    Interactive.remove_files fs_remove root ui selected t count errs
      = (t', Some (count', errs')) ->
    count' + List.length errs'
      <= count + List.length errs + List.length selected.
Proof.
  induction selected as [|u l IH]; intros t count errs t' count' errs' H;
    simpl in H.
  - inversion H; subst. simpl. lia.
  - destruct (Interactive.find_action ui u) as [a|]; [|discriminate].
    destruct (pathExists t (path_join root (Res.filePath a))).
    + destruct (fs_remove t (path_join root (Res.filePath a)))
        as [t1 [message|]]; apply IH in H; simpl in *;
        rewrite ?List.length_app in H; simpl in H; lia.
    + apply IH in H. simpl. lia.
Qed.

(** X16.  [executeDelete] changes the object only where it completes,
    and then brings the results up to date: the actions left are those
    that were not selected, in their order; the summary counts them, with
    [totalActions = used + likelyUnused]; the selection is empty; the
    files counted as deleted or failed are at most the selected ones.
    The list of empty folders is left as the scan made it. *)
Theorem executeDelete_brings_the_results_up_to_date
        (confirm confirmFolders : bool)
        (ui ui' : Interactive.InteractiveMode) (t t' : node)
        (e : Interactive.Ending) :
  Interactive.executeDelete fs_remove root confirm confirmFolders ui t
    = (ui', t', e) ->
  match e with
  | Interactive.Completed d =>
      let r := Interactive.results ui' in
      confirm = true /\
      Res.actions r
        = filter (fun a =>
                    negb (Set_has String.eqb
                            (Interactive.selectedForDeletion ui)
                            (Res.urlPath a)))
                 (Res.actions (Interactive.results ui)) /\
      Res.totalActions (Res.summary r) = List.length (Res.actions r) /\
      Res.likelyUnused (Res.summary r)
        = List.length (filter is_safe (Res.actions r)) /\
      Res.totalActions (Res.summary r)
        = Res.used (Res.summary r) + Res.likelyUnused (Res.summary r) /\
      Res.emptyFolders r = Res.emptyFolders (Interactive.results ui) /\
      Interactive.selectedForDeletion ui' = [] /\
      Interactive.deletedCount d + List.length (Interactive.errors d)
        <= List.length (Interactive.selectedForDeletion ui)
  | _ => ui' = ui
  end.
Proof.
  unfold Interactive.executeDelete. intros H.
  destruct (List.length (Interactive.selectedForDeletion ui) =? 0)%nat;
    [inversion H; reflexivity|].
  destruct (forallb _ (firstn 10 (Interactive.selectedForDeletion ui)));
    [|inversion H; reflexivity].
  destruct confirm; [|inversion H; reflexivity]. cbn [negb] in H.
  destruct (Interactive.remove_files fs_remove root ui
              (Interactive.selectedForDeletion ui) t 0 [])
    as [t1 [[count errs]|]] eqn:Hr; [|inversion H; reflexivity].
  apply remove_files_count in Hr. simpl in Hr.
  destruct (update_results_summary ui) as (U1 & U2 & U3 & _ & U5).
  cbv zeta in U1, U2, U3, U5.
  assert (Hgoal : forall fr,
             (Interactive.update_results ui, t',
              Interactive.Completed (Interactive.mkDeletion count errs fr))
             = (ui', t', e) ->
             match e with
             | Interactive.Completed d =>
                 let r := Interactive.results ui' in
                 true = true /\
                 Res.actions r
                   = filter (fun a =>
                               negb (Set_has String.eqb
                                       (Interactive.selectedForDeletion ui)
                                       (Res.urlPath a)))
                            (Res.actions (Interactive.results ui)) /\
                 Res.totalActions (Res.summary r)
                   = List.length (Res.actions r) /\
                 Res.likelyUnused (Res.summary r)
                   = List.length (filter is_safe (Res.actions r)) /\
                 Res.totalActions (Res.summary r)
                   = Res.used (Res.summary r) + Res.likelyUnused (Res.summary r) /\
                 Res.emptyFolders r
                   = Res.emptyFolders (Interactive.results ui) /\
                 Interactive.selectedForDeletion ui' = [] /\
                 Interactive.deletedCount d
                 + List.length (Interactive.errors d)
                   <= List.length (Interactive.selectedForDeletion ui)
             | _ => ui' = ui
             end).
  { intros fr E. inversion E; subst. cbv zeta.
    cbn [Interactive.deletedCount Interactive.errors].
    repeat split; try assumption; try reflexivity. }
  destruct ((0 <? List.length (findEmptyFolders root t1))%nat
            && confirmFolders).
  - destruct (deleteEmptyFolders fs_remove t1
                (map Res.path (findEmptyFolders root t1))) as [t2 fr].
    inversion H; subst. apply (Hgoal (Some fr)). reflexivity.
  - inversion H; subst. apply (Hgoal None). reflexivity.
Qed.
End ExecuteDeleteFacts.


Lemma executeDelete_brings_the_results_up_to_date_witness :
  let x :=
    Interactive.executeDelete (remove_unless []) "/srv/app" true true
                              sample_ui (tree sample_project) in
  map Res.urlPath (Res.actions (Interactive.results (fst (fst x))))
    = ["/api/v1/run"] /\
  Interactive.selectedForDeletion (fst (fst x)) = [].
Proof.
  cbv zeta.
  pose proof
    (@executeDelete_brings_the_results_up_to_date
       (remove_unless []) "/srv/app" true true sample_ui
       (fst (fst (Interactive.executeDelete (remove_unless []) "/srv/app"
                    true true sample_ui (tree sample_project))))
       (tree sample_project)
       (snd (fst (Interactive.executeDelete (remove_unless []) "/srv/app"
                    true true sample_ui (tree sample_project))))
       (snd (Interactive.executeDelete (remove_unless []) "/srv/app"
               true true sample_ui (tree sample_project)))) as H.
  assert (E : Interactive.executeDelete (remove_unless []) "/srv/app"
                true true sample_ui (tree sample_project)
              = (fst (fst (Interactive.executeDelete (remove_unless [])
                             "/srv/app" true true sample_ui
                             (tree sample_project))),
                 snd (fst (Interactive.executeDelete (remove_unless [])
                             "/srv/app" true true sample_ui
                             (tree sample_project))),
                 snd (Interactive.executeDelete (remove_unless [])
                        "/srv/app" true true sample_ui
                        (tree sample_project))))
    by (vm_compute; reflexivity).
  specialize (H E).
  change (snd (Interactive.executeDelete (remove_unless []) "/srv/app"
                 true true sample_ui (tree sample_project)))
    with (Interactive.Completed
            (Interactive.mkDeletion 1 []
               (Some (mkDeleteResults
                        ["/srv/app/app/api/old/a"; "/srv/app/app/api/old"]
                        [])))) in H.
  cbv beta iota zeta in H.
  destruct H as (_ & H2 & _ & _ & _ & _ & H7 & _).
  split; [|exact H7]. rewrite H2. vm_compute. reflexivity.
Defined.

(** ** The files [executeDelete] leaves *)

Lemma walk_prune_dir (cs : list string) :
  forall t cs' items',
    walk (prune t cs) cs' = Some (Dir items') ->
    exists items, walk t cs' = Some (Dir items).
Proof.
  induction cs as [|c cs IH]; intros t cs' items' H.
  - rewrite prune_nil in H. eauto.
  - destruct t as [|es]; [rewrite prune_File in H; eauto|].
    destruct cs' as [|c' rest']; [simpl; eauto|].
    destruct cs as [|c2 cs2].
    + rewrite prune_last in H. cbn [walk] in *.
      destruct (String.eqb_spec c' c) as [-> | Hne].
      * rewrite assoc_filter_same in H. discriminate.
      * rewrite assoc_filter_other in H; [eauto|].
        now apply String.eqb_neq.
    + rewrite prune_inner in H. cbn [walk] in *.
      pose proof (assoc_map_at c c' (fun n => prune n (c2 :: cs2)) es) as Em.
      cbv beta in Em. rewrite Em in H.
      destruct (String.eqb_spec c' c) as [-> | Hne]; [|eauto].
      destruct (assoc c es) as [child|]; [|discriminate].
      cbn [option_map] in H. exact (IH _ _ _ H).
Qed.

Section ExecuteDeleteFiles.
Variable denied : list string.
Variable root : string.

Lemma remove_files_keeps_file (ui : Interactive.InteractiveMode)
      (cs : list string) (selected : list string) :
  forall t count errs,
    walk t cs = Some File ->
    (forall u a,
        In u selected -> Interactive.find_action ui u = Some a ->
        path_components (path_join root (Res.filePath a)) <> cs /\
        forall items,
          resolve t (path_join root (Res.filePath a)) <> Some (Dir items)) ->
    walk (fst (Interactive.remove_files (remove_unless denied) root ui
                 selected t count errs)) cs = Some File.
Proof.
  induction selected as [|u l IH]; intros t count errs Hp Hsel; simpl;
    [exact Hp|].
  destruct (Interactive.find_action ui u) as [a|] eqn:Ea; [|exact Hp].
  destruct (Hsel u a (or_introl eq_refl) Ea) as [Hne Hnd].
  assert (Hrest : forall t1,
             (t1 = t \/
              t1 = prune t (path_components (path_join root (Res.filePath a)))) ->
             walk t1 cs = Some File /\
             forall u' a',
               In u' l -> Interactive.find_action ui u' = Some a' ->
               path_components (path_join root (Res.filePath a')) <> cs /\
               forall items,
                 resolve t1 (path_join root (Res.filePath a'))
                   <> Some (Dir items)).
  { intros t1 [-> | ->].
    - split; [exact Hp|]. intros u' a' Hu'. apply Hsel. right. exact Hu'.
    - split.
      + apply walk_prune_file; [exact Hp|]. intros rest ->.
        destruct rest as [|c rest]; [now rewrite app_nil_r in Hne|].
        rewrite walk_app in Hp.
        destruct (walk t (path_components (path_join root (Res.filePath a))))
          as [[|items]|] eqn:Ew; try discriminate.
        exact (Hnd items Ew).
      + intros u' a' Hu' Ea'.
        destruct (Hsel u' a' (or_intror Hu') Ea') as [H1 H2].
        split; [exact H1|]. intros items Hr. unfold resolve in Hr.
        apply walk_prune_dir in Hr. destruct Hr as (items0 & Hr).
        exact (H2 items0 Hr). }
  destruct (pathExists t (path_join root (Res.filePath a)));
    [|destruct (Hrest t (or_introl eq_refl)); apply IH; assumption].
  unfold remove_unless at 1.
  destruct (existsb (String.eqb (path_join root (Res.filePath a))) denied).
  - destruct (Hrest t (or_introl eq_refl)). apply IH; assumption.
  - destruct (Hrest _ (or_intror eq_refl)). apply IH; assumption.
Qed.

(** X17.  [executeDelete] removes no other file than the files of the
    selected actions: where the path of each selected action designates a
    regular file or nothing, a file that is not one of them is still
    there after the call, however the call ends and whether or not the
    empty folders are deleted. *)
Theorem executeDelete_removes_only_selected_files
        (confirm confirmFolders : bool) (ui : Interactive.InteractiveMode)
        (t : node) (p : string) :
  resolve t p = Some File ->
  (forall u a,
      In u (Interactive.selectedForDeletion ui) ->
      Interactive.find_action ui u = Some a ->
      path_components (path_join root (Res.filePath a)) <> path_components p /\
      forall items,
        resolve t (path_join root (Res.filePath a)) <> Some (Dir items)) ->
  resolve
    (snd (fst (Interactive.executeDelete (remove_unless denied) root
                 confirm confirmFolders ui t))) p = Some File.
Proof.
  intros Hp Hsel. unfold Interactive.executeDelete.
  destruct (List.length (Interactive.selectedForDeletion ui) =? 0)%nat;
    [exact Hp|].
  destruct (forallb _ (firstn 10 (Interactive.selectedForDeletion ui)));
    [|exact Hp].
  destruct confirm; [|exact Hp]. cbn [negb].
  pose proof (@remove_files_keeps_file ui (path_components p)
                (Interactive.selectedForDeletion ui) t 0 [] Hp Hsel) as Hk.
  destruct (Interactive.remove_files (remove_unless denied) root ui
              (Interactive.selectedForDeletion ui) t 0 [])
    as [t1 [[count errs]|]]; [|exact Hk].
  simpl in Hk.
  destruct ((0 <? List.length (findEmptyFolders root t1))%nat
            && confirmFolders); [|exact Hk].
  destruct (deleteEmptyFolders (remove_unless denied) t1
              (map Res.path (findEmptyFolders root t1))) as [t2 fr] eqn:Ed.
  cbn [fst snd].
  change t2 with (fst (t2, fr)). rewrite <- Ed.
  unfold resolve, deleteEmptyFolders. apply delete_fold_keeps_file. exact Hk.
Qed.
End ExecuteDeleteFiles.

Lemma executeDelete_removes_only_selected_files_witness :
  resolve
    (snd (fst (Interactive.executeDelete (remove_unless []) "/srv/app"
                 true true sample_ui (tree sample_project))))
    "/srv/app/app/api/v1/run.json" = Some File.
Proof.
  apply executeDelete_removes_only_selected_files; [reflexivity|].
  intros u a [<- | []] Ea. vm_compute in Ea. inversion Ea; subst a.
  split; [vm_compute; discriminate | intros items; vm_compute; discriminate].
Defined.


(** ** Marking and ignoring *)

Lemma isIgnored_add (s : list json) (u v : string) :
  Ignore.isIgnored (Set_add Ignore.sameValueZero s (JStr u)) v
    = Ignore.isIgnored s v || (v =? u).
Proof.
  unfold Ignore.isIgnored.
  now rewrite (@Set_has_add json Ignore.sameValueZero sameValueZero_sym
                            sameValueZero_trans).
Qed.

Lemma isIgnored_delete (s : list json) (u v : string) :
  Ignore.isIgnored (Set_delete Ignore.sameValueZero s (JStr u)) v
    = Ignore.isIgnored s v && negb (u =? v).
Proof.
  unfold Ignore.isIgnored.
  now rewrite (@Set_has_delete json Ignore.sameValueZero sameValueZero_sym
                               sameValueZero_trans).
Qed.

Lemma selected_add (s : list string) (u v : string) :
  Set_has String.eqb (Set_add String.eqb s u) v
    = Set_has String.eqb s v || (v =? u).
Proof.
  now rewrite (@Set_has_add string String.eqb String.eqb_sym
                            string_eqb_trans).
Qed.

Lemma selected_delete (s : list string) (u v : string) :
  Set_has String.eqb (Set_delete String.eqb s u) v
    = Set_has String.eqb s v && negb (u =? v).
Proof.
  now rewrite (@Set_has_delete string String.eqb String.eqb_sym
                               string_eqb_trans).
Qed.

Section HandlerFacts.
Variable fs_writeJson : Ignore.stored -> json -> Ignore.stored * option string.
Variable now : string.
Variable action : Res.Entry.
Variable ui : Interactive.InteractiveMode.
Variable w : Ignore.World.

Lemma handleLeftArrow_marks (v : string) :
  let ui' := fst (Interactive.handleLeftArrow fs_writeJson now action ui w) in
  let u := Res.urlPath action in
  marked ui' v = (if ignored ui u then marked ui v
                  else marked ui v && negb (u =? v)) /\
  ignored ui' v = (if ignored ui u then ignored ui v
                   else ignored ui v || (v =? u)).
Proof.
  unfold Interactive.handleLeftArrow, Ignore.addToIgnore, ignored, marked.
  destruct (Ignore.isIgnored (Interactive.ignoreList ui) (Res.urlPath action));
    cbn [negb fst Interactive.selectedForDeletion Interactive.ignoreList];
    [auto|].
  now rewrite selected_delete, isIgnored_add.
Qed.

Lemma handleRightArrow_marks (v : string) :
  let ui' := fst (Interactive.handleRightArrow fs_writeJson now action ui w) in
  let u := Res.urlPath action in
  marked ui' v = (if marked ui u then marked ui v
                  else marked ui v || (v =? u)) /\
  ignored ui' v = (if marked ui u then ignored ui v
                   else ignored ui v && negb (u =? v)).
Proof.
  unfold Interactive.handleRightArrow, Ignore.removeFromIgnore, ignored,
    marked.
  destruct (Set_has String.eqb (Interactive.selectedForDeletion ui)
                    (Res.urlPath action));
    cbn [negb fst Interactive.selectedForDeletion Interactive.ignoreList];
    [auto|].
  now rewrite selected_add, isIgnored_delete.
Qed.

Lemma handleSpaceReset_marks (v : string) :
  let ui' := fst (Interactive.handleSpaceReset fs_writeJson now action ui w) in
  let u := Res.urlPath action in
  marked ui' v = (if marked ui u || ignored ui u
                  then marked ui v && negb (u =? v) else marked ui v) /\
  ignored ui' v = (if marked ui u || ignored ui u
                   then ignored ui v && negb (u =? v) else ignored ui v).
Proof.
  unfold Interactive.handleSpaceReset, Ignore.removeFromIgnore, ignored,
    marked.
  destruct (Set_has String.eqb (Interactive.selectedForDeletion ui)
                    (Res.urlPath action)
            || Ignore.isIgnored (Interactive.ignoreList ui)
                                (Res.urlPath action));
    cbn [fst Interactive.selectedForDeletion Interactive.ignoreList];
    [|auto].
  now rewrite selected_delete, isIgnored_delete.
Qed.

(** X18.  The three keys keep marking and ignoring apart.  From a
    state in which no action is both marked and ignored: after the left
    arrow the action under the cursor is ignored and not marked, after
    the right arrow it is marked and not ignored, after the space bar it
    is neither; no other action changes, and in the new state again no
    action is both marked and ignored. *)
Theorem keys_keep_marked_and_ignored_apart :
  marks_apart ui ->
  let u := Res.urlPath action in
  let left := fst (Interactive.handleLeftArrow fs_writeJson now action ui w) in
  let right := fst (Interactive.handleRightArrow fs_writeJson now action ui w) in
  let space := fst (Interactive.handleSpaceReset fs_writeJson now action ui w) in
  (marks_apart left /\ ignored left u = true /\ marked left u = false) /\
  (marks_apart right /\ marked right u = true /\ ignored right u = false) /\
  (marks_apart space /\ marked space u = false /\ ignored space u = false) /\
  (forall v, v <> u ->
     (marked left v = marked ui v /\ ignored left v = ignored ui v) /\
     (marked right v = marked ui v /\ ignored right v = ignored ui v) /\
     (marked space v = marked ui v /\ ignored space v = ignored ui v)).
Proof.
  intros Hinv u left right space.
  assert (Hu : forall v, (u =? v) = (v =? u)) by (intros; apply String.eqb_sym).
  repeat split.
  - intros v. destruct (handleLeftArrow_marks v) as [E1 E2].
    fold left u in E1, E2. rewrite E1, E2.
    pose proof (Hinv v) as Hv. pose proof (Hinv u) as Huu.
    destruct (ignored ui u), (marked ui v), (ignored ui v);
      rewrite ?Hu; destruct (String.eqb_spec v u); simpl; auto;
      try discriminate; try (intros _; apply Hv; reflexivity).
  - destruct (handleLeftArrow_marks u) as [_ E2]. fold left u in E2.
    rewrite E2, String.eqb_refl. now destruct (ignored ui u).
  - destruct (handleLeftArrow_marks u) as [E1 _]. fold left u in E1.
    rewrite E1, String.eqb_refl. pose proof (Hinv u) as Huu.
    destruct (ignored ui u), (marked ui u); simpl; auto.
  - intros v. destruct (handleRightArrow_marks v) as [E1 E2].
    fold right u in E1, E2. rewrite E1, E2.
    pose proof (Hinv v) as Hv.
    destruct (marked ui u), (marked ui v), (ignored ui v);
      rewrite ?Hu; destruct (String.eqb_spec v u); simpl; auto;
      try discriminate; try (intros _; apply Hv; reflexivity).
  - destruct (handleRightArrow_marks u) as [E1 _]. fold right u in E1.
    rewrite E1, String.eqb_refl. now destruct (marked ui u).
  - destruct (handleRightArrow_marks u) as [_ E2]. fold right u in E2.
    rewrite E2, String.eqb_refl. pose proof (Hinv u) as Huu.
    destruct (marked ui u), (ignored ui u); simpl; auto.
  - intros v. destruct (handleSpaceReset_marks v) as [E1 E2].
    fold space u in E1, E2. rewrite E1, E2.
    pose proof (Hinv v) as Hv.
    destruct (marked ui u || ignored ui u), (marked ui v), (ignored ui v);
      rewrite ?Hu; destruct (String.eqb_spec v u); simpl; auto;
      try discriminate; try (intros _; apply Hv; reflexivity).
  - destruct (handleSpaceReset_marks u) as [E1 _]. fold space u in E1.
    rewrite E1, String.eqb_refl.
    destruct (marked ui u), (ignored ui u); reflexivity.
  - destruct (handleSpaceReset_marks u) as [_ E2]. fold space u in E2.
    rewrite E2, String.eqb_refl.
    destruct (marked ui u), (ignored ui u); reflexivity.
  - destruct (handleLeftArrow_marks v) as [E1 _]. fold left u in E1.
    rewrite E1, Hu. destruct (String.eqb_spec v u); [contradiction|].
    destruct (ignored ui u); [reflexivity | apply andb_true_r].
  - destruct (handleLeftArrow_marks v) as [_ E2]. fold left u in E2.
    rewrite E2. destruct (String.eqb_spec v u); [contradiction|].
    destruct (ignored ui u); [reflexivity | apply orb_false_r].
  - destruct (handleRightArrow_marks v) as [E1 _]. fold right u in E1.
    rewrite E1. destruct (String.eqb_spec v u); [contradiction|].
    destruct (marked ui u); [reflexivity | apply orb_false_r].
  - destruct (handleRightArrow_marks v) as [_ E2]. fold right u in E2.
    rewrite E2, Hu. destruct (String.eqb_spec v u); [contradiction|].
    destruct (marked ui u); [reflexivity | apply andb_true_r].
  - destruct (handleSpaceReset_marks v) as [E1 _]. fold space u in E1.
    rewrite E1, Hu. destruct (String.eqb_spec v u); [contradiction|].
    destruct (marked ui u || ignored ui u); [apply andb_true_r | reflexivity].
  - destruct (handleSpaceReset_marks v) as [_ E2]. fold space u in E2.
    rewrite E2, Hu. destruct (String.eqb_spec v u); [contradiction|].
    destruct (marked ui u || ignored ui u); [apply andb_true_r | reflexivity].
Qed.
End HandlerFacts.


Lemma keys_keep_marked_and_ignored_apart_witness :
  let action :=
    Res.mkEntry "/api/v1/idle" "app/api/v1/idle.json" Unused SafeToDelete
                0 [] JNull in
  let ui :=
    Interactive.new_InteractiveMode
      (Res.mkResults (Res.mkSummary 1 0 0 1) [action] []) in
  marked (fst (Interactive.handleRightArrow (Ignore.write_if true)
                 "2024-05-01T10:00:00.000Z" action ui
                 (Ignore.mkWorld Ignore.Absent [])))
         "/api/v1/idle" = true.
Proof.
  cbv zeta.
  refine (proj1 (proj2 (proj1 (proj2
            (@keys_keep_marked_and_ignored_apart
               (Ignore.write_if true) "2024-05-01T10:00:00.000Z" _ _ _ _))))).
  intros u H. simpl in H. discriminate H.
Defined.

(** ** The ignore list from one session to the next *)

Lemma new_Set_distinct (l : list json) :
  forall acc,
    distinct_values l ->
    (forall a b, In a acc -> In b l -> Ignore.sameValueZero b a = false) ->
    fold_left (Set_add Ignore.sameValueZero) l acc = acc ++ l.
Proof.
  induction l as [|y l IH]; intros acc Hd Hacc; simpl.
  - now rewrite app_nil_r.
  - inversion Hd as [|? ? Hy Hl]; subst.
    assert (Hnot : Set_has Ignore.sameValueZero acc y = false).
    { unfold Set_has. apply not_true_is_false. intros H.
      apply existsb_exists in H. destruct H as (a & Ha & Hs).
      rewrite (Hacc a y Ha (or_introl eq_refl)) in Hs. discriminate. }
    unfold Set_add at 2. rewrite Hnot, IH, <- app_assoc; [reflexivity | exact Hl |].
    intros a b Ha Hb. apply in_app_iff in Ha. destruct Ha as [Ha | [<- | []]].
    + apply Hacc; [exact Ha | right; exact Hb].
    + rewrite Forall_forall in Hy. rewrite sameValueZero_sym. apply Hy, Hb.
Qed.

Lemma distinct_values_add (s : list json) (x : json) :
  distinct_values s -> distinct_values (Set_add Ignore.sameValueZero s x).
Proof.
  unfold Set_add. destruct (Set_has Ignore.sameValueZero s x) eqn:E; [auto|].
  intros H. induction H as [|a l Ha Hl IH]; simpl.
  - constructor; constructor.
  - simpl in E. apply orb_false_iff in E. destruct E as [E1 E2].
    constructor; [|apply IH, E2].
    apply Forall_app. split; [exact Ha|].
    constructor; [|constructor]. now rewrite sameValueZero_sym.
Qed.

Lemma distinct_values_delete (s : list json) (x : json) :
  distinct_values s -> distinct_values (Set_delete Ignore.sameValueZero s x).
Proof.
  unfold Set_delete. intros H. induction H as [|a l Ha Hl IH]; simpl.
  - constructor.
  - destruct (Ignore.sameValueZero x a); simpl; [exact IH|].
    constructor; [|exact IH].
    rewrite Forall_forall in *. intros b Hb. apply filter_In in Hb.
    apply Ha. tauto.
Qed.

Section RestartFacts.
Variable fs_writeJson : Ignore.stored -> json -> Ignore.stored * option string.

Lemma load_after_save (now : string) (s s0 : list json) (w : Ignore.World) :
  distinct_values s ->
  (forall data, fs_writeJson (Ignore.file w) data = (Ignore.Stored data, None)) ->
  let w' := Ignore.saveIgnoreList fs_writeJson now s w in
  Ignore.loadIgnoreList s0 w' = (s, w') /\
  Ignore.stderr w' = Ignore.stderr w.
Proof.
  intros Hd Hw. unfold Ignore.saveIgnoreList. rewrite Hw.
  unfold Ignore.loadIgnoreList. cbn.
  split; [|reflexivity]. f_equal. unfold new_Set.
  rewrite new_Set_distinct; [reflexivity | exact Hd |].
  intros a b [].
Qed.

(** X19.  What is ignored in one session is ignored in the next.  Where
    the file can be written, the list a new [IgnoreList] loads after
    [addToIgnore] or [removeFromIgnore] is the very set the old object
    holds, with the action ignored, respectively not ignored; and nothing
    is written on the console. *)
Theorem ignore_list_survives_a_restart
        (now u : string) (s s0 : list json) (w : Ignore.World) :
  distinct_values s ->
  (forall old data, fs_writeJson old data = (Ignore.Stored data, None)) ->
  let added := Ignore.addToIgnore fs_writeJson now u s w in
  let removed := Ignore.removeFromIgnore fs_writeJson now u s w in
  (Ignore.loadIgnoreList s0 (snd added) = added /\
   Ignore.isIgnored (fst added) u = true /\
   Ignore.stderr (snd added) = Ignore.stderr w) /\
  (Ignore.loadIgnoreList s0 (snd removed) = removed /\
   Ignore.isIgnored (fst removed) u = false /\
   Ignore.stderr (snd removed) = Ignore.stderr w).
Proof.
  intros Hd Hw added removed. split.
  - destruct (@load_after_save now (Set_add Ignore.sameValueZero s (JStr u))
                s0 w (distinct_values_add (JStr u) Hd) (Hw (Ignore.file w)))
      as [H1 H2].
    split; [exact H1|]. split; [|exact H2].
    unfold added, Ignore.addToIgnore. cbn [fst].
    now rewrite isIgnored_add, String.eqb_refl, orb_true_r.
  - destruct (@load_after_save now (Set_delete Ignore.sameValueZero s (JStr u))
                s0 w (distinct_values_delete (JStr u) Hd)
                (Hw (Ignore.file w)))
      as [H1 H2].
    split; [exact H1|]. split; [|exact H2].
    unfold removed, Ignore.removeFromIgnore. cbn [fst].
    now rewrite isIgnored_delete, String.eqb_refl, andb_false_r.
Qed.
End RestartFacts.

Lemma ignore_list_survives_a_restart_witness :
  let added :=
    Ignore.addToIgnore (Ignore.write_if true) "2024-05-01T10:00:00.000Z"
                       "/api/v1/idle" [JStr "/api/v1/old"]
                       (Ignore.mkWorld Ignore.Garbled []) in
  Ignore.loadIgnoreList [] (snd added) = added /\
  Ignore.isIgnored (fst added) "/api/v1/idle" = true.
Proof.
  cbv zeta.
  destruct (@ignore_list_survives_a_restart (Ignore.write_if true)
              "2024-05-01T10:00:00.000Z" "/api/v1/idle"
              [JStr "/api/v1/old"] [] (Ignore.mkWorld Ignore.Garbled []))
    as [(H1 & H2 & _) _].
  - repeat constructor.
  - intros old data. reflexivity.
  - split; [exact H1 | exact H2].
Defined.


(** ** References that are found *)

Lemma writes_ext (A : Type) (m m' : M A) (evs : list event) (o : outcome A) :
  (forall st, m st = m' st) -> writes m evs o -> writes m' evs o.
Proof. intros E H st. rewrite <- E. apply H. Qed.

Lemma safe_ext (A : Type) (m m' : M A) :
  (forall st, m st = m' st) -> safe m -> safe m'.
Proof.
  intros E (evs & a & H). exists evs, a.
  exact (@writes_ext A m m' evs (Normal a) E H).
Qed.

Section Records.
Variable ev : event.

Lemma records_ext (A : Type) (m m' : M A) :
  (forall st, m st = m' st) -> records ev m -> records ev m'.
Proof.
  intros E (evs & a & H & Hin). exists evs, a.
  split; [exact (@writes_ext A m m' evs (Normal a) E H) | exact Hin].
Qed.

Lemma records_addReference (p file : string) (t : RefType) :
  ev = (p, file, t) -> records ev (addReference p file t).
Proof.
  intros ->. exists [(p, file, t)], tt.
  split; [intros st; reflexivity | left; reflexivity].
Qed.

Lemma records_bind_l (A B : Type) (m : M A) (f : A -> M B) :
  records ev m -> (forall a, safe (f a)) -> records ev (bind m f).
Proof.
  intros (e1 & a & H1 & Hin) Hf. destruct (Hf a) as (e2 & b & H2).
  exists (e1 ++ e2), b. split.
  - intros st. unfold bind. rewrite H1, H2. unfold run_events.
    now rewrite fold_left_app.
  - apply in_app_iff. left. exact Hin.
Qed.

Lemma records_bind_r (A B : Type) (m : M A) (f : A -> M B) :
  safe m -> (forall a, records ev (f a)) -> records ev (bind m f).
Proof.
  intros (e1 & a & H1) Hf. destruct (Hf a) as (e2 & b & H2 & Hin).
  exists (e1 ++ e2), b. split.
  - intros st. unfold bind. rewrite H1, H2. unfold run_events.
    now rewrite fold_left_app.
  - apply in_app_iff. right. exact Hin.
Qed.

Lemma records_forEach (A : Type) (l : list A) (body : A -> M unit) (x : A) :
  In x l -> records ev (body x) ->
  (forall y, In y l -> safe (body y)) ->
  records ev (forEach l body).
Proof.
  induction l as [|y l IH]; intros Hx Hr Hs; [destruct Hx|].
  cbn [forEach]. destruct Hx as [-> | Hx].
  - apply records_bind_l; [exact Hr|]. intros _.
    apply safe_forEach. intros z Hz. apply Hs. right. exact Hz.
  - apply records_bind_r; [apply Hs; left; reflexivity|]. intros _.
    apply IH; [exact Hx | exact Hr |].
    intros z Hz. apply Hs. right. exact Hz.
Qed.

Lemma records_try_catch (A : Type) (m : M A) (h : exn -> M A) :
  records ev m -> records ev (try_catch m h).
Proof.
  intros (evs & a & H & Hin). exists evs, a. split; [|exact Hin].
  intros st. unfold try_catch. now rewrite H.
Qed.
End Records.

(** A reference that is recorded stays in the lookup. *)
Lemma run_events_lookup (evs : list event) :
  forall (st : Scanner) (p file : string) (t : RefType),
    In (p, file, t) evs ->
    In (mkReference (path_relative (projectRoot st) file) t p)
       (lookup_or_nil (references (run_events evs st)) (normalizePath p)).
Proof.
  assert (Hmono : forall (l : list event) (st : Scanner) (k : string)
                         (r : Reference),
             In r (lookup_or_nil (references st) k) ->
             In r (lookup_or_nil (references (run_events l st)) k)).
  { induction l as [|[[p f] t] l IH]; intros st k r H; [exact H|].
    apply IH. rewrite lookup_or_nil_record.
    destruct (k =? normalizePath p); [|exact H].
    apply in_app_iff. left. exact H. }
  induction evs as [|[[p0 f0] t0] evs IH]; intros st p file t H;
    [destruct H|].
  destruct H as [E | H].
  - inversion E; subst.
    change (run_events ((p, file, t) :: evs) st)
      with (run_events evs (record st (p, file, t))).
    apply Hmono. rewrite lookup_or_nil_record, String.eqb_refl.
    apply in_app_iff. right. left. reflexivity.
  - change (run_events ((p0, f0, t0) :: evs) st)
      with (run_events evs (record st (p0, f0, t0))).
    destruct (record_fields st (p0, f0, t0)) as (Hroot & _).
    rewrite <- Hroot. apply IH, H.
Qed.

(** A recorded reference to an indexed action makes it a used action
    of the result. *)
Lemma recorded_reference_is_used (fs : FileSystem) (root f : string)
      (p file : string) (t : RefType) (a0 : Action) :
  records (p, file, t) (findReferences fs) ->
  In f (glob_actions fs) ->
  declared root fs f = Some (normalizePath p, a0) ->
  exists r e,
    snd (scan fs (new_Scanner root)) = Normal r /\
    In e (Res.actions r) /\
    Res.urlPath e = normalizePath p /\
    Res.status e = Used /\ Res.confidence e = ReviewNeeded /\
    In (mkReference (path_relative root file) t p) (Res.references e).
Proof.
  intros (evs & [] & Hw & Hin) Hf Hd.
  set (st1 := fold_left (discover_file fs) (glob_actions fs) (new_Scanner root)).
  set (st := run_events evs st1).
  pose proof (scan_eq (new_Scanner root) Hw) as Hscan. cbv zeta in Hscan.
  fold st1 st in Hscan.
  destruct (discovered_index fs root) as (Hroot & HR & Hnd & Hi).
  fold st1 in Hroot, HR, Hnd, Hi.
  destruct (discover_fold_fields fs (glob_actions fs) (new_Scanner root))
    as (_ & Hidx & _). fold st1 in Hidx. simpl in Hidx.
  assert (Hkey1 : In (normalizePath p) (map_keys (serverActions st1))).
  { rewrite Hidx. eapply keys_fold_apply_set; [exact Hf | exact Hd]. }
  destruct (run_events_fields evs st1) as (_ & K & _). fold st in K.
  assert (Hkey : In (normalizePath p) (map_keys (serverActions st)))
    by (rewrite K; exact Hkey1).
  unfold map_keys in Hkey. apply in_map_iff in Hkey.
  destruct Hkey as ([k a] & Ek & Hka). simpl in Ek. subst k.
  destruct (@run_events_attached evs st1) as [HJ _].
  { intros k b Hb. apply map_get_In in Hb.
    rewrite Forall_forall in Hi. destruct (Hi _ Hb) as [_ E]. simpl in E.
    rewrite E. unfold lookup_or_nil. rewrite HR. reflexivity. }
  { intros k. unfold lookup_or_nil. rewrite HR. constructor. }
  fold st in HJ.
  assert (Hget : map_get (serverActions st) (normalizePath p) = Some a).
  { apply In_map_get; [|exact Hka]. rewrite <- K in Hnd. exact Hnd. }
  pose proof (HJ _ _ Hget) as Hrefs.
  pose proof (@run_events_lookup evs st1 p file t Hin) as Hl.
  fold st in Hl. rewrite Hroot, <- Hrefs in Hl.
  exists (result_of fs st), (entry_of (normalizePath p, a)).
  rewrite Hscan. split; [reflexivity|]. split.
  - unfold result_of. cbn [Res.actions]. rewrite analyzeResults_actions.
    apply js_sort_In, in_map. exact Hka.
  - unfold entry_of. cbn [fst snd Res.urlPath Res.status Res.confidence
                          Res.references].
    destruct (Act.references a) as [|r0 l0]; [destruct Hl|].
    repeat split; try reflexivity. exact Hl.
Qed.


(** ** An attribute of a markup file *)

Lemma lit_match_app (A : Type) (l : string) :
  forall (s : string) (cap : option string)
         (k : string -> option string -> option A),
    match_k (lit l) (l ++ s) cap k = k s cap.
Proof.
  induction l as [|c l IH]; intros s cap k; [reflexivity|].
  cbn [lit append match_k]. rewrite Ascii.eqb_refl. apply IH.
Qed.

Lemma lit_no_match (A : Type) (l s : string) (cap : option string)
      (k : string -> option string -> option A) :
  String.prefix l s = false -> match_k (lit l) s cap k = None.
Proof.
  intros H. destruct (match_k (lit l) s cap k) as [a|] eqn:E; [|reflexivity].
  apply lit_match in E. destruct E as (s2 & -> & _).
  rewrite prefix_app in H. discriminate.
Qed.

(** The greedy run stops at the first character outside the class. *)
Lemma star_k_run (A : Type) (p : ascii -> bool) (v : string) (c : ascii)
      (rest : string) (k : string -> option A) (a : A) :
  all_chars p v = true -> p c = false ->
  k (String c rest) = Some a ->
  star_k p (v ++ String c rest) k = Some a.
Proof.
  intros Hv Hc Hk. induction v as [|x v IH]; simpl.
  - now rewrite Hc.
  - simpl in Hv. apply andb_true_iff in Hv. destruct Hv as [Hx Hv].
    now rewrite Hx, (IH Hv).
Qed.

Lemma quote2_not (c : ascii) : quote2 c = true -> not_quote2 c = false.
Proof. unfold not_quote2. now intros ->. Qed.

(** The pattern of an attribute matches the text of the attribute, and
    captures its value. *)
Lemma exec_at_attribute (name : string) (q q' : ascii) (v rest : string) :
  quote2 q = true -> quote2 q' = true ->
  v <> "" -> all_chars not_quote2 v = true ->
  exec_at (attr_re name) (attribute name q v q' rest) = Some (rest, Some v).
Proof.
  intros Hq Hq' Hne Hv. unfold exec_at, attr_re, attribute.
  cbn [seqs match_k]. rewrite lit_match_app.
  rewrite (lit_match_app "="). cbn [match_k]. rewrite Hq.
  destruct v as [|c v]; [congruence|].
  cbn [all_chars] in Hv. apply andb_true_iff in Hv. destruct Hv as [Hc Hv].
  cbn [append]. rewrite Hc.
  erewrite star_k_run; [reflexivity | exact Hv | apply quote2_not, Hq' |].
  cbn [match_k]. rewrite Hq'. f_equal. f_equal. f_equal.
  change (String c (v ++ String q' rest))
    with ((String c v ++ String q' rest)%string).
  apply take_app_exact.
Qed.

Lemma attribute_app (name : string) (q q' : ascii) (v rest : string) :
  attribute name q v q' rest = (attribute name q v q' "" ++ rest)%string.
Proof.
  unfold attribute. rewrite !string_app_assoc. cbn [append].
  now rewrite string_app_assoc.
Qed.

(** Where the first character of a pattern does not occur again in it,
    an occurrence cannot begin before the pattern and end in it. *)
Lemma prefix_stops (a : ascii) (q : string) :
  forall y z,
    all_chars (fun c => negb (Ascii.eqb a c)) q = true ->
    String.prefix q (y ++ String a z) = true ->
    String.prefix q y = true.
Proof.
  induction q as [|b q IH]; intros y z Hq H; [apply prefix_nil|].
  cbn [all_chars] in Hq. apply andb_true_iff in Hq. destruct Hq as [Hb Hq].
  destruct y as [|c y].
  - change (("" ++ String a z)%string) with (String a z) in H.
    rewrite prefix_cons in H. apply andb_true_iff in H. destruct H as [H _].
    rewrite Ascii.eqb_sym, H in Hb. discriminate.
  - change ((String c y ++ String a z)%string)
      with (String c (y ++ String a z)%string) in H.
    rewrite prefix_cons in *. apply andb_true_iff in H. destruct H as [H1 H2].
    now rewrite H1, (IH _ _ Hq H2).
Qed.

Lemma match_all_from_unfold (r : regex) (s : string) :
  match_all_from r s 0 =
    match exec_at r s with
    | Some (rest, _) =>
        let len := String.length s - String.length rest in
        take len s ::
          match s with
          | EmptyString => []
          | String _ s' => match_all_from r s' (len - 1)
          end
    | None =>
        match s with
        | EmptyString => []
        | String _ s' => match_all_from r s' 0
        end
    end.
Proof. destruct s; reflexivity. Qed.

Lemma match_all_from_skip (r : regex) (x rest : string) :
  match_all_from r (x ++ rest) (String.length x) = match_all_from r rest 0.
Proof.
  induction x as [|c x IH]; [reflexivity|]. simpl. exact IH.
Qed.

Lemma match_all_from_found (r : regex) (c : ascii) (x rest : string)
      (cap : option string) :
  exec_at r (String c x ++ rest) = Some (rest, cap) ->
  match_all_from r (String c x ++ rest) 0
    = String c x :: match_all_from r rest 0.
Proof.
  intros E. rewrite match_all_from_unfold, E. cbv zeta.
  rewrite take_app_exact. f_equal.
  change ((String c x ++ rest)%string) with (String c (x ++ rest)%string).
  cbv beta iota.
  replace (String.length (String c (x ++ rest)) - String.length rest - 1)
    with (String.length x)
    by (cbn [String.length]; rewrite length_app; lia).
  apply match_all_from_skip.
Qed.

(** The leftmost attribute of a text is the first match. *)
Lemma match_all_attribute (a : ascii) (name' pre : string) (q q' : ascii)
      (v rest : string) :
  let name := String a name' in
  all_chars (fun c => negb (Ascii.eqb a c)) (name' ++ "=") = true ->
  includes pre (name ++ "=") = false ->
  quote2 q = true -> quote2 q' = true ->
  v <> "" -> all_chars not_quote2 v = true ->
  match_all (attr_re name) (pre ++ attribute name q v q' rest)
    = attribute name q v q' "" :: match_all (attr_re name) rest.
Proof.
  intros name Hfresh Hpre Hq Hq' Hne Hv. unfold match_all.
  induction pre as [|c pre IH].
  - change (("" ++ attribute name q v q' rest)%string)
      with (attribute name q v q' rest).
    pose proof (@exec_at_attribute name q q' v rest Hq Hq' Hne Hv) as E.
    rewrite (attribute_app name q q' v rest) in *.
    unfold attribute at 1 in E. unfold attribute at 1 2.
    unfold name at 1 in E. unfold name at 1 3.
    cbn [append] in *.
    exact (match_all_from_found _ _ _ E).
  - rewrite includes_unfold in Hpre.
    destruct (String.prefix (name ++ "=") (String c pre)) eqn:Hp;
      [discriminate|].
    change ((String c pre ++ attribute name q v q' rest)%string)
      with (String c (pre ++ attribute name q v q' rest)%string).
    rewrite match_all_from_unfold.
    assert (Hnone : exec_at (attr_re name)
                      (String c (pre ++ attribute name q v q' rest)) = None).
    { unfold exec_at, attr_re. cbn [seqs match_k].
      destruct (match_k (lit name) _ None _) as [x|] eqn:E; [|reflexivity].
      exfalso. apply lit_match in E. destruct E as (s2 & E1 & E2).
      apply lit_match in E2. destruct E2 as (s3 & -> & _).
      unfold name in E1. cbn [append] in E1. inversion E1 as [[Ec Ey]].
      assert (Hb2 : String.prefix (name' ++ "=")
                      (pre ++ attribute name q v q' rest) = true).
      { unfold name. rewrite Ey.
        change (String "=" s3) with (("=" ++ s3)%string).
        rewrite <- string_app_assoc. apply prefix_app. }
      unfold attribute, name in Hb2. cbn [append] in Hb2.
      apply (@prefix_stops a (name' ++ "=") pre _ Hfresh) in Hb2.
      unfold name in Hp. cbn [append] in Hp.
      rewrite prefix_cons, Hb2, Ec, Ascii.eqb_refl in Hp. discriminate. }
    rewrite Hnone. apply IH, Hpre.
Qed.


Lemma exec_attribute (name : string) (q q' : ascii) (v : string) :
  quote2 q = true -> quote2 q' = true ->
  v <> "" -> all_chars not_quote2 v = true ->
  exec (attr_re name) (attribute name q v q' "")
    = Some (attribute name q v q' "", Some v).
Proof.
  intros Hq Hq' Hne Hv.
  rewrite exec_unfold, (@exec_at_attribute name q q' v "" Hq Hq' Hne Hv).
  cbn [String.length]. now rewrite Nat.sub_0_r, take_all.
Qed.

(** The loop over the matches of an attribute pattern records the value
    of an attribute that is among the matches. *)
Lemma records_attribute_loop (name : string) (t : RefType)
      (content file : string) (q q' : ascii) (v : string) :
  has_group (attr_re name) = true ->
  quote2 q = true -> quote2 q' = true ->
  v <> "" -> all_chars not_quote2 v = true ->
  In (attribute name q v q' "") (match_all (attr_re name) content) ->
  records (v, file, t)
    (forEach (match_all (attr_re name) content) (fun m =>
       url <- group1 (attr_re name) m ;; addReference url file t)).
Proof.
  intros Hg Hq Hq' Hne Hv Hin.
  apply (@records_forEach (v, file, t) string _ _ (attribute name q v q' ""));
    [exact Hin | |].
  - unfold group1. rewrite (@exec_attribute name q q' v Hq Hq' Hne Hv).
    apply records_ext with (m := addReference v file t);
      [intros st; reflexivity|].
    now apply records_addReference.
  - intros m Hm. apply safe_bind.
    + eapply safe_group1; [exact Hg | exact Hm].
    + intros url. apply safe_addReference.
Qed.

(** X20.  An action that a markup file names in a [url] or an [action]
    attribute is never reported as unused.  Where the text before the
    attribute holds no other start of such an attribute, the value is
    between two quotes, is not empty and holds no quote, and the value
    normalizes to the key of an action file, the scan returns the action
    as used, for review, with the reference among its references. *)
Theorem action_named_in_markup_is_used
        (fs : FileSystem) (root file f : string) (name : string) (t : RefType)
        (pre v rest : string) (q q' : ascii) (a0 : Action) :
  In (name, t) [("url", HtmlUrl); ("action", HtmlAction)] ->
  In file (glob_markup fs) ->
  readFile fs file = (pre ++ attribute name q v q' rest)%string ->
  includes pre (name ++ "=") = false ->
  quote2 q = true -> quote2 q' = true ->
  v <> "" -> all_chars not_quote2 v = true ->
  In f (glob_actions fs) ->
  declared root fs f = Some (normalizePath v, a0) ->
  exists r e,
    snd (scan fs (new_Scanner root)) = Normal r /\
    In e (Res.actions r) /\
    Res.urlPath e = normalizePath v /\
    Res.status e = Used /\ Res.confidence e = ReviewNeeded /\
    In (mkReference (path_relative root file) t v) (Res.references e).
Proof.
  intros Hname Hfile Hcontent Hpre Hq Hq' Hne Hv Hf Hd.
  apply (@recorded_reference_is_used fs root f v file t a0); [|exact Hf|exact Hd].
  unfold findReferences.
  apply records_bind_l;
    [|intros _; apply safe_bind;
      [apply safe_scanJsonFiles | intros _; apply safe_scanJavaScriptFiles]].
  unfold scanHtmlFiles.
  apply (@records_forEach (v, file, t) string _ _ file); [exact Hfile| |].
  - cbv zeta. rewrite Hcontent.
    assert (Hrest : safe
              (forEach (match_all href_re (pre ++ attribute name q v q' rest))
                 (fun m =>
                    url <- group1 href_re m ;;
                    if includes url "/api/"
                    then scanForApiUrlPatterns url file else ret tt) ;;
               scanForApiUrlPatterns (pre ++ attribute name q v q' rest) file)).
    { apply safe_bind; [|intros _; apply safe_scanForApiUrlPatterns].
      apply safe_forEach. intros m Hm. apply safe_bind.
      - eapply safe_group1; [reflexivity | exact Hm].
      - intros url. destruct (includes url "/api/");
          [apply safe_scanForApiUrlPatterns | apply safe_ret]. }
    destruct Hname as [E | [E | []]]; inversion E; subst name t.
    + apply records_bind_l.
      * apply (@records_attribute_loop "url" HtmlUrl _ file q q' v);
          try assumption; [reflexivity|].
        change url_re with (attr_re "url").
        rewrite (@match_all_attribute "u" "rl" pre q q' v rest);
          try assumption; [left; reflexivity | reflexivity].
      * intros _. apply safe_bind; [|intros _; exact Hrest].
        apply safe_forEach. intros m Hm. apply safe_bind.
        -- eapply safe_group1; [reflexivity | exact Hm].
        -- intros url. apply safe_addReference.
    + apply records_bind_r.
      * apply safe_forEach. intros m Hm. apply safe_bind.
        -- eapply safe_group1; [reflexivity | exact Hm].
        -- intros url. apply safe_addReference.
      * intros _. apply records_bind_l; [|intros _; exact Hrest].
        apply (@records_attribute_loop "action" HtmlAction _ file q q' v);
          try assumption; [reflexivity|].
        change action_re with (attr_re "action").
        rewrite (@match_all_attribute "a" "ction" pre q q' v rest);
          try assumption; [left; reflexivity | reflexivity].
  - intros y _.
    apply safe_bind; [|intros _; apply safe_bind; [|intros _; apply safe_bind;
                                                     [|intros _]]].
    + apply safe_forEach. intros m Hm. apply safe_bind.
      * eapply safe_group1; [reflexivity | exact Hm].
      * intros url. apply safe_addReference.
    + apply safe_forEach. intros m Hm. apply safe_bind.
      * eapply safe_group1; [reflexivity | exact Hm].
      * intros url. apply safe_addReference.
    + apply safe_forEach. intros m Hm. apply safe_bind.
      * eapply safe_group1; [reflexivity | exact Hm].
      * intros url. destruct (includes url "/api/");
          [apply safe_scanForApiUrlPatterns | apply safe_ret].
    + apply safe_scanForApiUrlPatterns.
Qed.

Lemma action_named_in_markup_is_used_witness :
  exists r e,
    snd (scan sample_project (new_Scanner "/srv/app")) = Normal r /\
    In e (Res.actions r) /\
    Res.urlPath e = "/api/v1/run" /\
    Res.status e = Used /\ Res.confidence e = ReviewNeeded /\
    In (mkReference "views/index.ejs" HtmlAction "/api/v1/run")
       (Res.references e).
Proof.
  apply (@action_named_in_markup_is_used
           sample_project "/srv/app" "/srv/app/views/index.ejs"
           "/srv/app/app/api/v1/run.json" "action" HtmlAction
           "<form " "/api/v1/run" ">" "'"%char "'"%char
           (Act.mkAction "/srv/app/app/api/v1/run.json" "app/api/v1/run.json"
                         "/api/v1/run" (JObj [("steps", JArr [])]) [])).
  - right. left. reflexivity.
  - left. reflexivity.
  - reflexivity.
  - reflexivity.
  - reflexivity.
  - reflexivity.
  - discriminate.
  - reflexivity.
  - simpl. auto.
  - reflexivity.
Defined.


(** ** A call in a document *)

Lemma safe_scanJson_turn (fs : FileSystem) (file : string) :
  safe (scanJson_turn fs file).
Proof.
  unfold scanJson_turn.
  apply safe_try_catch; [apply uniform_scanJson_body|].
  intros e. apply safe_ret.
Qed.

Lemma safe_api_files (content : json) (file : string) :
  Forall (fun v => exists x, v = JStr x) (found content "api_file") ->
  safe (findInObject content "api_file" (fun value =>
          addReference_value value file QueueApiFile)).
Proof.
  intros H.
  apply safe_ext
    with (m := forEach (found content "api_file") (fun value =>
                 addReference_value value file QueueApiFile)).
  - intros st. symmetry. apply findInObject_found.
  - apply safe_forEach. intros v Hv. rewrite Forall_forall in H.
    destruct (H v Hv) as (x & ->). apply safe_addReference.
Qed.

Lemma safe_strings_of (content : json) (key : string)
      (f : string -> M unit) :
  (forall s, safe (f s)) ->
  safe (findInObject content key (fun value => if_string value f)).
Proof.
  intros Hf. apply safe_findInObject. intros v. apply safe_if_string, Hf.
Qed.

Lemma records_strings_of (content : json) (key s file : string)
      (t : RefType) :
  In (JStr s) (found content key) ->
  records (s, file, t)
    (findInObject content key (fun value =>
       if_string value (fun s => addReference s file t))).
Proof.
  intros Hin.
  apply records_ext
    with (m := forEach (found content key) (fun value =>
                 if_string value (fun s => addReference s file t))).
  - intros st. symmetry. apply findInObject_found.
  - apply (@records_forEach (s, file, t) json _ _ (JStr s)); [exact Hin| |].
    + now apply records_addReference.
    + intros v _. apply safe_if_string. intros x. apply safe_addReference.
Qed.

Lemma records_api_file (content : json) (s file : string) :
  Forall (fun v => exists x, v = JStr x) (found content "api_file") ->
  In (JStr s) (found content "api_file") ->
  records (s, file, QueueApiFile)
    (findInObject content "api_file" (fun value =>
       addReference_value value file QueueApiFile)).
Proof.
  intros H Hin.
  apply records_ext
    with (m := forEach (found content "api_file") (fun value =>
                 addReference_value value file QueueApiFile)).
  - intros st. symmetry. apply findInObject_found.
  - apply (@records_forEach (s, file, QueueApiFile) json _ _ (JStr s));
      [exact Hin| |].
    + now apply records_addReference.
    + intros v Hv. rewrite Forall_forall in H.
      destruct (H v Hv) as (x & ->). apply safe_addReference.
Qed.

(** X21.  An action that a JSON document calls is never reported as
    unused.  Where a document of the project holds, under [api_file],
    [exec] or [module], a string that normalizes to the key of an action
    file (at a place the search visits, and every [api_file] of the
    document being a string), the scan returns the action as used, for
    review, with the reference among its references. *)
Theorem action_called_from_a_document_is_used
        (fs : FileSystem) (root file f key s : string) (t : RefType)
        (content : json) (a0 : Action) :
  In (key, t) [("api_file", QueueApiFile); ("exec", ExecString);
               ("module", ExecModule)] ->
  In file (glob_json fs) ->
  readJson fs file = Some content ->
  Forall (fun v => exists x, v = JStr x) (found content "api_file") ->
  In (JStr s) (found content key) ->
  In f (glob_actions fs) ->
  declared root fs f = Some (normalizePath s, a0) ->
  exists r e,
    snd (scan fs (new_Scanner root)) = Normal r /\
    In e (Res.actions r) /\
    Res.urlPath e = normalizePath s /\
    Res.status e = Used /\ Res.confidence e = ReviewNeeded /\
    In (mkReference (path_relative root file) t s) (Res.references e).
Proof.
  intros Hkey Hfile Hread Hapi Hin Hf Hd.
  apply (@recorded_reference_is_used fs root f s file t a0);
    [|exact Hf|exact Hd].
  unfold findReferences.
  apply records_bind_r; [apply safe_scanHtmlFiles | intros _].
  apply records_bind_l; [|intros _; apply safe_scanJavaScriptFiles].
  change (scanJsonFiles fs) with (forEach (glob_json fs) (scanJson_turn fs)).
  apply (@records_forEach (s, file, t) string _ _ file);
    [exact Hfile | | intros y _; apply safe_scanJson_turn].
  unfold scanJson_turn. apply records_try_catch.
  match goal with
  | |- records _ (bind (readJsonM fs file) ?k) =>
      apply records_ext with (m := k content);
        [intros st; unfold bind, readJsonM; rewrite Hread; reflexivity|]
  end.
  assert (Hscan : forall key', safe (findInObject content key' (fun value =>
                     if_string value (fun s => scanForApiUrlPatterns s file)))).
  { intros key'. apply safe_strings_of. intros x.
    apply safe_scanForApiUrlPatterns. }
  assert (Htail : safe
            (findInObject content "value" (fun value =>
               if_string value (fun s => scanForApiUrlPatterns s file)) ;;
             findInObject content "url" (fun value =>
               if_string value (fun s => scanForApiUrlPatterns s file)) ;;
             findInObject content "link" (fun value =>
               if_string value (fun s => scanForApiUrlPatterns s file)))).
  { apply safe_bind; [apply Hscan | intros _].
    apply safe_bind; [apply Hscan | intros _; apply Hscan]. }
  assert (Hadd : forall key' t', safe (findInObject content key' (fun value =>
                    if_string value (fun s => addReference s file t')))).
  { intros key' t'. apply safe_strings_of. intros x. apply safe_addReference. }
  destruct Hkey as [E | [E | [E | []]]]; inversion E; subst key t.
  - apply records_bind_l; [apply records_api_file; assumption | intros _].
    apply safe_bind; [apply Hadd | intros _].
    apply safe_bind; [apply Hadd | intros _; exact Htail].
  - apply records_bind_r; [apply safe_api_files, Hapi | intros _].
    apply records_bind_l; [apply records_strings_of, Hin | intros _].
    apply safe_bind; [apply Hadd | intros _; exact Htail].
  - apply records_bind_r; [apply safe_api_files, Hapi | intros _].
    apply records_bind_r; [apply Hadd | intros _].
    apply records_bind_l; [apply records_strings_of, Hin | intros _].
    exact Htail.
Qed.

Lemma action_called_from_a_document_is_used_witness :
  exists r e,
    snd (scan sample_caller_project (new_Scanner "/srv/app")) = Normal r /\
    In e (Res.actions r) /\
    Res.urlPath e = "lib/notify" /\
    Res.status e = Used /\ Res.confidence e = ReviewNeeded /\
    In (mkReference "app/api/send.json" ExecString "lib/notify")
       (Res.references e).
Proof.
  apply (@action_called_from_a_document_is_used
           sample_caller_project "/srv/app" "/srv/app/app/api/send.json"
           "/srv/app/app/lib/notify.json" "exec" "lib/notify" ExecString
           (JObj [("steps", JArr [JObj [("exec", JStr "lib/notify")]])])
           (Act.mkAction "/srv/app/app/lib/notify.json" "app/lib/notify.json"
                         "lib/notify" (JObj [("steps", JArr [])]) [])).
  - right. left. reflexivity.
  - left. reflexivity.
  - reflexivity.
  - constructor.
  - left. reflexivity.
  - simpl. auto.
  - reflexivity.
Defined.


(** ** An API path in a text *)

Lemma star_k_stop (A : Type) (p : ascii -> bool) (v tail : string)
      (k : string -> option A) (a : A) :
  all_chars p v = true -> ends_run p tail = true ->
  k tail = Some a ->
  star_k p (v ++ tail) k = Some a.
Proof.
  intros Hv Ht Hk. induction v as [|x v IH].
  - change (("" ++ tail)%string) with tail.
    destruct tail as [|c t]; [exact Hk|]. simpl in *.
    apply negb_true_iff in Ht. now rewrite Ht.
  - simpl in Hv. apply andb_true_iff in Hv. destruct Hv as [Hx Hv].
    simpl. now rewrite Hx, (IH Hv).
Qed.

Lemma exec_at_api_path (w tail : string) :
  w <> "" -> all_chars api_char w = true -> ends_run api_char tail = true ->
  exec_at api_re ("/api/" ++ w ++ tail) = Some (tail, None).
Proof.
  intros Hne Hw Ht. unfold exec_at, api_re. cbn [match_k].
  rewrite (lit_match_app "/api/"). cbn [match_k].
  destruct w as [|c w]; [congruence|].
  cbn [all_chars] in Hw. apply andb_true_iff in Hw. destruct Hw as [Hc Hw].
  cbn [append]. rewrite Hc.
  now apply star_k_stop.
Qed.

Lemma prefix_app_le (p : string) :
  forall u w,
    String.length p <= String.length u ->
    String.prefix p (u ++ w) = String.prefix p u.
Proof.
  induction p as [|a p IH]; intros u w H; [now rewrite !prefix_nil|].
  destruct u as [|b u]; [simpl in H; lia|].
  change ((String b u ++ w)%string) with (String b (u ++ w)%string).
  rewrite !prefix_cons, IH; [reflexivity | simpl in H; lia].
Qed.

(** The leftmost API path of a text is the first match of pattern 1. *)
Lemma match_all_api_path (pre w tail : string) :
  includes (pre ++ "/api") "/api/" = false ->
  w <> "" -> all_chars api_char w = true -> ends_run api_char tail = true ->
  match_all api_re (pre ++ "/api/" ++ w ++ tail)
    = ("/api/" ++ w)%string :: match_all api_re tail.
Proof.
  intros Hpre Hne Hw Ht. unfold match_all. induction pre as [|c pre IH].
  - change (("" ++ "/api/" ++ w ++ tail)%string)
      with (("/api/" ++ w ++ tail)%string).
    pose proof (@exec_at_api_path w tail Hne Hw Ht) as E.
    replace (("/api/" ++ w ++ tail)%string)
      with ((String "/" ("api/" ++ w) ++ tail)%string) in *
      by reflexivity.
    exact (match_all_from_found _ _ _ E).
  - change ((String c pre ++ "/api")%string)
      with (String c (pre ++ "/api")%string) in Hpre.
    rewrite includes_unfold in Hpre.
    destruct (String.prefix "/api/" (String c (pre ++ "/api"))) eqn:Hp;
      [discriminate|].
    change ((String c pre ++ "/api/" ++ w ++ tail)%string)
      with (String c (pre ++ "/api/" ++ w ++ tail)%string).
    rewrite match_all_from_unfold.
    assert (Hnone : exec_at api_re
                      (String c (pre ++ "/api/" ++ w ++ tail)) = None).
    { unfold exec_at, api_re. cbn [match_k]. apply lit_no_match.
      replace (String c (pre ++ "/api/" ++ w ++ tail))
        with ((String c (pre ++ "/api") ++ ("/" ++ w ++ tail))%string)
        by (cbn [append]; rewrite string_app_assoc; reflexivity).
      rewrite prefix_app_le; [exact Hp|].
      cbn [String.length]. rewrite length_app. simpl. lia. }
    rewrite Hnone. apply IH, Hpre.
Qed.

(** X22.  An action whose path stands in the text of a markup file is
    never reported as unused.  Where the text holds [/api/] followed by a
    run of path characters that ends there, with no earlier [/api/], and
    the path, cut at a question mark or a hash, normalizes to the key of
    an action file, the scan returns the action as used, for review, with
    the reference among its references. *)
Theorem api_path_in_markup_is_used
        (fs : FileSystem) (root file f : string) (pre w tail : string)
        (a0 : Action) :
  In file (glob_markup fs) ->
  readFile fs file = (pre ++ "/api/" ++ w ++ tail)%string ->
  includes (pre ++ "/api") "/api/" = false ->
  w <> "" -> all_chars api_char w = true -> ends_run api_char tail = true ->
  In f (glob_actions fs) ->
  let p := clean_path ("/api/" ++ w) in
  declared root fs f = Some (normalizePath p, a0) ->
  exists r e,
    snd (scan fs (new_Scanner root)) = Normal r /\
    In e (Res.actions r) /\
    Res.urlPath e = normalizePath p /\
    Res.status e = Used /\ Res.confidence e = ReviewNeeded /\
    In (mkReference (path_relative root file) UrlString p) (Res.references e).
Proof.
  intros Hfile Hcontent Hpre Hne Hw Ht Hf p Hd.
  apply (@recorded_reference_is_used fs root f p file UrlString a0);
    [|exact Hf|exact Hd].
  unfold findReferences.
  apply records_bind_l;
    [|intros _; apply safe_bind;
      [apply safe_scanJsonFiles | intros _; apply safe_scanJavaScriptFiles]].
  unfold scanHtmlFiles.
  apply (@records_forEach (p, file, UrlString) string _ _ file);
    [exact Hfile| |].
  - cbv zeta. rewrite Hcontent.
    apply records_bind_r.
    { apply safe_forEach. intros m Hm. apply safe_bind.
      - eapply safe_group1; [reflexivity | exact Hm].
      - intros url. apply safe_addReference. }
    intros _. apply records_bind_r.
    { apply safe_forEach. intros m Hm. apply safe_bind.
      - eapply safe_group1; [reflexivity | exact Hm].
      - intros url. apply safe_addReference. }
    intros _. apply records_bind_r.
    { apply safe_forEach. intros m Hm. apply safe_bind.
      - eapply safe_group1; [reflexivity | exact Hm].
      - intros url. destruct (includes url "/api/");
          [apply safe_scanForApiUrlPatterns | apply safe_ret]. }
    intros _. unfold scanForApiUrlPatterns.
    apply records_bind_l.
    + rewrite (@match_all_api_path pre w tail Hpre Hne Hw Ht).
      apply (@records_forEach (p, file, UrlString) string _ _
                              ("/api/" ++ w)%string);
        [left; reflexivity | now apply records_addReference |].
      intros m _. apply safe_addReference.
    + intros _. apply safe_forEach. intros m _.
      destruct (exec api_re m) as [[apiMatch cap]|];
        [apply safe_addReference | apply safe_ret].
  - intros y _.
    apply safe_bind; [|intros _; apply safe_bind; [|intros _; apply safe_bind;
                                                     [|intros _]]].
    + apply safe_forEach. intros m Hm. apply safe_bind.
      * eapply safe_group1; [reflexivity | exact Hm].
      * intros url. apply safe_addReference.
    + apply safe_forEach. intros m Hm. apply safe_bind.
      * eapply safe_group1; [reflexivity | exact Hm].
      * intros url. apply safe_addReference.
    + apply safe_forEach. intros m Hm. apply safe_bind.
      * eapply safe_group1; [reflexivity | exact Hm].
      * intros url. destruct (includes url "/api/");
          [apply safe_scanForApiUrlPatterns | apply safe_ret].
    + apply safe_scanForApiUrlPatterns.
Qed.

Lemma api_path_in_markup_is_used_witness :
  exists r e,
    snd (scan sample_project (new_Scanner "/srv/app")) = Normal r /\
    In e (Res.actions r) /\
    Res.urlPath e = "/api/v1/run" /\
    Res.status e = Used /\ Res.confidence e = ReviewNeeded /\
    In (mkReference "views/index.ejs" UrlString "/api/v1/run")
       (Res.references e).
Proof.
  apply (@api_path_in_markup_is_used
           sample_project "/srv/app" "/srv/app/views/index.ejs"
           "/srv/app/app/api/v1/run.json" "<form action='" "v1/run" "'>"
           (Act.mkAction "/srv/app/app/api/v1/run.json" "app/api/v1/run.json"
                         "/api/v1/run" (JObj [("steps", JArr [])]) [])).
  - left. reflexivity.
  - reflexivity.
  - reflexivity.
  - discriminate.
  - reflexivity.
  - reflexivity.
  - simpl. auto.
  - reflexivity.
Defined.


(** ** A call of [fetch] in a script *)

Lemma quote3_not_space (c : ascii) : quote3 c = true -> is_space c = false.
Proof.
  unfold quote3, quote2. intros H.
  apply orb_true_iff in H. destruct H as [H | H];
    [apply orb_true_iff in H; destruct H as [H | H]|];
    apply Ascii.eqb_eq in H; subst c; reflexivity.
Qed.

Lemma quote3_not (c : ascii) : quote3 c = true -> not_quote3 c = false.
Proof. unfold not_quote3. now intros ->. Qed.

Lemma exec_at_fetch_call (sp1 sp2 : string) (q : ascii) (v : string)
      (q' : ascii) (sp3 rest : string) :
  all_chars is_space sp1 = true -> all_chars is_space sp2 = true ->
  all_chars is_space sp3 = true ->
  quote3 q = true -> quote3 q' = true ->
  v <> "" -> all_chars not_quote3 v = true ->
  exec_at fetch_re (fetch_call sp1 sp2 q v q' sp3 rest) = Some (rest, Some v).
Proof.
  intros H1 H2 H3 Hq Hq' Hne Hv. unfold exec_at, fetch_re, fetch_call.
  cbn [seqs match_k]. rewrite (lit_match_app "fetch").
  apply star_k_stop; [exact H1 | reflexivity|].
  rewrite (lit_match_app "(").
  apply star_k_stop;
    [exact H2 | cbn [ends_run]; now rewrite (quote3_not_space _ Hq)|].
  cbn [match_k]. rewrite Hq.
  destruct v as [|c v]; [congruence|].
  cbn [all_chars] in Hv. apply andb_true_iff in Hv. destruct Hv as [Hc Hv].
  cbn [append]. rewrite Hc.
  apply star_k_run; [exact Hv | apply quote3_not, Hq'|].
  cbn [match_k]. rewrite Hq'.
  apply star_k_stop; [exact H3 | reflexivity|].
  cbn [lit match_k]. rewrite Ascii.eqb_refl. f_equal. f_equal. f_equal.
  exact (take_app_exact (String c v) (String q' (sp3 ++ String ")" rest))).
Qed.

Lemma fetch_call_app (sp1 sp2 : string) (q : ascii) (v : string)
      (q' : ascii) (sp3 rest : string) :
  fetch_call sp1 sp2 q v q' sp3 rest
    = (fetch_call sp1 sp2 q v q' sp3 "" ++ rest)%string.
Proof.
  unfold fetch_call. cbn [append].
  rewrite !string_app_assoc. cbn [append].
  rewrite !string_app_assoc. cbn [append].
  rewrite !string_app_assoc. cbn [append].
  now rewrite ?string_app_assoc.
Qed.

(** The leftmost text a pattern matches, where the pattern begins with
    a literal that does not occur before. *)
Lemma match_all_leftmost (r : regex) (a : ascii) (p' pre y rest : string)
      (cap : option string) :
  (forall s, String.prefix (String a p') s = false -> exec_at r s = None) ->
  all_chars (fun c => negb (Ascii.eqb a c)) p' = true ->
  includes pre (String a p') = false ->
  exec_at r (String a (p' ++ y) ++ rest) = Some (rest, cap) ->
  match_all r (pre ++ String a (p' ++ y) ++ rest)
    = String a (p' ++ y) :: match_all r rest.
Proof.
  intros Hlit Hfresh Hpre E. unfold match_all.
  induction pre as [|c pre IH].
  - exact (match_all_from_found _ _ _ E).
  - rewrite includes_unfold in Hpre.
    destruct (String.prefix (String a p') (String c pre)) eqn:Hp;
      [discriminate|].
    change ((String c pre ++ String a (p' ++ y) ++ rest)%string)
      with (String c (pre ++ String a (p' ++ y) ++ rest)%string).
    rewrite match_all_from_unfold, Hlit; [apply IH, Hpre|].
    rewrite prefix_cons in *.
    destruct (Ascii.eqb a c); [|reflexivity]. cbn [andb] in *.
    destruct (String.prefix p' (pre ++ String a (p' ++ y) ++ rest)) eqn:Hb;
      [|reflexivity].
    change ((String a (p' ++ y) ++ rest)%string)
      with (String a ((p' ++ y) ++ rest)%string) in Hb.
    apply (@prefix_stops a p' pre _ Hfresh) in Hb. congruence.
Qed.

(** X23.  An action that a script fetches is never reported as unused.
    Where the text of a script holds a call of [fetch] on a literal that
    begins with [/api/], with no earlier [fetch], and the literal
    normalizes to the key of an action file, the scan returns the action
    as used, for review, with the reference among its references. *)
Theorem action_fetched_by_a_script_is_used
        (fs : FileSystem) (root file f : string)
        (pre sp1 sp2 v sp3 rest : string) (q q' : ascii) (a0 : Action) :
  In file (glob_scripts fs) ->
  readFile fs file = (pre ++ fetch_call sp1 sp2 q v q' sp3 rest)%string ->
  includes pre "fetch" = false ->
  all_chars is_space sp1 = true -> all_chars is_space sp2 = true ->
  all_chars is_space sp3 = true ->
  quote3 q = true -> quote3 q' = true ->
  all_chars not_quote3 v = true -> startsWith v "/api/" = true ->
  In f (glob_actions fs) ->
  declared root fs f = Some (normalizePath v, a0) ->
  exists r e,
    snd (scan fs (new_Scanner root)) = Normal r /\
    In e (Res.actions r) /\
    Res.urlPath e = normalizePath v /\
    Res.status e = Used /\ Res.confidence e = ReviewNeeded /\
    In (mkReference (path_relative root file) JsFetch v) (Res.references e).
Proof.
  intros Hfile Hcontent Hpre H1 H2 H3 Hq Hq' Hv Hapi Hf Hd.
  assert (Hne : v <> "") by (intros ->; discriminate).
  apply (@recorded_reference_is_used fs root f v file JsFetch a0);
    [|exact Hf|exact Hd].
  unfold findReferences.
  apply records_bind_r; [apply safe_scanHtmlFiles | intros _].
  apply records_bind_r; [apply safe_scanJsonFiles | intros _].
  unfold scanJavaScriptFiles.
  assert (Hturn : forall content y,
             safe (forEach (match_all ajax_re content) (fun m =>
                     url <- group1 ajax_re m ;;
                     if startsWith url "/api/" then addReference url y JsAjax
                     else ret tt))).
  { intros content y. apply safe_forEach. intros m Hm. apply safe_bind.
    - eapply safe_group1; [reflexivity | exact Hm].
    - intros url. destruct (startsWith url "/api/");
        [apply safe_addReference | apply safe_ret]. }
  assert (Hfetch : forall content y m,
             In m (match_all fetch_re content) ->
             safe (url <- group1 fetch_re m ;;
                   if startsWith url "/api/" then addReference url y JsFetch
                   else ret tt)).
  { intros content y m Hm. apply safe_bind.
    - eapply safe_group1; [reflexivity | exact Hm].
    - intros url. destruct (startsWith url "/api/");
        [apply safe_addReference | apply safe_ret]. }
  apply (@records_forEach (v, file, JsFetch) string _ _ file);
    [exact Hfile| |].
  - cbv zeta. rewrite Hcontent.
    apply records_bind_l; [|intros _; apply Hturn].
    set (m := fetch_call sp1 sp2 q v q' sp3 "").
    assert (Hm : match_all fetch_re (pre ++ fetch_call sp1 sp2 q v q' sp3 rest)
                 = m :: match_all fetch_re rest).
    { rewrite fetch_call_app. fold m.
      pose proof (@exec_at_fetch_call sp1 sp2 q v q' sp3 rest
                    H1 H2 H3 Hq Hq' Hne Hv) as E.
      rewrite fetch_call_app in E. fold m in E.
      unfold m, fetch_call in *. cbn [append] in *.
      apply (@match_all_leftmost fetch_re "f" "etch" pre _ rest (Some v));
        [|reflexivity | exact Hpre | exact E].
      intros s Hs. unfold exec_at, fetch_re. cbn [seqs match_k].
      apply lit_no_match, Hs. }
    rewrite Hm.
    apply (@records_forEach (v, file, JsFetch) string _ _ m);
      [left; reflexivity| |].
    + unfold group1.
      assert (Hex : exec fetch_re m = Some (m, Some v)).
      { rewrite exec_unfold. unfold m.
        rewrite (@exec_at_fetch_call sp1 sp2 q v q' sp3 ""
                   H1 H2 H3 Hq Hq' Hne Hv).
        cbn [String.length]. now rewrite Nat.sub_0_r, take_all. }
      rewrite Hex.
      apply records_ext with (m := addReference v file JsFetch);
        [intros st; unfold bind, ret; now rewrite Hapi|].
      now apply records_addReference.
    + intros m' Hm'. rewrite <- Hm in Hm'. exact (Hfetch _ _ _ Hm').
  - intros y _. apply safe_bind; [|intros _; apply Hturn].
    apply safe_forEach. intros m Hm. exact (Hfetch _ _ _ Hm).
Qed.

Lemma action_fetched_by_a_script_is_used_witness :
  exists r e,
    snd (scan sample_script_project (new_Scanner "/srv/app")) = Normal r /\
    In e (Res.actions r) /\
    Res.urlPath e = "/api/v1/idle" /\
    Res.status e = Used /\ Res.confidence e = ReviewNeeded /\
    In (mkReference "public/js/main.js" JsFetch "/api/v1/idle")
       (Res.references e).
Proof.
  apply (@action_fetched_by_a_script_is_used
           sample_script_project "/srv/app" "/srv/app/public/js/main.js"
           "/srv/app/app/api/v1/idle.json"
           "const r = await " "" " " "/api/v1/idle" " " ";"
           "'"%char "'"%char
           (Act.mkAction "/srv/app/app/api/v1/idle.json"
                         "app/api/v1/idle.json" "/api/v1/idle"
                         (JObj [("exec", JObj [("steps", JArr [])])]) [])).
  - left. reflexivity.
  - reflexivity.
  - reflexivity.
  - reflexivity.
  - reflexivity.
  - reflexivity.
  - reflexivity.
  - reflexivity.
  - reflexivity.
  - reflexivity.
  - simpl. auto.
  - reflexivity.
Defined.


(** ** The calls inside the [exec] block of a document *)

Lemma writes_nothing (file : string) (t : RefType) (l : list json) :
  (forall s, ~ In (JStr s) l) ->
  writes (forEach l (fun value =>
            if_string value (fun s => addReference s file t)))
         [] (Normal tt).
Proof.
  induction l as [|v l IH]; intros H st; [reflexivity|].
  cbn [forEach]. unfold bind.
  assert (Hv : if_string v (fun s => addReference s file t) st
               = (st, Normal tt)).
  { destruct v; try reflexivity. exfalso. apply (H s). left. reflexivity. }
  rewrite Hv. apply IH. intros s Hs. apply (H s). right. exact Hs.
Qed.

(** X24.  The search for [exec] does not look inside the [exec] block
    of a document.  Where the value under the top-level key [exec] is
    not a string and no other entry of the document holds the key, the
    search records no reference for the document, whatever calls the
    block contains. *)
Theorem calls_inside_the_exec_block_are_not_recorded
        (pre post : list (string * json)) (block : json) (file : string) :
  (forall s, block <> JStr s) ->
  found (JObj pre) "exec" = [] ->
  found (JObj post) "exec" = [] ->
  found (JObj (pre ++ ("exec", block) :: post)) "exec" = [block] /\
  writes (findInObject (JObj (pre ++ ("exec", block) :: post)) "exec"
            (fun value =>
               if_string value (fun s => addReference s file ExecString)))
         [] (Normal tt).
Proof.
  intros Hb Hpre Hpost.
  assert (E : found (JObj (pre ++ ("exec", block) :: post)) "exec" = [block]).
  { rewrite found_JObj, flat_map_app. cbn [flat_map fst snd].
    rewrite String.eqb_refl, <- !found_JObj, Hpre, Hpost. reflexivity. }
  split; [exact E|].
  eapply writes_ext; [intros st; symmetry; apply findInObject_found|].
  rewrite E. apply writes_nothing.
  intros s [H | []]. exact (Hb s H).
Qed.

Lemma calls_inside_the_exec_block_are_not_recorded_witness :
  writes (findInObject
            (JObj [("meta", JObj []);
                   ("exec",
                    JObj [("steps", JArr [JObj [("exec", JStr "lib/notify")]])])])
            "exec"
            (fun value =>
               if_string value
                 (fun s => addReference s "/srv/app/app/api/send.json"
                                        ExecString)))
         [] (Normal tt).
Proof.
  apply (@calls_inside_the_exec_block_are_not_recorded
           [("meta", JObj [])] []
           (JObj [("steps", JArr [JObj [("exec", JStr "lib/notify")]])])
           "/srv/app/app/api/send.json").
  - intros s. discriminate.
  - reflexivity.
  - reflexivity.
Defined.
